(** * ants-lv-syncer: Loyverse -> Supabase inventory synchronisation

    A shallow embedding of [src/sync-service.ts] (the reconciliation engine
    and its two orchestrators) and [src/supabase-service.ts] (the store
    facade), with the properties of the specification stated and settled
    against it.

    Conventions of the embedding
    - JavaScript [number]s are IEEE 754 doubles, Rocq's primitive binary64
      [float], with its addition; [Math.floor] is the floor of the real
      number a finite double stands for. The instants and ages of the file
      cache are rationals.
    - [string | undefined] fields are [option string]; JavaScript truthiness
      ([a || b], [if (a)]) is written out in module [Js].
    - A [Map] built by [new Map(pairs)] or by repeated [set] is a [gmap]
      filled left to right, so that a later pair replaces an earlier one.
    - Asynchronous, throwing code is a state-and-exception monad [M] over the
      state it touches; a [try]/[catch] keeps the state reached at the throw.
    - Instants ([new Date()], ISO strings) are natural numbers read from a
      clock that ticks at every reading.
    - The Loyverse client is what the orchestrator sees of it: for each
      method, the collection it returns or the exception it throws.
    - The store is the two tables, the cache file of the SKU enumeration,
      and, for each kind of request, the queue of outcomes the store will
      give: any request may be refused. Every call that leaves the process
      is recorded in a trace, so that what a pass sends can be told from
      what the store keeps. *)

(** The development also embeds the code around the engine, each part over
    the state it touches: [src/config.ts] and [src/index.ts] (the
    configuration check and the HTTP entry point, over the world of the
    engine), [src/cache-service.ts] (the file cache, over the places of the
    file system its paths point to, with what the file system answers to
    each write and removal) and [src/loyverse-client.ts] (the paginated
    fetches, over the cache directory and the requests sent). *)

From Stdlib Require Import QArith Qround Floats.
From stdpp Require Import gmap strings list fin_maps.

Local Open Scope string_scope.

(* ===================================================================== *)
(** * 1. JavaScript values *)
(* ===================================================================== *)

Module Js.

(** Truthiness of a [string | undefined]: [undefined] and [""] are falsy. *)
Definition truthy (o : option string) : bool :=
  match o with
  | Some EmptyString => false
  | Some _ => true
  | None => false
  end.

(** Truthiness of a plain string. *)
Definition nonempty (s : string) : bool :=
  match s with EmptyString => false | _ => true end.

(** [o || d] for a string default. *)
Definition or_else (o : option string) (d : string) : string :=
  match o with
  | Some s => if nonempty s then s else d
  | None => d
  end.

(** [o || null]. *)
Definition or_null (o : option string) : option string :=
  if truthy o then o else None.

(** The real number a double stands for; [None] for NaN and the
    infinities. *)
Definition value (x : float) : option Q :=
  match Prim2SF x with
  | S754_zero _ => Some 0%Q
  | S754_finite s m e => Some (inject_Z (cond_Zopp s (Zpos m)) * Qpower 2 e)%Q
  | S754_infinity _ => None
  | S754_nan => None
  end.

(** [x || 0] on a [number | undefined]: [undefined] and the falsy numbers,
    which are [0], [-0] and [NaN], give [0]. *)
Definition num_or_zero (o : option float) : float :=
  match o with
  | Some x =>
      match Prim2SF x with
      | S754_zero _ => 0%float
      | S754_nan => 0%float
      | _ => x
      end
  | None => 0%float
  end.

(** [Math.floor(x)], as JSON carries it: an integer, or [null] (here [None])
    for NaN and the infinities. *)
Definition floor (x : float) : option Z :=
  match value x with
  | Some q => Some (Qfloor q)
  | None => None
  end.

Arguments value : simpl never.
Arguments num_or_zero : simpl never.
Arguments floor : simpl never.

(** What a [catch] clause can receive: an [Error] instance, which has a
    [message], or any other thrown value. *)
Inductive exn : Type :=
| ErrorObj (message : string)
| NonError.

(** [error instanceof Error ? error.message : 'Unknown error'] *)
Definition errorMessage (e : exn) : string :=
  match e with
  | ErrorObj m => m
  | NonError => "Unknown error"
  end.

End Js.

(* ===================================================================== *)
(** * 2. Data model (types.ts) *)
(* ===================================================================== *)

Record LoyverseCategory := {
  c_id : string;
  c_name : string;
}.

(** Only the fields the engine reads; the remaining flags of an item are
    carried along untouched by the source and play no role. *)
Record LoyverseItem := {
  i_id : string;
  i_item_name : string;
  i_description : option string;
  i_category_id : option string;
}.

Record LoyverseVariant := {
  v_variant_id : string;
  v_item_id : string;
  v_sku : option string;
  v_option1_value : option string;
  v_option2_value : option string;
  v_option3_value : option string;
  v_default_price : float;
}.

Record LoyverseInventory := {
  inv_variant_id : string;
  inv_store_id : string;
  inv_in_stock : float;
  inv_cost : option float;
}.

Record ProductWithInventory := {
  pwi_variant : LoyverseVariant;
  pwi_item : LoyverseItem;
  pwi_inventory : LoyverseInventory;
  pwi_categoryName : option string;
}.

Record SupabaseProduct := {
  p_sku : string;
  p_name : option string;
  p_category : option string;
  p_desc : option string;
  p_price : option float;
  p_qty : option Z;
  p_image : option string;
}.

Record SyncResult := {
  r_products_synced : nat;
  r_products_deleted : nat;
  r_errors : list string;
  r_started_at : nat;
  r_completed_at : nat;
}.

Inductive SyncStatus := success | partial | failed.

(** A row of [sync_logs]. [completed_at] is what [getLastSyncTimestamp]
    reads back as [string | null]. *)
Record SyncLog := {
  l_sync_type : string;
  l_products_synced : nat;
  l_errors : list string;
  l_started_at : nat;
  l_completed_at : option nat;
  l_status : SyncStatus;
}.

(* ===================================================================== *)
(** * 3. Catalog join and flatten (sync-service.ts, steps 1-5) *)
(* ===================================================================== *)

(** [new Map(categories.map(cat => [cat.id, cat.name]))] *)
Definition categoryMap_of (categories : list LoyverseCategory) : gmap string string :=
  foldl (λ m cat, <[c_id cat := c_name cat]> m) ∅ categories.

(** [new Map(items.map(item => [item.id, item]))] *)
Definition itemsMap_of (items : list LoyverseItem) : gmap string LoyverseItem :=
  foldl (λ m item, <[i_id item := item]> m) ∅ items.

(** One turn of the [inventoryLevels.forEach] accumulation. *)
Definition inventory_step (inventoryMap : gmap string float) (inv : LoyverseInventory)
  : gmap string float :=
  let currentQty := Js.num_or_zero (inventoryMap !! inv_variant_id inv) in
  <[inv_variant_id inv := (currentQty + inv_in_stock inv)%float]> inventoryMap.

Definition inventoryMap_of (inventoryLevels : list LoyverseInventory) : gmap string float :=
  foldl inventory_step ∅ inventoryLevels.

(** The body of [variants.map(variant => ...)]: [None] is the [null] returned
    for a variant whose item is unknown. *)
Definition prepare
    (categoryMap : gmap string string) (itemsMap : gmap string LoyverseItem)
    (inventoryMap : gmap string float) (inventoryLevels : list LoyverseInventory)
    (variant : LoyverseVariant) : option ProductWithInventory :=
  match itemsMap !! v_item_id variant with
  | None => None
  | Some item =>
      let totalQty := Js.num_or_zero (inventoryMap !! v_variant_id variant) in
      let inventory :=
        List.find (λ inv, String.eqb (inv_variant_id inv) (v_variant_id variant))
                  inventoryLevels in
      Some {|
        pwi_variant := variant;
        pwi_item := item;
        pwi_inventory :=
          match inventory with
          | Some inv =>
              {| inv_variant_id := inv_variant_id inv;
                 inv_store_id := inv_store_id inv;
                 inv_in_stock := totalQty;
                 inv_cost := inv_cost inv |}
          | None =>
              {| inv_variant_id := v_variant_id variant;
                 inv_store_id := "";
                 inv_in_stock := totalQty;
                 inv_cost := None |}
          end;
        pwi_categoryName :=
          match i_category_id item with
          | Some cid => if Js.nonempty cid then categoryMap !! cid else None
          | None => None
          end;
      |}
  end.

(** [variants.map(...).filter(p => p !== null)] *)
Definition productsData_of
    (categoryMap : gmap string string) (itemsMap : gmap string LoyverseItem)
    (inventoryLevels : list LoyverseInventory)
    (variants : list LoyverseVariant) : list ProductWithInventory :=
  omap (prepare categoryMap itemsMap (inventoryMap_of inventoryLevels) inventoryLevels)
       variants.

(** [variant.sku || variant.variant_id] *)
Definition effectiveSku (variant : LoyverseVariant) : string :=
  Js.or_else (v_sku variant) (v_variant_id variant).

(* ===================================================================== *)
(** * 4. Flattened products (supabase-service.ts, upsertProducts) *)
(* ===================================================================== *)

(** [if (v) options.push(v)] *)
Definition push_if_truthy (options : list string) (o : option string) : list string :=
  match o with
  | Some s => if Js.nonempty s then (options ++ [s])%list else options
  | None => options
  end.

Definition productName (item : LoyverseItem) (variant : LoyverseVariant) : string :=
  let productName := i_item_name item in
  let options := [] in
  let options := push_if_truthy options (v_option1_value variant) in
  let options := push_if_truthy options (v_option2_value variant) in
  let options := push_if_truthy options (v_option3_value variant) in
  if (0 <? length options)%nat
  then productName +:+ " (" +:+ String.concat ", " options +:+ ")"
  else productName.

Definition toSupabaseProduct (p : ProductWithInventory) : SupabaseProduct :=
  let totalQty := Js.num_or_zero (Some (inv_in_stock (pwi_inventory p))) in
  {| p_sku := effectiveSku (pwi_variant p);
     p_name := Some (productName (pwi_item p) (pwi_variant p));
     p_category := Js.or_null (pwi_categoryName p);
     p_desc := Js.or_null (i_description (pwi_item p));
     p_price := Some (v_default_price (pwi_variant p));
     p_qty := Js.floor totalQty;
     p_image := None |}.

(** [products.filter(p => p.sku)] *)
Definition validProducts_of (productsData : list ProductWithInventory)
  : list SupabaseProduct :=
  List.filter (λ p, Js.nonempty (p_sku p)) (map toSupabaseProduct productsData).

(* ===================================================================== *)
(** * 5. Effects: state, exceptions, the outside world *)
(* ===================================================================== *)

(** A computation over a state [S] that returns an [A] or throws. The state
    reached at a throw is kept: this is what a [catch] clause observes. *)
Definition M (S A : Type) : Type := S → (Js.exn + A) * S.

Definition ret {S A} (a : A) : M S A := λ s, (inr a, s).

Definition throw {S A} (e : Js.exn) : M S A := λ s, (inl e, s).

Definition bind {S A B} (m : M S A) (k : A → M S B) : M S B :=
  λ s, match m s with
       | (inr a, s') => k a s'
       | (inl e, s') => (inl e, s')
       end.

Definition try_catch {S A} (m : M S A) (handler : Js.exn → M S A) : M S A :=
  λ s, match m s with
       | (inl e, s') => handler e s'
       | (inr a, s') => (inr a, s')
       end.

Definition gets {S A} (f : S → A) : M S A := λ s, (inr (f s), s).

Definition modify {S} (f : S → S) : M S unit := λ s, (inr tt, f s).

Declare Scope sync_scope.
Delimit Scope sync_scope with sync.
Notation "'let*' x ':=' m 'in' k" := (bind m (λ x, k))
  (at level 10, x pattern, m at level 100, k at level 200) : sync_scope.
Notation "m ;; k" := (bind m (λ _, k))
  (at level 100, right associativity) : sync_scope.
Local Open Scope sync_scope.

(** Every call that leaves the process, in the order it was made. *)
Inductive Event : Type :=
| EGetAllCategories
| EGetAllItems
| EGetAllVariants
| EGetAllInventoryLevels
| EGetItemsUpdatedAfter (date : nat)
| EGetVariantsUpdatedAfter (date : nat)
| EUpsert (chunk : list SupabaseProduct)
| ESelectSkus (first last : nat)
| EDelete (chunk : list string)
| ESelectLastSync
| EInsertLog (row : SyncLog).

(** The store may refuse any request. Each kind of request has a queue of
    outcomes, consumed one per request: [Some error] is the [error] field of
    the response, [None] (or an exhausted queue) is a request that is served.
    Likewise the file system may refuse to write the cache file of the SKU
    enumeration: [Some error] is the exception [writeFileSync] throws. *)
Record Faults := {
  f_upsert : list (option Js.exn);
  f_select_skus : list (option Js.exn);
  f_delete : list (option Js.exn);
  f_last_sync : list (option Js.exn);
  f_insert_log : list (option Js.exn);
  f_cache_write : list (option Js.exn);
}.

Definition no_faults : Faults :=
  {| f_upsert := []; f_select_skus := []; f_delete := [];
     f_last_sync := []; f_insert_log := []; f_cache_write := [] |}.

Record World := {
  w_products : gmap string SupabaseProduct;   (* table [products], keyed by sku *)
  w_sync_logs : list SyncLog;                 (* table [sync_logs], oldest first *)
  w_sku_cache : option (list string);         (* cache file supabase_product_skus *)
  w_faults : Faults;
  w_clock : nat;
  w_trace : list Event;
}.

Definition set_products (t : gmap string SupabaseProduct) (w : World) : World :=
  {| w_products := t; w_sync_logs := w_sync_logs w; w_sku_cache := w_sku_cache w;
     w_faults := w_faults w; w_clock := w_clock w; w_trace := w_trace w |}.

Definition set_sync_logs (l : list SyncLog) (w : World) : World :=
  {| w_products := w_products w; w_sync_logs := l; w_sku_cache := w_sku_cache w;
     w_faults := w_faults w; w_clock := w_clock w; w_trace := w_trace w |}.

Definition set_sku_cache (c : option (list string)) (w : World) : World :=
  {| w_products := w_products w; w_sync_logs := w_sync_logs w; w_sku_cache := c;
     w_faults := w_faults w; w_clock := w_clock w; w_trace := w_trace w |}.

Definition set_faults (f : Faults) (w : World) : World :=
  {| w_products := w_products w; w_sync_logs := w_sync_logs w;
     w_sku_cache := w_sku_cache w;
     w_faults := f; w_clock := w_clock w; w_trace := w_trace w |}.

Definition set_clock (c : nat) (w : World) : World :=
  {| w_products := w_products w; w_sync_logs := w_sync_logs w;
     w_sku_cache := w_sku_cache w;
     w_faults := w_faults w; w_clock := c; w_trace := w_trace w |}.

Definition set_trace (t : list Event) (w : World) : World :=
  {| w_products := w_products w; w_sync_logs := w_sync_logs w;
     w_sku_cache := w_sku_cache w;
     w_faults := w_faults w; w_clock := w_clock w; w_trace := t |}.

(** [new Date()] *)
Definition new_Date : M World nat :=
  λ w, (inr (w_clock w), set_clock (S (w_clock w)) w).

Definition emit (ev : Event) : M World unit :=
  modify (λ w, set_trace (w_trace w ++ [ev])%list w).

Inductive FaultKind :=
  FUpsert | FSelectSkus | FDelete | FLastSync | FInsertLog | FCacheWrite.

Definition queue_of (k : FaultKind) (f : Faults) : list (option Js.exn) :=
  match k with
  | FUpsert => f_upsert f
  | FSelectSkus => f_select_skus f
  | FDelete => f_delete f
  | FLastSync => f_last_sync f
  | FInsertLog => f_insert_log f
  | FCacheWrite => f_cache_write f
  end.

Definition set_queue (k : FaultKind) (q : list (option Js.exn)) (f : Faults) : Faults :=
  {| f_upsert := if k is FUpsert then q else f_upsert f;
     f_select_skus := if k is FSelectSkus then q else f_select_skus f;
     f_delete := if k is FDelete then q else f_delete f;
     f_last_sync := if k is FLastSync then q else f_last_sync f;
     f_insert_log := if k is FInsertLog then q else f_insert_log f;
     f_cache_write := if k is FCacheWrite then q else f_cache_write f |}.

(** The outcome of the next request of kind [k]. *)
Definition next_outcome (k : FaultKind) : M World (option Js.exn) :=
  λ w, match queue_of k (w_faults w) with
       | [] => (inr None, w)
       | o :: q => (inr o, set_faults (set_queue k q (w_faults w)) w)
       end.

(* --------------------------------------------------------------------- *)
(** ** The Loyverse client, seen from the orchestrator *)

(** What each method of [LoyverseClient] answers during one pass: the
    fetched collection, or the exception it throws. *)
Record LoyverseClient := {
  getAllCategories : Js.exn + list LoyverseCategory;
  getAllItems : Js.exn + list LoyverseItem;
  getAllVariants : Js.exn + list LoyverseVariant;
  getAllInventoryLevels : Js.exn + list LoyverseInventory;
  getItemsUpdatedAfter : nat → Js.exn + list LoyverseItem;
  getVariantsUpdatedAfter : nat → Js.exn + list LoyverseVariant;
}.

Definition call {A} (ev : Event) (answer : Js.exn + A) : M World A :=
  emit ev;; (λ w, (answer, w)).

(* --------------------------------------------------------------------- *)
(** ** The Supabase client: requests against the two tables

    The client library is not part of the sources. Each request answers
    with its [data] and [error] fields and never throws; what a served
    request does to the tables follows the store interface of the
    specification. *)

(** Modelled from the spec: the store's [upsert], which the sources only
    call. It is insert-or-replace keyed by [sku] ("existing rows with
    matching SKU are overwritten in full"), applied row by row in the order
    of the batch. *)
Definition upsert_rows (chunk : list SupabaseProduct)
    (t : gmap string SupabaseProduct) : gmap string SupabaseProduct :=
  foldl (λ m p, <[p_sku p := p]> m) t chunk.

(** [from('products').upsert(chunk, { onConflict: 'sku' })] *)
Definition pg_upsert (chunk : list SupabaseProduct) : M World (option Js.exn) :=
  emit (EUpsert chunk);;
  let* error := next_outcome FUpsert in
  match error with
  | Some e => ret (Some e)
  | None => modify (λ w, set_products (upsert_rows chunk (w_products w)) w);; ret None
  end.

(** The order in which the store enumerates the rows of [products]. *)
Definition stored_skus (w : World) : list string := (map_to_list (w_products w)).*1.

(** [from('products').select('sku').range(first, last)] *)
Definition pg_select_skus (first last : nat)
  : M World (option (list string) * option Js.exn) :=
  emit (ESelectSkus first last);;
  let* error := next_outcome FSelectSkus in
  match error with
  | Some e => ret (None, Some e)
  | None =>
      let* all := gets stored_skus in
      ret (Some (take (S last - first) (drop first all)), None)
  end.

(** [from('products').delete().in('sku', chunk).select()] *)
Definition pg_delete_in (chunk : list string)
  : M World (option (list SupabaseProduct) * option Js.exn) :=
  emit (EDelete chunk);;
  let* error := next_outcome FDelete in
  match error with
  | Some e => ret (None, Some e)
  | None =>
      let* t := gets w_products in
      let gone := filter (λ kv, kv.1 ∈ chunk) t in
      modify (set_products (filter (λ kv, kv.1 ∉ chunk) t));;
      ret (Some ((map_to_list gone).*2), None)
  end.

(** Descending order on [completed_at]; a null sorts first. *)
Definition completed_after (a b : SyncLog) : bool :=
  match l_completed_at a, l_completed_at b with
  | None, Some _ => true
  | Some x, Some y => (y <? x)%nat
  | _, _ => false
  end.

Definition is_success (row : SyncLog) : bool :=
  match l_status row with success => true | _ => false end.

Definition latest_success (logs : list SyncLog) : option SyncLog :=
  foldl (λ best row,
           match best with
           | None => Some row
           | Some b => if completed_after row b then Some row else Some b
           end)
        None (List.filter is_success logs).

(** [from('sync_logs').select('completed_at').eq('status', 'success')
      .order('completed_at', { ascending: false }).limit(1).single()]:
    [single()] answers with an error when no row is found. *)
Definition pg_select_last_success : M World (option SyncLog * option Js.exn) :=
  emit ESelectLastSync;;
  let* error := next_outcome FLastSync in
  match error with
  | Some e => ret (None, Some e)
  | None =>
      let* logs := gets w_sync_logs in
      match latest_success logs with
      | Some row => ret (Some row, None)
      | None => ret (None, Some (Js.ErrorObj "no rows"))
      end
  end.

(** [from('sync_logs').insert(row)] *)
Definition pg_insert_log (row : SyncLog) : M World (option Js.exn) :=
  emit (EInsertLog row);;
  let* error := next_outcome FInsertLog in
  match error with
  | Some e => ret (Some e)
  | None => modify (λ w, set_sync_logs (w_sync_logs w ++ [row])%list w);; ret None
  end.

(* ===================================================================== *)
(** * 6. SupabaseService (supabase-service.ts) *)
(* ===================================================================== *)

Definition chunkSize : nat := 100.
Definition pageSize : nat := 1000.

(** [for (let i = 0; i < xs.length; i += size) xs.slice(i, i + size)]: the
    slices in the order the loop takes them. The loop index grows at every
    turn, so [length xs] turns are enough. *)
Fixpoint slices_from {A} (turns i size : nat) (xs : list A) : list (list A) :=
  match turns with
  | O => []
  | S turns =>
      if (i <? length xs)%nat
      then take size (drop i xs) :: slices_from turns (i + size) size xs
      else []
  end.

Definition slices {A} (size : nat) (xs : list A) : list (list A) :=
  slices_from (length xs) 0 size xs.

Fixpoint upsert_chunks (chunks : list (list SupabaseProduct)) (totalUpserted : nat)
  : M World nat :=
  match chunks with
  | [] => ret totalUpserted
  | chunk :: rest =>
      let* error := pg_upsert chunk in
      match error with
      | Some e => throw e
      | None => upsert_chunks rest (totalUpserted + length chunk)
      end
  end.

Definition upsertProducts (productsData : list ProductWithInventory) : M World nat :=
  let validProducts := validProducts_of productsData in
  upsert_chunks (slices chunkSize validProducts) 0.

Definition getLastSyncTimestamp : M World (option nat) :=
  let* (data, error) := pg_select_last_success in
  match error, data with
  | None, Some row => ret (l_completed_at row)
  | _, _ => ret None
  end.

Definition logSync (syncType : string) (productsSynced : nat) (errors : list string)
    (startedAt : nat) (status : SyncStatus) : M World unit :=
  let* completedAt := new_Date in
  let* error :=
    pg_insert_log {| l_sync_type := syncType;
                     l_products_synced := productsSynced;
                     l_errors := errors;
                     l_started_at := startedAt;
                     l_completed_at := Some completedAt;
                     l_status := status |} in
  (* if (error) console.error(...) *)
  ret tt.

(** The [while (hasMore)] loop of [getAllProductSkus]. [turns] bounds the
    number of pages requested; [getAllProductSkus] starts it with more turns
    than the table has rows. *)
Fixpoint skus_loop (turns page : nat) (allSkus : list string) : M World (list string) :=
  match turns with
  | O => ret allSkus
  | S turns =>
      let* (data, error) :=
        pg_select_skus (page * pageSize) ((page + 1) * pageSize - 1) in
      match error with
      | Some e => throw e
      | None =>
          match data with
          | Some rows =>
              if (0 <? length rows)%nat
              then
                let allSkus := (allSkus ++ rows)%list in
                if (length rows =? pageSize)%nat
                then skus_loop turns (page + 1) allSkus
                else ret allSkus
              else ret allSkus
          | None => ret allSkus
          end
      end
  end.

(** [this.cache.set(cacheKey, allSkus)]: a write that fails is caught and
    logged, and the cache is left as it was. *)
Definition cache_skus (allSkus : list string) : M World unit :=
  let* refused := next_outcome FCacheWrite in
  match refused with
  | None => modify (set_sku_cache (Some allSkus))
  | Some error => ret tt
  end.

Definition getAllProductSkus (useCache : bool) : M World (list string) :=
  let* cached := gets w_sku_cache in
  match useCache, cached with
  | true, Some skus => ret skus
  | _, _ =>
      let* rows := gets (λ w, size (w_products w)) in
      let* allSkus := skus_loop (S rows) 0 [] in
      cache_skus allSkus;;
      ret allSkus
  end.

Fixpoint delete_chunks (chunks : list (list string)) (totalDeleted : nat)
  : M World nat :=
  match chunks with
  | [] => ret totalDeleted
  | chunk :: rest =>
      let* (data, error) := pg_delete_in chunk in
      match error with
      | Some e => throw e
      | None =>
          let deletedCount := match data with Some rows => length rows | None => 0%nat end in
          delete_chunks rest (totalDeleted + deletedCount)
      end
  end.

Definition deleteProductsBySkus (skus : list string) : M World nat :=
  match skus with
  | [] => ret 0%nat
  | _ => delete_chunks (slices chunkSize skus) 0
  end.

(* ===================================================================== *)
(** * 7. InventorySyncService (sync-service.ts) *)
(* ===================================================================== *)

(** The mutable locals of a pass, which its [catch] clause and its final
    [return] read. *)
Record Frame := {
  productsSynced : nat;
  productsDeleted : nat;
  errors : list string;
}.

Definition frame0 : Frame :=
  {| productsSynced := 0; productsDeleted := 0; errors := [] |}.

Definition set_productsSynced (n : nat) (f : Frame) : Frame :=
  {| productsSynced := n; productsDeleted := productsDeleted f; errors := errors f |}.

Definition set_productsDeleted (n : nat) (f : Frame) : Frame :=
  {| productsSynced := productsSynced f; productsDeleted := n; errors := errors f |}.

Definition push_error (msg : string) (f : Frame) : Frame :=
  {| productsSynced := productsSynced f; productsDeleted := productsDeleted f;
     errors := (errors f ++ [msg])%list |}.

(** A store or client call made from inside a pass. *)
Definition io {A} (m : M World A) : M (Frame * World) A :=
  λ '(f, w), let '(r, w') := m w in (r, (f, w')).

Definition local {A} (g : Frame → A) : M (Frame * World) A := gets (λ s, g s.1).

Definition assign (g : Frame → Frame) : M (Frame * World) unit :=
  modify (λ s, (g s.1, s.2)).

(** Runs the body of a method with fresh locals. *)
Definition method {A} (body : M (Frame * World) A) : M World A :=
  λ w, let '(r, (_, w')) := body (frame0, w) in (r, w').

Section Service.

Variable loyverseClient : LoyverseClient.
Variable useCache : bool.

(** Steps 5 and 6, shared by both passes. *)
Definition sync_to_supabase (productsData : list ProductWithInventory)
  : M (Frame * World) unit :=
  if (0 <? length productsData)%nat
  then let* n := io (upsertProducts productsData) in
       assign (set_productsSynced n)
  else ret tt.

(** [new Set(productsData.map(p => p.variant.sku || p.variant.variant_id)
                        .filter(sku => sku))] *)
Definition loyverseSkus_of (productsData : list ProductWithInventory) : gset string :=
  list_to_set
    (List.filter Js.nonempty (map (λ p, effectiveSku (pwi_variant p)) productsData)).

(** [existingSkus.filter(sku => !loyverseSkus.has(sku))] *)
Definition skusToDelete_of (existingSkus : list string) (loyverseSkus : gset string)
  : list string :=
  List.filter (λ sku, negb (bool_decide (sku ∈ loyverseSkus))) existingSkus.

(** Step 7 of [fullSync]. *)
Definition remove_missing (productsData : list ProductWithInventory)
  : M (Frame * World) unit :=
  let* existingSkus := io (getAllProductSkus useCache) in
  let loyverseSkus := loyverseSkus_of productsData in
  let skusToDelete := skusToDelete_of existingSkus loyverseSkus in
  if (0 <? length skusToDelete)%nat
  then let* n := io (deleteProductsBySkus skusToDelete) in
       assign (set_productsDeleted n)
  else ret tt.

(** The [try] block of [fullSync] up to, and excluding, [logSync]. *)
Definition fullSync_steps : M (Frame * World) unit :=
  let* categories := io (call EGetAllCategories (getAllCategories loyverseClient)) in
  let categoryMap := categoryMap_of categories in
  let* items := io (call EGetAllItems (getAllItems loyverseClient)) in
  let itemsMap := itemsMap_of items in
  let* variants := io (call EGetAllVariants (getAllVariants loyverseClient)) in
  let* inventoryLevels :=
    io (call EGetAllInventoryLevels (getAllInventoryLevels loyverseClient)) in
  let productsData := productsData_of categoryMap itemsMap inventoryLevels variants in
  sync_to_supabase productsData;;
  remove_missing productsData.

(** The [logSync] call of a pass, reading the locals as they are. *)
Definition log_pass (syncType : string) (startedAt : nat) (status : SyncStatus)
  : M (Frame * World) unit :=
  let* n := local productsSynced in
  let* errs := local errors in
  io (logSync syncType n errs startedAt status).

(** The [catch] clause of both passes. *)
Definition on_error (syncType : string) (startedAt : nat) (error : Js.exn)
  : M (Frame * World) unit :=
  let errorMessage := Js.errorMessage error in
  assign (push_error errorMessage);;
  log_pass syncType startedAt failed.

(** The statements after the [try]/[catch]. *)
Definition summary (startedAt : nat) : M (Frame * World) SyncResult :=
  let* completedAt := io new_Date in
  let* f := local id in
  ret {| r_products_synced := productsSynced f;
         r_products_deleted := productsDeleted f;
         r_errors := errors f;
         r_started_at := startedAt;
         r_completed_at := completedAt |}.

Definition fullSync : M World SyncResult :=
  method (
    let* startedAt := io new_Date in
    try_catch (fullSync_steps;; log_pass "full" startedAt success)
              (on_error "full" startedAt);;
    summary startedAt).

(** [itemIdsNeeded]: the item references of the updated variants that the
    incremental item fetch did not bring. *)
Definition itemIdsNeeded_of (itemsMap : gmap string LoyverseItem)
    (variants : list LoyverseVariant) : gset string :=
  foldl (λ needed variant,
           if bool_decide (is_Some (itemsMap !! v_item_id variant))
           then needed
           else needed ∪ {[ v_item_id variant ]})
        ∅ variants.

(** [allItems.forEach(item => { if (itemIdsNeeded.has(item.id)) itemsMap.set(item.id, item) })] *)
Definition fill_missing (itemIdsNeeded : gset string) (allItems : list LoyverseItem)
    (itemsMap : gmap string LoyverseItem) : gmap string LoyverseItem :=
  foldl (λ m item,
           if bool_decide (i_id item ∈ itemIdsNeeded)
           then <[i_id item := item]> m
           else m)
        itemsMap allItems.

(** The cross-reference repair of [incrementalSync]. *)
Definition repair_items (itemsMap : gmap string LoyverseItem)
    (variants : list LoyverseVariant) : M (Frame * World) (gmap string LoyverseItem) :=
  let itemIdsNeeded := itemIdsNeeded_of itemsMap variants in
  if (0 <? size itemIdsNeeded)%nat
  then let* allItems := io (call EGetAllItems (getAllItems loyverseClient)) in
       ret (fill_missing itemIdsNeeded allItems itemsMap)
  else ret itemsMap.

(** The [try] block of [incrementalSync] after the watermark is known, up
    to, and excluding, [logSync]. *)
Definition incrementalSync_steps (lastSync : nat) : M (Frame * World) unit :=
  let* categories := io (call EGetAllCategories (getAllCategories loyverseClient)) in
  let categoryMap := categoryMap_of categories in
  let* items :=
    io (call (EGetItemsUpdatedAfter lastSync)
             (getItemsUpdatedAfter loyverseClient lastSync)) in
  let itemsMap := itemsMap_of items in
  let* variants :=
    io (call (EGetVariantsUpdatedAfter lastSync)
             (getVariantsUpdatedAfter loyverseClient lastSync)) in
  let* itemsMap := repair_items itemsMap variants in
  let* inventoryLevels :=
    io (call EGetAllInventoryLevels (getAllInventoryLevels loyverseClient)) in
  let productsData := productsData_of categoryMap itemsMap inventoryLevels variants in
  sync_to_supabase productsData.

(** [Some r] is the early [return await this.fullSync()] from inside the
    [try] block; [None] falls through to the statements after it. *)
Definition incrementalSync : M World SyncResult :=
  method (
    let* startedAt := io new_Date in
    let* early :=
      try_catch
        (let* lastSync := io getLastSyncTimestamp in
         match lastSync with
         | None => let* r := io fullSync in ret (Some r)
         | Some lastSync =>
             incrementalSync_steps lastSync;;
             log_pass "incremental" startedAt success;;
             ret None
         end)
        (λ error, on_error "incremental" startedAt error;; ret None) in
    match early with
    | Some r => ret r
    | None => summary startedAt
    end).

End Service.

(* ===================================================================== *)
(** * 8. Observations used to state the properties *)
(* ===================================================================== *)

(** The two passes, as the trigger endpoint dispatches them. *)
Inductive SyncKind := Full | Incremental.

Definition sync_pass (loyverseClient : LoyverseClient) (useCache : bool)
    (kind : SyncKind) : M World SyncResult :=
  match kind with
  | Full => fullSync loyverseClient useCache
  | Incremental => incrementalSync loyverseClient useCache
  end.

(** The calls made while the world went from [w] to [w']. *)
Definition calls_of (w w' : World) : list Event :=
  drop (length (w_trace w)) (w_trace w').

(** The rows sent to [sync_logs], the SKUs sent for deletion and the rows
    sent for upsert, among some calls. *)
Definition ledger_inserts (calls : list Event) : list SyncLog :=
  omap (λ ev, match ev with EInsertLog row => Some row | _ => None end) calls.

Definition delete_batches (calls : list Event) : list (list string) :=
  omap (λ ev, match ev with EDelete chunk => Some chunk | _ => None end) calls.

Definition deleted_skus (calls : list Event) : list string :=
  concat (delete_batches calls).

Definition upsert_batches (calls : list Event) : list (list SupabaseProduct) :=
  omap (λ ev, match ev with EUpsert chunk => Some chunk | _ => None end) calls.

Definition upserted_rows (calls : list Event) : list SupabaseProduct :=
  concat (upsert_batches calls).

Definition is_full_item_fetch (ev : Event) : bool :=
  match ev with EGetAllItems => true | _ => false end.

Definition full_item_fetches (calls : list Event) : nat :=
  length (List.filter is_full_item_fetch calls).

(** Whether the store serves the next insert into [sync_logs]. *)
Definition insert_accepted (w : World) : bool :=
  match f_insert_log (w_faults w) with
  | Some _ :: _ => false
  | _ => true
  end.











(** The last row of a batch that carries a given SKU. *)
Definition last_with_sku (sku : string) (rows : list SupabaseProduct)
  : option SupabaseProduct :=
  List.find (λ p, String.eqb (p_sku p) sku) (reverse rows).

(** A variant whose item the join can resolve. *)
Definition resolvable (itemsMap : gmap string LoyverseItem) (variant : LoyverseVariant)
  : bool :=
  bool_decide (is_Some (itemsMap !! v_item_id variant)).

(** The products a full pass prepares from what the client answers. *)
Definition prepared (categories : list LoyverseCategory) (items : list LoyverseItem)
    (variants : list LoyverseVariant) (inventoryLevels : list LoyverseInventory)
  : list ProductWithInventory :=
  productsData_of (categoryMap_of categories) (itemsMap_of items) inventoryLevels variants.

(** What [getAllProductSkus] answers when the store serves every request:
    the cached enumeration when caching is on and one exists, the rows of
    the table otherwise. *)
Definition enumerated (useCache : bool) (cache : option (list string))
    (table : gmap string SupabaseProduct) : list string :=
  match useCache, cache with
  | true, Some skus => skus
  | _, _ => (map_to_list table).*1
  end.

Definition without (skus : list string) (table : gmap string SupabaseProduct)
  : gmap string SupabaseProduct :=
  filter (λ kv, kv.1 ∉ skus) table.

(** The ledger: the rows of [sync_logs] and what the store will answer to
    the next inserts into it. *)
Definition ledger (w : World) : list SyncLog * list (option Js.exn) :=
  (w_sync_logs w, f_insert_log (w_faults w)).

(** A computation is steady for a relation when every run, normal or
    throwing, takes a state to a related one. *)
Definition steady {S : Type} (R : relation S) {A} (m : M S A) : Prop :=
  ∀ s, R s (m s).2.

(** [evolves P w w']: from [w] to [w'] only calls satisfying [P] were made,
    and the ledger is untouched unless inserts into it are among them. *)
Definition evolves (P : Event → Prop) (w w' : World) : Prop :=
  (∃ t, w_trace w' = (w_trace w ++ t)%list ∧ Forall P t)
  ∧ ((∀ row, ¬ P (EInsertLog row)) → ledger w' = ledger w).

Definition pass_evolves (P : Event → Prop) (s s' : Frame * World) : Prop :=
  evolves P s.2 s'.2 ∧ errors s'.1 = errors s.1.

Definition store_event (ev : Event) : Prop :=
  match ev with
  | EUpsert _ | ESelectSkus _ _ | EDelete _ | ESelectLastSync => True
  | _ => False
  end.

Definition fetch_event (ev : Event) : Prop :=
  match ev with
  | EGetAllCategories | EGetAllVariants | EGetAllInventoryLevels
  | EGetItemsUpdatedAfter _ | EGetVariantsUpdatedAfter _ => True
  | _ => False
  end.

Definition select_event (ev : Event) : Prop :=
  match ev with ESelectSkus _ _ => True | _ => False end.

Definition not_ledger_insert (ev : Event) : Prop :=
  match ev with EInsertLog _ => False | _ => True end.

Definition not_full_item_fetch (ev : Event) : Prop :=
  match ev with EGetAllItems => False | _ => True end.

(** The row a pass sends to the ledger, from its locals and the clock. *)
Definition log_row (syncType : string) (f : Frame) (startedAt : nat)
    (status : SyncStatus) (w : World) : SyncLog :=
  {| l_sync_type := syncType;
     l_products_synced := productsSynced f;
     l_errors := errors f;
     l_started_at := startedAt;
     l_completed_at := Some (w_clock w);
     l_status := status |}.

(** What a world becomes when a pass logs: the clock ticks, the insert is
    sent, and the row is appended when the store serves the insert. *)
Definition logs_from (row : SyncLog) (w w' : World) : Prop :=
  w_trace w' = (w_trace w ++ [EInsertLog row])%list
  ∧ w_sync_logs w' = (w_sync_logs w ++ if insert_accepted w then [row] else [])%list
  ∧ w_products w' = w_products w
  ∧ w_sku_cache w' = w_sku_cache w
  ∧ w_clock w' = S (w_clock w)
  ∧ (w_faults w = no_faults → w_faults w' = no_faults).

(** The locals and the ledger row a pass ends with, from the outcome of its
    steps. *)
Definition final_frame (res : Js.exn + unit) (f : Frame) : Frame :=
  match res with
  | inl e => push_error (Js.errorMessage e) f
  | inr _ => f
  end.

Definition final_status (res : Js.exn + unit) : SyncStatus :=
  match res with inl _ => failed | inr _ => success end.

Definition final_result (startedAt : nat) (f : Frame) (completedAt : nat) : SyncResult :=
  {| r_products_synced := productsSynced f;
     r_products_deleted := productsDeleted f;
     r_errors := errors f;
     r_started_at := startedAt;
     r_completed_at := completedAt |}.

(** What it means for a failure [e], thrown when the locals were [f1], to
    have been handled by a pass of type [syncType] that took the world from
    [w] to [w'], returned [r] and sent [row] to the ledger. *)
Definition failure_recorded (syncType : string) (e : Js.exn) (f1 : Frame)
    (w w' : World) (r : SyncResult) (row : SyncLog) : Prop :=
  r_errors r = [Js.errorMessage e]
  ∧ r_products_synced r = productsSynced f1
  ∧ ledger_inserts (calls_of w w') = [row]
  ∧ l_sync_type row = syncType
  ∧ l_status row = failed
  ∧ l_products_synced row = productsSynced f1
  ∧ l_errors row = [Js.errorMessage e]
  ∧ (insert_accepted w = true → w_sync_logs w' = (w_sync_logs w ++ [row])%list).

(* --------------------------------------------------------------------- *)
(** ** Concrete catalogs and stores *)

Module Scenario.

Definition shirt : LoyverseItem :=
  {| i_id := "i1"; i_item_name := "Shirt"; i_description := None;
     i_category_id := None |}.

(** A variant of [shirt] without options. *)
Definition variant (variant_id : string) (sku : option string) : LoyverseVariant :=
  {| v_variant_id := variant_id; v_item_id := "i1"; v_sku := sku;
     v_option1_value := None; v_option2_value := None; v_option3_value := None;
     v_default_price := 10 |}.

(** A client that answers every request; since the watermark no item was
    updated and every variant was. *)
Definition client (items : list LoyverseItem) (variants : list LoyverseVariant)
  : LoyverseClient :=
  {| getAllCategories := inr [];
     getAllItems := inr items;
     getAllVariants := inr variants;
     getAllInventoryLevels := inr [];
     getItemsUpdatedAfter := λ _, inr [];
     getVariantsUpdatedAfter := λ _, inr variants |}.

Definition row (sku : string) : SupabaseProduct :=
  {| p_sku := sku; p_name := None; p_category := None; p_desc := None;
     p_price := None; p_qty := None; p_image := None |}.

Definition store (rows : list SupabaseProduct) (cache : option (list string))
    (logs : list SyncLog) (faults : Faults) : World :=
  {| w_products := upsert_rows rows ∅; w_sync_logs := logs; w_sku_cache := cache;
     w_faults := faults; w_clock := 0; w_trace := [] |}.

(** A store that refuses the next insert into [sync_logs]. *)
Definition ledger_down : Faults :=
  {| f_upsert := []; f_select_skus := []; f_delete := []; f_last_sync := [];
     f_insert_log := [Some (Js.ErrorObj "sync_logs unavailable")];
     f_cache_write := [] |}.

(** A store that refuses the next upsert. *)
Definition upsert_down : Faults :=
  {| f_upsert := [Some (Js.ErrorObj "upsert refused")]; f_select_skus := [];
     f_delete := []; f_last_sync := []; f_insert_log := []; f_cache_write := [] |}.

(** A store that refuses both the next upsert and the next insert into
    [sync_logs]. *)
Definition store_down : Faults :=
  {| f_upsert := [Some (Js.ErrorObj "store unreachable")]; f_select_skus := [];
     f_delete := []; f_last_sync := [];
     f_insert_log := [Some (Js.ErrorObj "store unreachable")];
     f_cache_write := [] |}.

Definition earlier_success : SyncLog :=
  {| l_sync_type := "full"; l_products_synced := 0; l_errors := [];
     l_started_at := 0; l_completed_at := Some 1; l_status := success |}.

End Scenario.

(* --------------------------------------------------------------------- *)
(** ** Relations between the world before and after a computation *)

(** A row that [upsertProducts] lets through: its SKU is not empty. *)
Definition valid_row (p : SupabaseProduct) : Prop := Js.nonempty (p_sku p) = true.

(** A relation on worlds, seen from inside a pass. *)
Definition in_pass (R : relation World) (s s' : Frame * World) : Prop := R s.2 s'.2.

(** Every row of the later table is a row of the earlier one, left as it
    was, or a row stored under its own, non-empty SKU. *)
Definition rows_kept_or_keyed (w w' : World) : Prop :=
  ∀ sku p, w_products w' !! sku = Some p →
           w_products w !! sku = Some p ∨ (p_sku p = sku ∧ sku ≠ "").

(** No SKU of the earlier table is missing from the later one. *)
Definition no_row_lost (w w' : World) : Prop :=
  ∀ sku, is_Some (w_products w !! sku) → is_Some (w_products w' !! sku).

(** Every ledger entry was completed before now. *)
Definition ledger_in_past (w : World) : Prop :=
  ∀ row, row ∈ w_sync_logs w → ∃ t, l_completed_at row = Some t ∧ (t < w_clock w)%nat.

(** Time does not go back, and the ledger only grows, by entries completed
    between the two worlds: not before the last reading of the clock in the
    earlier world, and before now in the later one. *)
Definition ledger_grows (w w' : World) : Prop :=
  (w_clock w ≤ w_clock w')%nat
  ∧ ∃ new, w_sync_logs w' = (w_sync_logs w ++ new)%list
           ∧ ∀ row, row ∈ new →
               ∃ t, l_completed_at row = Some t
                    ∧ (w_clock w ≤ S t)%nat ∧ (t < w_clock w')%nat.

(** The store serves the next watermark query. *)
Definition query_served (w : World) : bool :=
  match f_last_sync (w_faults w) with
  | Some _ :: _ => false
  | _ => true
  end.

(** [t] is the latest completion time among the successful entries, none of
    which lacks one. *)
Definition latest_completion (logs : list SyncLog) (t : nat) : Prop :=
  (∃ row, row ∈ logs ∧ l_status row = success ∧ l_completed_at row = Some t)
  ∧ ∀ row, row ∈ logs → l_status row = success →
           ∃ t', l_completed_at row = Some t' ∧ (t' ≤ t)%nat.

(** Every row of the table is stored under its own SKU. *)
Definition keyed_by_sku (t : gmap string SupabaseProduct) : Prop :=
  ∀ sku p, t !! sku = Some p → p_sku p = sku.

Definition not_delete (ev : Event) : Prop :=
  match ev with EDelete _ => False | _ => True end.

(** The count of deleted products is left as it was. *)
Definition keeps_deleted (s s' : Frame * World) : Prop :=
  productsDeleted s'.1 = productsDeleted s.1.

(** A catalog of [n] variants of one item, with distinct identifiers ("v",
    "vi", "vii", ...) and no SKU, and a store whose upsert requests get the
    given outcomes. *)
Definition many_variants (n : nat) : list LoyverseVariant :=
  map (λ i, Scenario.variant (Nat.iter i (λ s, s +:+ "i") "v") None) (seq 0 n).

Definition upsert_outcomes (outcomes : list (option Js.exn)) : Faults :=
  {| f_upsert := outcomes; f_select_skus := []; f_delete := []; f_last_sync := [];
     f_insert_log := []; f_cache_write := [] |}.

(** The count of synced products is left as it was. *)
Definition keeps_synced (s s' : Frame * World) : Prop :=
  productsSynced s'.1 = productsSynced s.1.


(** Whether the file system accepts the next write of the cache file of the
    SKU enumeration. *)
Definition cache_write_accepted (w : World) : bool :=
  match f_cache_write (w_faults w) with
  | Some _ :: _ => false
  | _ => true
  end.

(** The tables and the cache file are as they were. *)
Definition untouched (w w' : World) : Prop :=
  w_products w' = w_products w
  ∧ w_sku_cache w' = w_sku_cache w
  ∧ w_sync_logs w' = w_sync_logs w.

(** Rows are only removed: every row of the later table is a row of the
    earlier one. *)
Definition only_removes (w w' : World) : Prop :=
  ∀ sku p, w_products w' !! sku = Some p → w_products w !! sku = Some p.

(* --------------------------------------------------------------------- *)
(** ** The configuration and the HTTP entry point (config.ts, index.ts) *)

(** The three variables [config] reads from the environment that
    [validateConfig] checks; [None] is an unset variable. *)
Record Env := {
  LOYVERSE_API_TOKEN : option string;
  SUPABASE_URL : option string;
  SUPABASE_KEY : option string;
}.

Record Config := {
  loyverse_apiToken : string;
  supabase_url : string;
  supabase_key : string;
}.

(** [process.env.X || ''] *)
Definition config (env : Env) : Config :=
  {| loyverse_apiToken := Js.or_else (LOYVERSE_API_TOKEN env) "";
     supabase_url := Js.or_else (SUPABASE_URL env) "";
     supabase_key := Js.or_else (SUPABASE_KEY env) "" |}.

(** [if (!value) errors.push(msg)] *)
Definition push_if_missing (errors : list string) (value msg : string) : list string :=
  if Js.nonempty value then errors else (errors ++ [msg])%list.

Definition newline : string := String (Ascii.ascii_of_nat 10) EmptyString.

(** A word between double quotes. *)
Definition quoted (word : string) : string :=
  let quote := String (Ascii.ascii_of_nat 34) EmptyString in
  quote +:+ word +:+ quote.

(** The [errors] array of [validateConfig] when it reaches its last test. *)
Definition config_errors (c : Config) : list string :=
  let errors := [] in
  let errors := push_if_missing errors (loyverse_apiToken c) "LOYVERSE_API_TOKEN is required" in
  let errors := push_if_missing errors (supabase_url c) "SUPABASE_URL is required" in
  let errors := push_if_missing errors (supabase_key c) "SUPABASE_KEY is required" in
  errors.

Definition validateConfig {S} (c : Config) : M S unit :=
  let errors := config_errors c in
  if (0 <? length errors)%nat
  then throw (Js.ErrorObj ("Configuration errors:" +:+ newline
                           +:+ String.concat newline errors))
  else ret tt.

(** What a field of the request body or of the query string can hold, as
    far as the handler tells values apart: [undefined], a boolean, a string,
    any other value that converts to a string (null, a number, a plain
    object or array), and a value whose conversion to a string throws (an
    object whose own [toString] is not callable, or an array that holds
    one). *)
Inductive JsValue : Type :=
| JsUndefined
| JsBool (b : bool)
| JsString (s : string)
| JsOther
| JsUnprintable.

(** [`${v}`] returns rather than throws. *)
Definition printable (v : JsValue) : bool :=
  match v with JsUnprintable => false | _ => true end.

(** The two properties the handler reads. *)
Record Params := {
  prm_type : JsValue;
  prm_useCache : JsValue;
}.

(** [req.body] is [undefined] when no body was parsed; the properties are
    those of the object otherwise. *)
Record Request := {
  req_method : string;
  req_body : option Params;
  req_query : Params;
}.

(** [req.method === 'POST' ? req.body : req.query] *)
Definition request_params (req : Request) : option Params :=
  if String.eqb (req_method req) "POST" then req_body req else Some (req_query req).

(** A destructuring default: it applies to [undefined] only. *)
Definition or_default (d v : JsValue) : JsValue :=
  match v with JsUndefined => d | _ => v end.

(** [const { type = 'full', useCache = true } = ...] *)
Definition requested_type (p : Params) : JsValue :=
  or_default (JsString "full") (prm_type p).

Definition requested_useCache (p : Params) : JsValue :=
  or_default (JsBool true) (prm_useCache p).

(** [useCache === 'true' || useCache === true] *)
Definition cache_flag (p : Params) : bool :=
  match requested_useCache p with
  | JsString s => String.eqb s "true"
  | JsBool b => b
  | _ => false
  end.

(** [type] is the string [name]: a [case] of the [switch], which compares
    with [===]. *)
Definition is_case (type : JsValue) (name : string) : bool :=
  match type with JsString s => String.eqb s name | _ => false end.

(** The body of a response, field by field; a field that is not sent is
    [None]. *)
Record Json := {
  j_success : option bool;
  j_error : option string;
  j_message : option string;
  j_type : option JsValue;
  j_result : option SyncResult;
  j_timestamp : option nat;
}.

Record Response := {
  res_status : nat;
  res_json : Json;
}.

(** The messages of the two [TypeError]s the engine can throw in the
    handler, which depend on the engine and on how the sources were
    compiled: for destructuring [undefined], and for converting to a string
    a value that cannot be. *)
Record Engine := {
  cannot_destructure : string;
  cannot_convert : string;
}.

(** What the handler sees of the services it creates:
    [new InventorySyncService(useCache)], whose constructors may throw, and
    which gives the client of the pass; and the count the store reports to
    [getProductCount], null when it reports none. *)
Record Backend := {
  new_InventorySyncService : bool → Js.exn + LoyverseClient;
  product_count : option nat;
}.

(** [result.count || 0] *)
Definition getProductCount (backend : Backend) : M World nat :=
  ret (match product_count backend with Some n => n | None => 0%nat end).

(** The count is printed, and nothing else. *)
Definition getStats (backend : Backend) : M World unit :=
  let* count := getProductCount backend in
  ret tt.

(** The message logged when a sync is triggered, a template literal:
    [new Date()], then [type] and [useCache] converted to strings, which
    throws when one of them cannot be. *)
Definition log_trigger (engine : Engine) (params : Params) : M World unit :=
  new_Date;;
  if printable (requested_type params) && printable (requested_useCache params)
  then ret tt
  else throw (Js.ErrorObj (cannot_convert engine)).

Definition handleSync (engine : Engine) (env : Env) (backend : Backend)
    (req : Request) : M World Response :=
  try_catch
    (validateConfig (config env);;
     let* params :=
       match request_params req with
       | Some p => ret p
       | None => throw (Js.ErrorObj (cannot_destructure engine))
       end in
     let type := requested_type params in
     let useCache := cache_flag params in
     log_trigger engine params;;
     let* loyverseClient :=
       match new_InventorySyncService backend useCache with
       | inr client => ret client
       | inl e => throw e
       end in
     let respond (result : SyncResult) : M World Response :=
       let* timestamp := new_Date in
       ret {| res_status := 200;
              res_json := {| j_success := Some true; j_error := None;
                             j_message := None; j_type := Some type;
                             j_result := Some result;
                             j_timestamp := Some timestamp |} |} in
     if is_case type "full" then
       let* result := fullSync loyverseClient useCache in
       respond result
     else if is_case type "incremental" then
       let* result := incrementalSync loyverseClient useCache in
       respond result
     else if is_case type "stats" then
       getStats backend;;
       let* timestamp := new_Date in
       ret {| res_status := 200;
              res_json := {| j_success := Some true; j_error := None;
                             j_message := Some "Stats retrieved (check server logs)";
                             j_type := None; j_result := None;
                             j_timestamp := Some timestamp |} |}
     else
       ret {| res_status := 400;
              res_json := {| j_success := None;
                             j_error := Some ("Invalid sync type. Use " +:+ quoted "full"
                                              +:+ ", " +:+ quoted "incremental"
                                              +:+ ", or " +:+ quoted "stats");
                             j_message := None; j_type := None; j_result := None;
                             j_timestamp := None |} |})
    (λ error,
       let* timestamp := new_Date in
       ret {| res_status := 500;
              res_json := {| j_success := None; j_error := Some "Sync failed";
                             j_message := Some (Js.errorMessage error);
                             j_type := None; j_result := None;
                             j_timestamp := Some timestamp |} |}).

(** [type] is one of the three cases of the [switch]. *)
Definition known_type (type : JsValue) : bool :=
  is_case type "full" || is_case type "incremental" || is_case type "stats".

(** The name of a pass in a request. *)
Definition kind_name (kind : SyncKind) : string :=
  match kind with Full => "full" | Incremental => "incremental" end.

(** The environment sets the three variables to non-empty values. *)
Definition configured (env : Env) : bool :=
  Js.truthy (LOYVERSE_API_TOKEN env) && Js.truthy (SUPABASE_URL env)
  && Js.truthy (SUPABASE_KEY env).

(** The clock apart, nothing has changed and no call was made. *)
Definition only_time_passed (w w' : World) : Prop :=
  w_products w' = w_products w ∧ w_sync_logs w' = w_sync_logs w
  ∧ w_sku_cache w' = w_sku_cache w ∧ w_faults w' = w_faults w
  ∧ w_trace w' = w_trace w.

(* --------------------------------------------------------------------- *)
(** ** The file cache (cache-service.ts) *)

(** Where a path points to: an entry of the cache directory, by its name,
    or some other place of the file system, by its canonical path. *)
Definition Location : Type := (string + string)%type.

Definition InCache (name : string) : Location := inl name.

Definition Elsewhere (canonical : string) : Location := inr canonical.

(** What is found at a location: a file, with what reading it gives (its
    text, or [None] when reading it throws), or a directory; both with
    their modification time, in milliseconds. *)
Inductive Node : Type :=
| File (text : option string) (mtimeMs : Q)
| Directory (mtimeMs : Q).

Definition node_mtimeMs (node : Node) : Q :=
  match node with
  | File _ mtimeMs => mtimeMs
  | Directory mtimeMs => mtimeMs
  end.

(** What is at the path of the cache directory, which the constructor
    creates when nothing is there: nothing (it has been removed since), a
    directory, or something that is not a directory. *)
Inductive DirState : Type := NoEntry | ADirectory | NotADirectory.

(** The file system, as the cache meets it: what is at the path of the
    cache directory; what is at each location (the entries of the cache
    directory count only while it is a directory, see [node_at]); what the
    file system will answer to the writes and removals to come ([Some error]
    is the exception thrown by one it refuses, [None], or an exhausted
    queue, is one it carries out); the exception of an operation it can
    never carry out (a write to a directory or into what is not one, the
    removal of a directory or of what is not there, the listing of what is
    not a directory; the exceptions of these are not told apart); and the
    time [Date.now()] reads. *)
Record Disk := {
  d_nodes : gmap Location Node;
  d_cacheDir : DirState;
  d_outcomes : list (option Js.exn);
  d_cannot : Js.exn;
  d_now : Q;
}.

(** The directory a location is an entry of can hold entries. *)
Definition reachable (d : Disk) (place : Location) : bool :=
  match place, d_cacheDir d with
  | inl _, ADirectory => true
  | inl _, _ => false
  | inr _, _ => true
  end.

(** What [fs.existsSync], [fs.statSync] and [fs.readFileSync] find at a
    location. *)
Definition node_at (d : Disk) (place : Location) : option Node :=
  if reachable d place then d_nodes d !! place else None.

Definition set_nodes (nodes : gmap Location Node) (d : Disk) : Disk :=
  {| d_nodes := nodes; d_cacheDir := d_cacheDir d; d_outcomes := d_outcomes d;
     d_cannot := d_cannot d; d_now := d_now d |}.

(** The disk at a later reading of the time. *)
Definition at_time (t : Q) (d : Disk) : Disk :=
  {| d_nodes := d_nodes d; d_cacheDir := d_cacheDir d; d_outcomes := d_outcomes d;
     d_cannot := d_cannot d; d_now := t |}.

(** What the file system answers to the next write or removal. *)
Definition next_answer : M Disk (option Js.exn) :=
  λ d, match d_outcomes d with
       | [] => (inr None, d)
       | answer :: rest =>
           (inr answer,
            {| d_nodes := d_nodes d; d_cacheDir := d_cacheDir d;
               d_outcomes := rest; d_cannot := d_cannot d; d_now := d_now d |})
       end.

(** An operation the file system can never carry out. *)
Definition cannot {A} : M Disk A := λ d, (inl (d_cannot d), d).

(** The file system can carry out a write to [filePath]: the directory of
    the path can hold it, and no directory is in its place. *)
Definition writable (d : Disk) (filePath : Location) : bool :=
  reachable d filePath
  && match node_at d filePath with Some (Directory _) => false | _ => true end.

(** [fs.writeFileSync(filePath, text, 'utf-8')] *)
Definition writeFileSync (filePath : Location) (text : string) : M Disk unit :=
  let* possible := gets (λ d, writable d filePath) in
  if possible then
    let* refused := next_answer in
    match refused with
    | Some error => throw error
    | None =>
        modify (λ d, set_nodes (<[filePath := File (Some text) (d_now d)]> (d_nodes d)) d)
    end
  else cannot.

(** [fs.unlinkSync(filePath)] *)
Definition unlinkSync (filePath : Location) : M Disk unit :=
  let* found := gets (λ d, node_at d filePath) in
  match found with
  | Some (Directory _) => cannot
  | None => cannot
  | Some (File _ _) =>
      let* refused := next_answer in
      match refused with
      | Some error => throw error
      | None => modify (λ d, set_nodes (delete filePath (d_nodes d)) d)
      end
  end.

(** [fs.readdirSync(this.cacheDir)]: the names of the entries of the cache
    directory; it throws on what is not a directory. *)
Definition readdirSync : M Disk (list string) :=
  let* dir := gets d_cacheDir in
  match dir with
  | ADirectory =>
      gets (λ d, omap (λ entry : Location * Node,
                         match entry.1 with inl name => Some name | inr _ => None end)
                      (map_to_list (d_nodes d)))
  | _ => cannot
  end.

(** [file.endsWith(suffix)] *)
Fixpoint endsWith (suffix file : string) : bool :=
  String.eqb file suffix
  || match file with
     | EmptyString => false
     | String _ rest => endsWith suffix rest
     end.

(** Truthiness of a [number | undefined]: [undefined] and [0] are falsy. *)
Definition number_truthy (o : option Q) : bool :=
  match o with
  | Some q => negb (Qeq_bool q 0)
  | None => false
  end.

(** [(Date.now() - stats.mtimeMs) / 1000 / 60] *)
Definition ageMinutes (d : Disk) (stats : Node) : Q :=
  (d_now d - node_mtimeMs stats) / 1000 / 60.

(** A string without path separator (that of a POSIX system). *)
Fixpoint plain (s : string) : bool :=
  match s with
  | EmptyString => true
  | String c rest => negb (String.eqb (String c EmptyString) "/") && plain rest
  end.

(** The name of an entry of a directory: not empty, without separator, and
    neither of the two names that stand for the directory and its parent. *)
Definition entry_name (s : string) : bool :=
  plain s && negb (String.eqb s "") && negb (String.eqb s ".")
  && negb (String.eqb s "..").

Module CacheService.

Section Cache.

(** The type of the cached data, with [JSON.stringify] and [JSON.parse] on
    it: [stringify] answers the text, or the exception thrown when there is
    none to write ([JSON.stringify] throws, or returns [undefined], which
    [fs.writeFileSync] does not take); [parse] answers [None] where
    [JSON.parse] throws. *)
Variable T : Type.
Variable stringify : T → Js.exn + string.
Variable parse : string → option T.

(** The directory of the cache, and [path.join] on it, taken up to the
    place the path it returns points to. *)
Variable cacheDir : string.
Variable path_join : string → string → Location.

(** [path.join(this.cacheDir, `${key}.json`)] *)
Definition getCacheFilePath (key : string) : Location :=
  path_join cacheDir (key +:+ ".json").

Definition has (key : string) (maxAgeMinutes : option Q) : M Disk bool :=
  let filePath := getCacheFilePath key in
  let* found := gets (λ d, node_at d filePath) in
  match found with
  | None => ret false
  | Some stats =>
      if number_truthy maxAgeMinutes then
        let* d := gets id in
        (* ageMinutes > maxAgeMinutes *)
        if negb (Qle_bool (ageMinutes d stats) (default 0%Q maxAgeMinutes))
        then ret false
        else ret true
      else ret true
  end.

(** The [try]/[catch] turns a file that cannot be read, and a text that
    does not parse, into [null]. *)
Definition get (key : string) : M Disk (option T) :=
  let filePath := getCacheFilePath key in
  let* found := gets (λ d, node_at d filePath) in
  match found with
  | None => ret None
  | Some (File (Some data) _) => ret (parse data)
  | Some (File None _) => ret None
  | Some (Directory _) => ret None
  end.

Definition set (key : string) (data : T) : M Disk unit :=
  let filePath := getCacheFilePath key in
  try_catch (match stringify data with
             | inr text => writeFileSync filePath text
             | inl error => throw error
             end)
            (λ error, (* console.error(...) *) ret tt).

Definition clear (key : string) : M Disk unit :=
  let filePath := getCacheFilePath key in
  let* found := gets (λ d, node_at d filePath) in
  match found with
  | Some _ => unlinkSync filePath
  | None => ret tt
  end.

(** [files.forEach(file => { if (file.endsWith('.json')) fs.unlinkSync(...) })] *)
Fixpoint unlink_json (files : list string) : M Disk unit :=
  match files with
  | [] => ret tt
  | file :: rest =>
      (if endsWith ".json" file then unlinkSync (path_join cacheDir file) else ret tt);;
      unlink_json rest
  end.

Definition clearAll : M Disk unit :=
  let* dir := gets d_cacheDir in
  match dir with
  | NoEntry => ret tt
  | _ =>
      let* files := readdirSync in
      unlink_json files
  end.


End Cache.

End CacheService.

(** The file system carries out the next write to [filePath]: it can, and
    it does not refuse it. *)
Definition write_accepted (filePath : Location) (d : Disk) : bool :=
  writable d filePath
  && match d_outcomes d with Some _ :: _ => false | _ => true end.

(** [path_join], from [cacheDir], takes the name of an entry to that entry
    of the cache directory. *)
Definition joins_entries (cacheDir : string) (path_join : string → string → Location)
  : Prop :=
  ∀ name, entry_name name = true → path_join cacheDir name = InCache name.

(** The entries of the cache directory have the names of entries. *)
Definition named_entries (d : Disk) : Prop :=
  ∀ name, is_Some (node_at d (InCache name)) → entry_name name = true.

(** No entry of the cache directory whose name ends in [.json] is a
    directory. *)
Definition json_files (d : Disk) : Prop :=
  ∀ name mtimeMs,
    node_at d (InCache name) = Some (Directory mtimeMs) → endsWith ".json" name = false.

(** A [path.join] for the examples: the name of an entry is that entry of
    the cache directory, any other path is a place of its own. *)
Definition entry_join (cacheDir name : string) : Location :=
  if entry_name name then InCache name else Elsewhere (cacheDir +:+ "/" +:+ name).

(** A cache directory that exists, with the given entries, on a file system
    that carries out every operation it can. *)
Definition cache_of (entries : list (string * Node)) (now : Q) : Disk :=
  {| d_nodes := list_to_map (map (λ entry, (InCache entry.1, entry.2)) entries);
     d_cacheDir := ADirectory; d_outcomes := []; d_cannot := Js.NonError;
     d_now := now |}.

(* --------------------------------------------------------------------- *)
(** ** The Loyverse client (loyverse-client.ts) *)

Module Loyverse.

(** The parameters of a [GET]: [{ limit, cursor, updated_at_min }], the last
    two only when set, and the path they are sent to. *)
Record Request := {
  rq_path : string;
  rq_limit : nat;
  rq_cursor : option string;
  rq_updated_at_min : option string;
}.

(** [response.data]: the collection, under the name the endpoint gives it,
    and the cursor of the next page; either may be missing. *)
Record Page (X : Type) := {
  pg_data : option (list X);
  pg_cursor : option string;
}.
Arguments pg_data {X} _.
Arguments pg_cursor {X} _.

(** What the client works on: its cache directory and the requests it has
    sent so far. *)
Record Client := {
  cl_disk : Disk;
  cl_requests : list Request;
}.

(** A cache operation, run on the client's directory. *)
Definition on_disk {A} (m : M Disk A) : M Client A :=
  λ c, let '(r, d) := m (cl_disk c) in
       (r, {| cl_disk := d; cl_requests := cl_requests c |}).

Section Endpoint.

(** One endpoint: the type of its records, its path, what its server
    answers to a request (a page, or the exception [axios] throws), and the
    JSON reading of a cache file of such records ([None] where the text does
    not parse, or parses to a falsy value). *)
Variable X : Type.
Variable path : string.
Variable respond : Request → Js.exn + Page X.
Variable stringify : list X → Js.exn + string.
Variable parse : string → option (list X).
Variable cacheDir : string.
Variable path_join : string → string → Location.

(** [await this.client.get(path, { params })] *)
Definition http_get (params : Request) : M Client (Page X) :=
  λ c, (respond params,
        {| cl_disk := cl_disk c; cl_requests := (cl_requests c ++ [params])%list |}).

(** The [do ... while (cursor)] loop, for at most [turns] turns; [None] when
    the loop has not ended by then. [date] is the [updated_at_min] of the
    two incremental fetches. *)
Fixpoint fetch_loop (turns : nat) (date : option string) (cursor : option string)
    (items : list X) : M Client (option (list X)) :=
  match turns with
  | O => ret None
  | S turns =>
      let params := {| rq_path := path; rq_limit := 250;
                       rq_cursor := Js.or_null cursor;
                       rq_updated_at_min := date |} in
      let* response := http_get params in
      let items := match pg_data response with
                   | Some data => (items ++ data)%list
                   | None => items
                   end in
      let cursor := pg_cursor response in
      if Js.truthy cursor then fetch_loop turns date cursor items
      else ret (Some items)
  end.

(** [getAllItems], [getAllVariants], [getAllInventoryLevels] and
    [getAllCategories]: the same method, up to the path, the name of the
    collection in the response and the cache key. *)
Definition getAll (cacheKey : string) (useCache : bool) (turns : nat)
  : M Client (option (list X)) :=
  let* cached :=
    if useCache then
      let* hit := on_disk (CacheService.has cacheDir path_join cacheKey None) in
      if hit
      then on_disk (CacheService.get (list X) parse cacheDir path_join cacheKey)
      else ret None
    else ret None in
  match cached with
  | Some cached => ret (Some cached)
  | None =>
      let* items := fetch_loop turns None None [] in
      match items with
      | Some items =>
          on_disk (CacheService.set (list X) stringify cacheDir path_join cacheKey items);;
          ret (Some items)
      | None => ret None
      end
  end.

(** [getItemsUpdatedAfter] and [getVariantsUpdatedAfter]. *)
Definition getUpdatedAfter (date : string) (turns : nat) : M Client (option (list X)) :=
  fetch_loop turns (Some date) None [].

(** The request of a turn of the loop. *)
Definition request_of (date : option string) (cursor : option string) : Request :=
  {| rq_path := path; rq_limit := 250; rq_cursor := Js.or_null cursor;
     rq_updated_at_min := date |}.

(** [pages] are the pages the server gives from [cursor] on: each is the
    answer to the request made with the cursor of the one before, and the
    last one is the first that carries no cursor. *)
Fixpoint serves (date : option string) (cursor : option string) (pages : list (Page X))
  : Prop :=
  match pages with
  | [] => False
  | page :: rest =>
      respond (request_of date cursor) = inr page
      ∧ match rest with
        | [] => Js.truthy (pg_cursor page) = false
        | _ => Js.truthy (pg_cursor page) = true ∧ serves date (pg_cursor page) rest
        end
  end.

(** The records of some pages, in order. *)
Definition records (pages : list (Page X)) : list X :=
  concat (map (λ page, default [] (pg_data page)) pages).

(** The requests that fetch [pages] from [cursor] on. *)
Fixpoint requests_for (date : option string) (cursor : option string)
    (pages : list (Page X)) : list Request :=
  match pages with
  | [] => []
  | page :: rest => request_of date cursor :: requests_for date (pg_cursor page) rest
  end.

End Endpoint.

(** The four full fetches, on the default cache directory of
    [new CacheService()]. *)
Definition getAllItems respond stringify parse path_join :=
  getAll LoyverseItem "/items" respond stringify parse ".cache" path_join
    "loyverse_items".

Definition getAllVariants respond stringify parse path_join :=
  getAll LoyverseVariant "/variants" respond stringify parse ".cache" path_join
    "loyverse_variants".

Definition getAllInventoryLevels respond stringify parse path_join :=
  getAll LoyverseInventory "/inventory" respond stringify parse ".cache" path_join
    "loyverse_inventory".

Definition getAllCategories respond stringify parse path_join :=
  getAll LoyverseCategory "/categories" respond stringify parse ".cache" path_join
    "loyverse_categories".

Definition getItemsUpdatedAfter := getUpdatedAfter LoyverseItem "/items".

Definition getVariantsUpdatedAfter := getUpdatedAfter LoyverseVariant "/variants".

End Loyverse.

(* ===================================================================== *)
(** * 9. Name composition and aggregation *)
(* ===================================================================== *)















(* ===================================================================== *)
(** * 10. Reasoning about computations *)
(* ===================================================================== *)

Lemma bind_inr {S A B} (m : M S A) (k : A → M S B) s a s' :
  m s = (inr a, s') → bind m k s = k a s'.
Proof. unfold bind. by intros ->. Qed.

Lemma bind_ret_pair {S A B} (m : M S A) (k : A → M S B) s r :
  m s = r → bind m k s = match r with
                         | (inr a, s') => k a s'
                         | (inl e, s') => (inl e, s')
                         end.
Proof. unfold bind. by intros ->. Qed.

Lemma bind_inl {S A B} (m : M S A) (k : A → M S B) s e s' :
  m s = (inl e, s') → bind m k s = (inl e, s').
Proof. unfold bind. by intros ->. Qed.

Lemma io_run {A} (m : M World A) f w :
  io m (f, w) = ((m w).1, (f, (m w).2)).
Proof. unfold io. by destruct (m w). Qed.

Lemma method_run {A} (body : M (Frame * World) A) w r f w' :
  body (frame0, w) = (r, (f, w')) → method body w = (r, w').
Proof. unfold method. by intros ->. Qed.

Section Steady.
Context {S : Type} (R : relation S) `{!PreOrder R}.

Lemma steady_ret {A} (a : A) : steady R (ret a).
Proof. intros s. reflexivity. Qed.

Lemma steady_throw {A} e : steady R (@throw S A e).
Proof. intros s. reflexivity. Qed.

Lemma steady_gets {A} (f : S → A) : steady R (gets f).
Proof. intros s. reflexivity. Qed.

Lemma steady_bind {A B} (m : M S A) (k : A → M S B) :
  steady R m → (∀ a, steady R (k a)) → steady R (bind m k).
Proof.
  intros Hm Hk s. unfold bind. specialize (Hm s).
  destruct (m s) as [[e|a] s']; simpl in *; [done|].
  etrans; [exact Hm|]. apply Hk.
Qed.

Lemma steady_try_catch {A} (m : M S A) (h : Js.exn → M S A) :
  steady R m → (∀ e, steady R (h e)) → steady R (try_catch m h).
Proof.
  intros Hm Hh s. unfold try_catch. specialize (Hm s).
  destruct (m s) as [[e|a] s']; simpl in *; [|done].
  etrans; [exact Hm|]. apply Hh.
Qed.
End Steady.

#[local] Instance evolves_preorder P : PreOrder (evolves P).
Proof.
  split.
  - intros w. split; [|done]. exists []. by rewrite app_nil_r.
  - intros w1 w2 w3 [(t1 & E1 & F1) L1] [(t2 & E2 & F2) L2]. split.
    + exists (t1 ++ t2)%list. rewrite E2, E1, app_assoc. split; [done|].
      by apply Forall_app.
    + intros HP. by rewrite L2, L1.
Qed.

#[local] Instance pass_evolves_preorder P : PreOrder (pass_evolves P).
Proof.
  split.
  - intros s. split; reflexivity.
  - intros s1 s2 s3 [E1 F1] [E2 F2]. split; [by etrans|congruence].
Qed.

Section Evolves.
Variable P : Event → Prop.

Lemma evolves_same w w' :
  w_trace w' = w_trace w → ledger w' = ledger w → evolves P w w'.
Proof.
  intros Ht Hl. split; [|done]. exists []. by rewrite app_nil_r.
Qed.

Lemma evolves_emit w w' ev :
  P ev → w_trace w' = (w_trace w ++ [ev])%list →
  ((∀ row, ¬ P (EInsertLog row)) → ledger w' = ledger w) → evolves P w w'.
Proof.
  intros Hev Ht Hl. split; [|done]. exists [ev]. split; [done|].
  by apply Forall_singleton.
Qed.

Lemma steady_new_Date : steady (evolves P) new_Date.
Proof. intros w. by apply evolves_same. Qed.

Lemma steady_call {A} ev (answer : Js.exn + A) :
  P ev → steady (evolves P) (call ev answer).
Proof. intros Hev w. by apply (evolves_emit _ _ ev). Qed.

Lemma steady_pg_upsert chunk :
  P (EUpsert chunk) → steady (evolves P) (pg_upsert chunk).
Proof.
  intros Hev w. apply (evolves_emit _ _ (EUpsert chunk)); [done| |];
    unfold pg_upsert, bind, emit, modify, next_outcome, ledger; simpl;
    by destruct (f_upsert (w_faults w)) as [|[e|] q].
Qed.

Lemma steady_pg_select_skus a b :
  P (ESelectSkus a b) → steady (evolves P) (pg_select_skus a b).
Proof.
  intros Hev w. apply (evolves_emit _ _ (ESelectSkus a b)); [done| |];
    unfold pg_select_skus, bind, emit, modify, next_outcome, ledger; simpl;
    by destruct (f_select_skus (w_faults w)) as [|[e|] q].
Qed.

Lemma steady_pg_delete_in chunk :
  P (EDelete chunk) → steady (evolves P) (pg_delete_in chunk).
Proof.
  intros Hev w. apply (evolves_emit _ _ (EDelete chunk)); [done| |];
    unfold pg_delete_in, bind, emit, modify, next_outcome, ledger; simpl;
    by destruct (f_delete (w_faults w)) as [|[e|] q].
Qed.

Lemma steady_pg_select_last_success :
  P ESelectLastSync → steady (evolves P) pg_select_last_success.
Proof.
  intros Hev w. apply (evolves_emit _ _ ESelectLastSync); [done| |];
    unfold pg_select_last_success, bind, emit, modify, next_outcome, ledger; simpl;
    destruct (f_last_sync (w_faults w)) as [|[e|] q]; simpl; try done;
    by destruct (latest_success _).
Qed.

Hypothesis P_store : ∀ ev, store_event ev → P ev.

Lemma steady_upsert_chunks chunks : ∀ n, steady (evolves P) (upsert_chunks chunks n).
Proof.
  induction chunks as [|chunk chunks IH]; intros n; simpl.
  - apply steady_ret, _.
  - apply steady_bind; [apply _|by apply steady_pg_upsert, P_store|].
    intros [e|]; [apply steady_throw, _|apply IH].
Qed.

Lemma steady_upsertProducts pd : steady (evolves P) (upsertProducts pd).
Proof. apply steady_upsert_chunks. Qed.

Lemma steady_skus_loop turns : ∀ page acc, steady (evolves P) (skus_loop turns page acc).
Proof.
  induction turns as [|turns IH]; intros page acc; simpl.
  - apply steady_ret, _.
  - apply steady_bind; [apply _|by apply steady_pg_select_skus, P_store|].
    intros [data [e|]]; [apply steady_throw, _|].
    destruct data as [rows|]; [|apply steady_ret, _].
    destruct (0 <? length rows)%nat; [|apply steady_ret, _].
    destruct (length rows =? pageSize)%nat; [apply IH|apply steady_ret, _].
Qed.

Lemma steady_getAllProductSkus useCache :
  steady (evolves P) (getAllProductSkus useCache).
Proof.
  unfold getAllProductSkus.
  apply steady_bind; [apply _|apply steady_gets, _|]. intros cached.
  assert (Hlive : steady (evolves P)
    (let* rows := gets (λ w, size (w_products w)) in
     let* allSkus := skus_loop (S rows) 0 [] in
     cache_skus allSkus;; ret allSkus)).
  { apply steady_bind; [apply _|apply steady_gets, _|]. intros rows.
    apply steady_bind; [apply _|apply steady_skus_loop|]. intros allSkus.
    apply steady_bind; [apply _| |intros; apply steady_ret, _].
    intros w. unfold cache_skus, bind, next_outcome, modify, ret. simpl.
    destruct (f_cache_write (w_faults w)) as [|[e|] q]; by apply evolves_same. }
  destruct useCache, cached; try exact Hlive. apply steady_ret, _.
Qed.

Lemma steady_delete_chunks chunks : ∀ n, steady (evolves P) (delete_chunks chunks n).
Proof.
  induction chunks as [|chunk chunks IH]; intros n; simpl.
  - apply steady_ret, _.
  - apply steady_bind; [apply _|by apply steady_pg_delete_in, P_store|].
    intros [data [e|]]; [apply steady_throw, _|apply IH].
Qed.

Lemma steady_deleteProductsBySkus skus :
  steady (evolves P) (deleteProductsBySkus skus).
Proof.
  unfold deleteProductsBySkus. destruct skus; [apply steady_ret, _|].
  apply steady_delete_chunks.
Qed.

Lemma steady_getLastSyncTimestamp : steady (evolves P) getLastSyncTimestamp.
Proof.
  unfold getLastSyncTimestamp.
  apply steady_bind; [apply _|by apply steady_pg_select_last_success, P_store|].
  intros [data [e|]]; [apply steady_ret, _|].
  destruct data; apply steady_ret, _.
Qed.

(** Inside a pass. *)
Lemma steady_io {A} (m : M World A) :
  steady (evolves P) m → steady (pass_evolves P) (io m).
Proof.
  intros Hm [f w]. rewrite io_run. split; [apply Hm|done].
Qed.

Lemma steady_assign g :
  (∀ f, errors (g f) = errors f) → steady (pass_evolves P) (assign g).
Proof. intros Hg [f w]. split; [reflexivity|apply Hg]. Qed.

Lemma steady_sync_to_supabase pd : steady (pass_evolves P) (sync_to_supabase pd).
Proof.
  unfold sync_to_supabase. destruct (0 <? length pd)%nat; [|apply steady_ret, _].
  apply steady_bind; [apply _|apply steady_io, steady_upsertProducts|].
  intros n. by apply steady_assign.
Qed.

Lemma steady_remove_missing useCache pd :
  steady (pass_evolves P) (remove_missing useCache pd).
Proof.
  unfold remove_missing.
  apply steady_bind; [apply _|apply steady_io, steady_getAllProductSkus|].
  intros existing. destruct (0 <? length _)%nat; [|apply steady_ret, _].
  apply steady_bind; [apply _|apply steady_io, steady_deleteProductsBySkus|].
  intros n. by apply steady_assign.
Qed.

Hypothesis P_fetch : ∀ ev, fetch_event ev → P ev.

Lemma steady_fullSync_steps lv useCache :
  P EGetAllItems → steady (pass_evolves P) (fullSync_steps lv useCache).
Proof.
  intros Hitems. unfold fullSync_steps.
  apply steady_bind; [apply _|by apply steady_io, steady_call, P_fetch|].
  intros categories.
  apply steady_bind; [apply _|by apply steady_io, steady_call|].
  intros items.
  apply steady_bind; [apply _|by apply steady_io, steady_call, P_fetch|].
  intros variants.
  apply steady_bind; [apply _|by apply steady_io, steady_call, P_fetch|].
  intros inventoryLevels.
  apply steady_bind; [apply _|apply steady_sync_to_supabase|].
  intros _. apply steady_remove_missing.
Qed.

(** What follows the repair step of an incremental pass. *)
Lemma steady_incremental_tail lv categoryMap itemsMap variants :
  steady (pass_evolves P)
    (let* inventoryLevels :=
       io (call EGetAllInventoryLevels (getAllInventoryLevels lv)) in
     sync_to_supabase
       (productsData_of categoryMap itemsMap inventoryLevels variants)).
Proof.
  apply steady_bind; [apply _|by apply steady_io, steady_call, P_fetch|].
  intros inventoryLevels. apply steady_sync_to_supabase.
Qed.

Lemma steady_repair_items lv itemsMap variants :
  P EGetAllItems → steady (pass_evolves P) (repair_items lv itemsMap variants).
Proof.
  intros Hitems. unfold repair_items.
  destruct (0 <? size _)%nat; [|apply steady_ret, _].
  apply steady_bind; [apply _|by apply steady_io, steady_call|].
  intros allItems. apply steady_ret, _.
Qed.

Lemma steady_incrementalSync_steps lv lastSync :
  P EGetAllItems → steady (pass_evolves P) (incrementalSync_steps lv lastSync).
Proof.
  intros Hitems. unfold incrementalSync_steps.
  apply steady_bind; [apply _|by apply steady_io, steady_call, P_fetch|].
  intros categories.
  apply steady_bind; [apply _|by apply steady_io, steady_call, P_fetch|].
  intros items.
  apply steady_bind; [apply _|by apply steady_io, steady_call, P_fetch|].
  intros variants.
  apply steady_bind; [apply _|by apply steady_repair_items|].
  intros itemsMap. apply steady_incremental_tail.
Qed.

End Evolves.

(* ===================================================================== *)
(** * 11. The two orchestrators, run *)
(* ===================================================================== *)

Lemma log_pass_run syncType startedAt status f w :
  ∃ w', log_pass syncType startedAt status (f, w) = (inr tt, (f, w'))
        ∧ logs_from (log_row syncType f startedAt status w) w w'.
Proof.
  unfold log_pass, local, logSync, pg_insert_log, logs_from, insert_accepted.
  unfold bind, gets, io, new_Date, emit, modify, next_outcome. simpl.
  destruct (f_insert_log (w_faults w)) as [|[e|] q] eqn:Hq; simpl;
    eexists; (split; [reflexivity|]); simpl; rewrite ?app_nil_r;
    split_and!; try done.
  all: intros Hf; rewrite Hf in Hq; discriminate.
Qed.

Lemma on_error_run syncType startedAt e f w :
  let f' := push_error (Js.errorMessage e) f in
  ∃ w', on_error syncType startedAt e (f, w) = (inr tt, (f', w'))
        ∧ logs_from (log_row syncType f' startedAt failed w) w w'.
Proof.
  intros f'. unfold on_error.
  destruct (log_pass_run syncType startedAt failed f' w) as (w' & Hrun & Hw').
  exists w'. split; [|done].
  by rewrite (bind_inr _ _ _ tt (f', w)).
Qed.

Lemma summary_run startedAt f w :
  summary startedAt (f, w)
  = (inr {| r_products_synced := productsSynced f;
            r_products_deleted := productsDeleted f;
            r_errors := errors f;
            r_started_at := startedAt;
            r_completed_at := w_clock w |},
     (f, set_clock (S (w_clock w)) w)).
Proof. reflexivity. Qed.

(** The end of a pass, common to both: its steps have run to [res], then the
    pass logs, and summarises. *)
Lemma pass_end syncType startedAt (steps : M (Frame * World) unit) s res f1 w2 :
  steps s = (res, (f1, w2)) →
  let f2 := final_frame res f1 in
  let row := log_row syncType f2 startedAt (final_status res) w2 in
  ∃ w3,
    bind (try_catch (steps;; log_pass syncType startedAt success)
                    (on_error syncType startedAt))
         (λ _, summary startedAt) s
    = (inr (final_result startedAt f2 (w_clock w3)), (f2, set_clock (S (w_clock w3)) w3))
    ∧ logs_from row w2 w3.
Proof.
  intros Hsteps f2 row. unfold try_catch at 1.
  destruct res as [e|[]].
  - destruct (on_error_run syncType startedAt e f1 w2) as (w3 & Hrun & Hw3).
    exists w3. split; [|done].
    unfold bind at 1. rewrite (bind_inl _ _ _ e (f1, w2)) by done.
    by rewrite Hrun.
  - destruct (log_pass_run syncType startedAt success f1 w2) as (w3 & Hrun & Hw3).
    exists w3. split; [|done].
    unfold bind at 1. rewrite (bind_inr _ _ _ tt (f1, w2)) by done.
    by rewrite Hrun.
Qed.

Lemma fullSync_run lv useCache w res f1 w2 :
  fullSync_steps lv useCache (frame0, set_clock (S (w_clock w)) w) = (res, (f1, w2)) →
  let f2 := final_frame res f1 in
  let row := log_row "full" f2 (w_clock w) (final_status res) w2 in
  ∃ w3,
    fullSync lv useCache w
    = (inr (final_result (w_clock w) f2 (w_clock w3)), set_clock (S (w_clock w3)) w3)
    ∧ logs_from row w2 w3.
Proof.
  intros Hsteps f2 row.
  destruct (pass_end "full" (w_clock w) _ _ _ _ _ Hsteps) as (w3 & Hrun & Hw3).
  exists w3. split; [|done].
  unfold fullSync. apply (method_run _ _ _ f2).
  rewrite (bind_inr _ _ _ (w_clock w) (frame0, set_clock (S (w_clock w)) w)) by done.
  by rewrite Hrun.
Qed.

Lemma fullSync_returns lv useCache w :
  ∃ r w', fullSync lv useCache w = (inr r, w').
Proof.
  destruct (fullSync_steps lv useCache (frame0, set_clock (S (w_clock w)) w))
    as [res [f1 w2]] eqn:Hsteps.
  destruct (fullSync_run _ _ _ _ _ _ Hsteps) as (w3 & -> & _). eauto.
Qed.

Lemma getLastSyncTimestamp_returns w :
  ∃ lastSync w', getLastSyncTimestamp w = (inr lastSync, w').
Proof.
  unfold getLastSyncTimestamp, pg_select_last_success.
  unfold bind, emit, modify, next_outcome, gets. simpl.
  destruct (f_last_sync (w_faults w)) as [|[e|] q]; simpl; eauto;
    destruct (latest_success _); simpl; eauto.
Qed.



(** An incremental pass without a watermark is the full pass, run after the
    clock reading and the watermark query. *)
Lemma incrementalSync_degrades lv useCache w w2 :
  getLastSyncTimestamp (set_clock (S (w_clock w)) w) = (inr None, w2) →
  incrementalSync lv useCache w = fullSync lv useCache w2.
Proof.
  intros Hlast. destruct (fullSync_returns lv useCache w2) as (r & w' & Hfull).
  unfold incrementalSync. rewrite Hfull. apply (method_run _ _ _ frame0).
  rewrite (bind_inr _ _ _ (w_clock w) (frame0, set_clock (S (w_clock w)) w)) by done.
  unfold bind at 1, try_catch.
  rewrite (bind_inr _ _ _ None (frame0, w2)) by (by rewrite io_run, Hlast).
  rewrite (bind_inr _ _ _ r (frame0, w')) by (by rewrite io_run, Hfull).
  done.
Qed.

(** An incremental pass with a watermark. *)
Lemma incrementalSync_run lv useCache w lastSync w1 res f1 w2 :
  getLastSyncTimestamp (set_clock (S (w_clock w)) w) = (inr (Some lastSync), w1) →
  incrementalSync_steps lv lastSync (frame0, w1) = (res, (f1, w2)) →
  let f2 := final_frame res f1 in
  let row := log_row "incremental" f2 (w_clock w) (final_status res) w2 in
  ∃ w3,
    incrementalSync lv useCache w
    = (inr (final_result (w_clock w) f2 (w_clock w3)), set_clock (S (w_clock w3)) w3)
    ∧ logs_from row w2 w3.
Proof.
  intros Hlast Hsteps f2 row.
  assert (∃ w3, logs_from row w2 w3
    ∧ try_catch
        (let* lastSync := io getLastSyncTimestamp in
         match lastSync with
         | None => let* r := io (fullSync lv useCache) in ret (Some r)
         | Some lastSync =>
             incrementalSync_steps lv lastSync;;
             log_pass "incremental" (w_clock w) success;; ret None
         end)
        (λ error, on_error "incremental" (w_clock w) error;; ret None)
        (frame0, set_clock (S (w_clock w)) w)
      = (inr (@None SyncResult), (f2, w3))) as (w3 & Hw3 & Htry).
  { unfold try_catch.
    rewrite (bind_inr _ _ _ (Some lastSync) (frame0, w1)) by (by rewrite io_run, Hlast).
    destruct res as [e|[]].
    - destruct (on_error_run "incremental" (w_clock w) e f1 w2) as (w3 & Hrun & Hw3).
      exists w3. split; [done|].
      rewrite (bind_inl _ _ _ e (f1, w2)) by done.
      by rewrite (bind_inr _ _ _ tt (f2, w3)).
    - destruct (log_pass_run "incremental" (w_clock w) success f1 w2)
        as (w3 & Hrun & Hw3).
      exists w3. split; [done|].
      rewrite (bind_inr _ _ _ tt (f1, w2)) by done.
      by rewrite (bind_inr _ _ _ tt (f1, w3)). }
  exists w3. split; [|done].
  unfold incrementalSync. apply (method_run _ _ _ f2).
  rewrite (bind_inr _ _ _ (w_clock w) (frame0, set_clock (S (w_clock w)) w)) by done.
  by rewrite (bind_inr _ _ _ None (f2, w3)).
Qed.

(* ===================================================================== *)
(** * 12. The ledger and failures *)
(* ===================================================================== *)

Lemma calls_of_app w w' t :
  w_trace w' = (w_trace w ++ t)%list → calls_of w w' = t.
Proof. intros Ht. unfold calls_of. by rewrite Ht, drop_app_length. Qed.

Lemma ledger_inserts_quiet t :
  Forall not_ledger_insert t → ledger_inserts t = [].
Proof.
  induction 1 as [|ev t Hev _ IH]; [done|].
  destruct ev; try done; exact IH.
Qed.

Lemma ledger_inserts_app t1 t2 :
  ledger_inserts (t1 ++ t2) = (ledger_inserts t1 ++ ledger_inserts t2)%list.
Proof. apply omap_app. Qed.

Lemma not_ledger_insert_strict : ∀ row, ¬ not_ledger_insert (EInsertLog row).
Proof. intros row []. Qed.

Lemma not_ledger_insert_store ev : store_event ev → not_ledger_insert ev.
Proof. by destruct ev. Qed.

Lemma not_ledger_insert_fetch ev : fetch_event ev → not_ledger_insert ev.
Proof. by destruct ev. Qed.

(** A pass whose steps made no ledger insert, and which then logged [row],
    has sent exactly that row, and the ledger holds it when the store
    served the insert. *)
Lemma one_row_logged w w2 w3 row c :
  evolves not_ledger_insert w w2 → logs_from row w2 w3 →
  let w' := set_clock c w3 in
  ledger_inserts (calls_of w w') = [row]
  ∧ w_sync_logs w' = (w_sync_logs w ++ if insert_accepted w then [row] else [])%list.
Proof.
  intros [(t & Ht & Hquiet) Hledger] (Htrace & Hlogs & _) w'.
  specialize (Hledger not_ledger_insert_strict).
  injection Hledger as Hl Hq. split.
  - rewrite (calls_of_app w w' (t ++ [EInsertLog row])).
    + rewrite ledger_inserts_app, ledger_inserts_quiet by done. done.
    + simpl. by rewrite Htrace, Ht, app_assoc.
  - simpl. rewrite Hlogs, Hl. unfold insert_accepted. by rewrite Hq.
Qed.

Lemma evolves_tick P w : evolves P w (set_clock (S (w_clock w)) w).
Proof. by apply evolves_same. Qed.

Lemma fullSync_steps_quiet lv useCache s :
  pass_evolves not_ledger_insert s (fullSync_steps lv useCache s).2.
Proof.
  apply steady_fullSync_steps;
    auto using not_ledger_insert_store, not_ledger_insert_fetch.
  exact I.
Qed.

Lemma incrementalSync_steps_quiet lv lastSync s :
  pass_evolves not_ledger_insert s (incrementalSync_steps lv lastSync s).2.
Proof.
  apply steady_incrementalSync_steps;
    auto using not_ledger_insert_store, not_ledger_insert_fetch.
  exact I.
Qed.

(** What both passes do with the ledger, whatever fails. [res] is the
    outcome of the steps of the pass that ran, [f1] its locals then. *)
Lemma pass_ledger lv useCache kind w :
  ∃ r row w' (res : Js.exn + unit) f1,
    sync_pass lv useCache kind w = (inr r, w')
    ∧ ledger_inserts (calls_of w w') = [row]
    ∧ w_sync_logs w' = (w_sync_logs w ++ if insert_accepted w then [row] else [])%list
    ∧ is_Some (l_completed_at row)
    ∧ l_status row = final_status res
    ∧ l_products_synced row = productsSynced f1
    ∧ l_errors row = errors (final_frame res f1)
    ∧ r_products_synced r = productsSynced f1
    ∧ r_errors r = errors (final_frame res f1)
    ∧ errors f1 = [].
Proof.
  assert (Hfull : ∀ w0 w, evolves not_ledger_insert w0 w →
    ∃ r row w' (res : Js.exn + unit) f1,
      fullSync lv useCache w = (inr r, w')
      ∧ ledger_inserts (calls_of w0 w') = [row]
      ∧ w_sync_logs w' = (w_sync_logs w0 ++ if insert_accepted w0 then [row] else [])%list
      ∧ is_Some (l_completed_at row)
      ∧ l_status row = final_status res
      ∧ l_products_synced row = productsSynced f1
      ∧ l_errors row = errors (final_frame res f1)
      ∧ r_products_synced r = productsSynced f1
      ∧ r_errors r = errors (final_frame res f1)
      ∧ errors f1 = []).
  { clear w. intros w0 w Hw0.
    destruct (fullSync_steps lv useCache (frame0, set_clock (S (w_clock w)) w))
      as [res [f1 w2]] eqn:Hsteps.
    pose proof (fullSync_steps_quiet lv useCache
                  (frame0, set_clock (S (w_clock w)) w)) as [Hev Herr].
    rewrite Hsteps in Hev, Herr. simpl in Hev, Herr.
    destruct (fullSync_run _ _ _ _ _ _ Hsteps) as (w3 & Hrun & Hw3).
    assert (Hev0 : evolves not_ledger_insert w0 w2).
    { etrans; [exact Hw0|]. etrans; [apply evolves_tick|exact Hev]. }
    destruct (one_row_logged _ _ _ _ (S (w_clock w3)) Hev0 Hw3) as [Hins Hlogs].
    eexists _, _, _, res, f1. split; [exact Hrun|].
    split; [exact Hins|]. split; [exact Hlogs|].
      split_and!; [by eexists|by destruct res..]. }
  destruct kind; simpl.
  - apply Hfull. reflexivity.
  - destruct (getLastSyncTimestamp_returns (set_clock (S (w_clock w)) w))
      as ([lastSync|] & w1 & Hlast).
    + destruct (incrementalSync_steps lv lastSync (frame0, w1))
        as [res [f1 w2]] eqn:Hsteps.
      pose proof (incrementalSync_steps_quiet lv lastSync (frame0, w1)) as [Hev Herr].
      rewrite Hsteps in Hev, Herr. simpl in Hev, Herr.
      destruct (incrementalSync_run _ useCache _ _ _ _ _ _ Hlast Hsteps)
        as (w3 & Hrun & Hw3).
      assert (Hev0 : evolves not_ledger_insert w w2).
      { etrans; [apply evolves_tick|]. etrans; [|exact Hev].
        pose proof (steady_getLastSyncTimestamp not_ledger_insert
                      not_ledger_insert_store (set_clock (S (w_clock w)) w)) as H.
        by rewrite Hlast in H. }
      destruct (one_row_logged _ _ _ _ (S (w_clock w3)) Hev0 Hw3) as [Hins Hlogs].
      eexists _, _, _, res, f1. split; [exact Hrun|].
      split; [exact Hins|]. split; [exact Hlogs|].
      split_and!; [by eexists|by destruct res..].
    + rewrite (incrementalSync_degrades _ _ _ _ Hlast). apply Hfull.
      etrans; [apply evolves_tick|].
      pose proof (steady_getLastSyncTimestamp not_ledger_insert
                    not_ledger_insert_store (set_clock (S (w_clock w)) w)) as H.
      by rewrite Hlast in H.
Qed.

(** C3 (amended). Every invocation of a pass, full or incremental, ending in
    success or in failure, sends exactly one row to the ledger, with a
    completion timestamp; the ledger gains that row, and only it, when the
    store serves the insert, and gains nothing when the store refuses it. *)
Theorem ledger_totality lv useCache kind w :
  ∃ r row w',
    sync_pass lv useCache kind w = (inr r, w')
    ∧ ledger_inserts (calls_of w w') = [row]
    ∧ is_Some (l_completed_at row)
    ∧ w_sync_logs w'
      = (w_sync_logs w ++ if insert_accepted w then [row] else [])%list.
Proof.
  destruct (pass_ledger lv useCache kind w)
    as (r & row & w' & res & f1 & Hrun & Hins & Hlogs & Hdone & _).
  by exists r, row, w'.
Qed.

(** C3 as stated fails: a full pass against a store that refuses the insert
    into [sync_logs] returns normally and leaves the ledger empty. *)
Lemma ledger_totality_counterexample :
  let w := Scenario.store [] None [] Scenario.ledger_down in
  let run := fullSync (Scenario.client [Scenario.shirt] [Scenario.variant "v1" None])
                      false w in
  (∃ r, run.1 = inr r ∧ r_errors r = [] ∧ r_products_synced r = 1%nat)
  ∧ w_sync_logs w = []
  ∧ w_sync_logs run.2 = [].
Proof.
  intros w run. split_and!; [|done|by vm_compute].
  eexists. split; [by vm_compute|done].
Qed.

(** C6 (amended). A failure thrown by any step of a pass never leaves the
    pass: both passes always return a result. The failure is caught once:
    its message is the one entry of the result's error list, and one row is
    sent to the ledger, with status failed, that message, and the
    [productsSynced] count the pass had reached when the step threw. The
    ledger records that row when the store serves the insert. *)
Theorem failure_handling lv useCache :
  (∀ kind w, ∃ r w', sync_pass lv useCache kind w = (inr r, w'))
  ∧ (∀ w e f1 w2,
       fullSync_steps lv useCache (frame0, (new_Date w).2) = (inl e, (f1, w2)) →
       ∃ r row w',
         fullSync lv useCache w = (inr r, w')
         ∧ failure_recorded "full" e f1 w w' r row)
  ∧ (∀ w lastSync w1 e f1 w2,
       getLastSyncTimestamp (new_Date w).2 = (inr (Some lastSync), w1) →
       incrementalSync_steps lv lastSync (frame0, w1) = (inl e, (f1, w2)) →
       ∃ r row w',
         incrementalSync lv useCache w = (inr r, w')
         ∧ failure_recorded "incremental" e f1 w w' r row).
Proof.
  split_and!.
  - intros kind w.
    destruct (pass_ledger lv useCache kind w) as (r & row & w' & _ & _ & Hrun & _).
    by exists r, w'.
  - intros w e f1 w2 Hsteps. simpl in Hsteps.
    pose proof (fullSync_steps_quiet lv useCache
                  (frame0, set_clock (S (w_clock w)) w)) as [Hev Herr].
    rewrite Hsteps in Hev, Herr. simpl in Hev, Herr.
    destruct (fullSync_run _ _ _ _ _ _ Hsteps) as (w3 & Hrun & Hw3).
    assert (Hev0 : evolves not_ledger_insert w w2).
    { etrans; [apply evolves_tick|exact Hev]. }
    destruct (one_row_logged _ _ _ _ (S (w_clock w3)) Hev0 Hw3) as [Hins Hlogs].
    eexists _, _, _. split; [exact Hrun|].
    unfold failure_recorded.
    split; [simpl; by rewrite Herr|]. split; [done|]. split; [exact Hins|].
    simpl. rewrite Herr. split_and!; try done.
    intros Hacc. simpl in Hlogs. by rewrite Hlogs, Hacc.
  - intros w lastSync w1 e f1 w2 Hlast Hsteps. simpl in Hlast.
    pose proof (incrementalSync_steps_quiet lv lastSync (frame0, w1)) as [Hev Herr].
    rewrite Hsteps in Hev, Herr. simpl in Hev, Herr.
    destruct (incrementalSync_run _ useCache _ _ _ _ _ _ Hlast Hsteps)
      as (w3 & Hrun & Hw3).
    assert (Hev0 : evolves not_ledger_insert w w2).
    { etrans; [apply evolves_tick|]. etrans; [|exact Hev].
      pose proof (steady_getLastSyncTimestamp not_ledger_insert
                    not_ledger_insert_store (set_clock (S (w_clock w)) w)) as H.
      by rewrite Hlast in H. }
    destruct (one_row_logged _ _ _ _ (S (w_clock w3)) Hev0 Hw3) as [Hins Hlogs].
    eexists _, _, _. split; [exact Hrun|].
    unfold failure_recorded.
    split; [simpl; by rewrite Herr|]. split; [done|]. split; [exact Hins|].
    simpl. rewrite Herr. split_and!; try done.
    intros Hacc. simpl in Hlogs. by rewrite Hlogs, Hacc.
Qed.

Lemma failure_handling_witness :
  let lv := Scenario.client [Scenario.shirt] [Scenario.variant "v1" None] in
  let w := Scenario.store [] None [] Scenario.upsert_down in
  let w1 := Scenario.store [] None [Scenario.earlier_success] Scenario.upsert_down in
  (∃ r row w',
     fullSync lv false w = (inr r, w')
     ∧ failure_recorded "full" (Js.ErrorObj "upsert refused") frame0 w w' r row)
  ∧ (∃ r row w',
       incrementalSync lv false w1 = (inr r, w')
       ∧ failure_recorded "incremental" (Js.ErrorObj "upsert refused") frame0
           w1 w' r row).
Proof.
  intros lv w w1.
  destruct (failure_handling lv false) as (_ & Hfull & Hincr).
  split.
  - eapply Hfull. vm_compute. reflexivity.
  - eapply (Hincr w1 1%nat); vm_compute; reflexivity.
Defined.

(** C6 as stated fails: when the store refuses the upsert and then the
    insert into [sync_logs], the pass returns its result with the error
    message, having sent the failed row, and no ledger entry is recorded. *)
Lemma failure_handling_counterexample :
  let lv := Scenario.client [Scenario.shirt] [Scenario.variant "v1" None] in
  let w := Scenario.store [] None [] Scenario.store_down in
  let run := fullSync lv false w in
  (∃ r, run.1 = inr r ∧ r_errors r = ["store unreachable"])
  ∧ map l_status (ledger_inserts (calls_of w run.2)) = [failed]
  ∧ w_sync_logs w = []
  ∧ w_sync_logs run.2 = [].
Proof.
  intros lv w run. split_and!; [|by vm_compute..].
  eexists. split; [by vm_compute|done].
Qed.

(* ===================================================================== *)
(** * 13. Incremental passes *)
(* ===================================================================== *)

Lemma getLastSyncTimestamp_keeps w :
  let w' := (getLastSyncTimestamp w).2 in
  w_products w' = w_products w
  ∧ w_sync_logs w' = w_sync_logs w
  ∧ w_sku_cache w' = w_sku_cache w.
Proof.
  unfold getLastSyncTimestamp, pg_select_last_success.
  unfold bind, emit, modify, next_outcome, gets. simpl.
  destruct (f_last_sync (w_faults w)) as [|[e|] q]; simpl; try done;
    by destruct (latest_success _).
Qed.




Lemma itemIdsNeeded_fold (itemsMap : gmap string LoyverseItem) variants :
  ∀ (acc : gset string) k,
    k ∈ foldl (λ needed variant,
                 if bool_decide (is_Some (itemsMap !! v_item_id variant))
                 then needed
                 else needed ∪ {[ v_item_id variant ]}) acc variants
    ↔ k ∈ acc ∨ ∃ v, v ∈ variants ∧ v_item_id v = k ∧ itemsMap !! k = None.
Proof.
  induction variants as [|v variants IH]; intros acc k; simpl.
  - split; [by left|]. intros [?|(v & Hv & _)]; [done|]. by apply elem_of_nil in Hv.
  - rewrite IH. case_bool_decide as Hsome.
    + split.
      * intros [?|(v' & Hv' & ?)]; [by left|]. right. exists v'. split; [by right|done].
      * intros [?|(v' & Hv' & Hk & Hnone)]; [by left|].
        apply elem_of_cons in Hv' as [->|Hv']; [|right; by exists v'].
        rewrite Hk, Hnone in Hsome. by destruct Hsome.
    + split.
      * intros [Hin|(v' & Hv' & ?)].
        -- apply elem_of_union in Hin as [?|Hin]; [by left|].
           apply elem_of_singleton in Hin as ->. right. exists v.
           split; [by left|]. split; [done|].
           destruct (itemsMap !! v_item_id v) eqn:E; [|done]. by destruct Hsome.
        -- right. exists v'. split; [by right|done].
      * intros [?|(v' & Hv' & Hk & Hnone)].
        { left. apply elem_of_union. by left. }
        apply elem_of_cons in Hv' as [->|Hv'].
        { left. apply elem_of_union. right. by apply elem_of_singleton. }
        right. by exists v'.
Qed.

Lemma itemIdsNeeded_spec (itemsMap : gmap string LoyverseItem) variants k :
  k ∈ itemIdsNeeded_of itemsMap variants
  ↔ ∃ v, v ∈ variants ∧ v_item_id v = k ∧ itemsMap !! k = None.
Proof.
  unfold itemIdsNeeded_of. rewrite itemIdsNeeded_fold.
  split; [|by right]. intros [Hin|?]; [|done]. by apply not_elem_of_empty in Hin.
Qed.

Lemma fill_missing_other (needed : gset string) allItems :
  ∀ (m : gmap string LoyverseItem) k,
    k ∉ needed → fill_missing needed allItems m !! k = m !! k.
Proof.
  unfold fill_missing.
  induction allItems as [|item allItems IH]; intros m k Hk; simpl; [done|].
  rewrite IH by done. case_bool_decide as Hin; [|done].
  apply lookup_insert_ne. by intros <-.
Qed.

Lemma fill_missing_keeps (needed : gset string) allItems :
  ∀ (m : gmap string LoyverseItem) k,
    is_Some (m !! k) → is_Some (fill_missing needed allItems m !! k).
Proof.
  unfold fill_missing.
  induction allItems as [|item allItems IH]; intros m k Hk; simpl; [done|].
  apply IH. case_bool_decide; [|done].
  destruct (decide (i_id item = k)) as [<-|Hne].
  - rewrite lookup_insert_eq. by eexists.
  - by rewrite lookup_insert_ne.
Qed.

Lemma fill_missing_found (needed : gset string) allItems :
  ∀ (m : gmap string LoyverseItem) item,
    item ∈ allItems → i_id item ∈ needed →
    is_Some (fill_missing needed allItems m !! i_id item).
Proof.
  induction allItems as [|item' allItems IH]; intros m item Hin Hneeded.
  - by apply elem_of_nil in Hin.
  - apply elem_of_cons in Hin as [<-|Hin].
    + unfold fill_missing. simpl. rewrite bool_decide_eq_true_2 by done.
      apply (fill_missing_keeps needed allItems). rewrite lookup_insert_eq. by eexists.
    + by apply IH.
Qed.

Lemma fill_missing_origin (needed : gset string) allItems :
  ∀ (m : gmap string LoyverseItem) k item,
    fill_missing needed allItems m !! k = Some item →
    m !! k = Some item ∨ (item ∈ allItems ∧ i_id item = k ∧ k ∈ needed).
Proof.
  unfold fill_missing.
  induction allItems as [|item' allItems IH]; intros m k item Hk; simpl in *;
    [by left|].
  apply IH in Hk as [Hk|(Hin & Hid & Hneeded)].
  - case_bool_decide as Hn; [|by left].
    destruct (decide (i_id item' = k)) as [<-|Hne].
    + rewrite lookup_insert_eq in Hk. injection Hk as <-. right.
      split; [by left|done].
    + rewrite lookup_insert_ne in Hk by done. by left.
  - right. split; [by right|done].
Qed.

Lemma full_item_fetches_app t1 t2 :
  full_item_fetches (t1 ++ t2) = (full_item_fetches t1 + full_item_fetches t2)%nat.
Proof. unfold full_item_fetches. by rewrite List.filter_app, length_app. Qed.

Lemma full_item_fetches_quiet t :
  Forall not_full_item_fetch t → full_item_fetches t = 0%nat.
Proof.
  induction 1 as [|ev t Hev _ IH]; [done|].
  destruct ev; try done; exact IH.
Qed.

Lemma not_full_item_fetch_store ev : store_event ev → not_full_item_fetch ev.
Proof. by destruct ev. Qed.

Lemma not_full_item_fetch_fetch ev : fetch_event ev → not_full_item_fetch ev.
Proof. by destruct ev. Qed.

Lemma call_run {A} ev (answer : Js.exn + A) f w :
  io (call ev answer) (f, w) = (answer, (f, set_trace (w_trace w ++ [ev]) w)).
Proof. by rewrite io_run. Qed.

(** The repair step alone: no call when nothing is missing, one full item
    fetch otherwise. *)
Lemma repair_items_run lv itemsMap variants f w :
  let missing := itemIdsNeeded_of itemsMap variants in
  repair_items lv itemsMap variants (f, w)
  = if bool_decide (missing = ∅)
    then (inr itemsMap, (f, w))
    else (match getAllItems lv with
          | inr allItems => inr (fill_missing missing allItems itemsMap)
          | inl e => inl e
          end,
          (f, set_trace (w_trace w ++ [EGetAllItems]) w)).
Proof.
  intros missing. unfold repair_items. fold missing.
  case_bool_decide as Hempty.
  - by rewrite Hempty, size_empty.
  - assert (size missing ≠ 0) as Hsize.
    { apply size_non_empty_iff. by intros ?%leibniz_equiv. }
    destruct (Nat.ltb_spec 0 (size missing)) as [_|?]; [|lia].
    unfold bind. rewrite call_run. by destruct (getAllItems lv).
Qed.

(** The steps of an incremental pass make one full item fetch when a
    reference is missing and none otherwise, whatever fails afterwards. *)
Lemma incrementalSync_steps_fetches lv lastSync categories items variants f w :
  getAllCategories lv = inr categories →
  getItemsUpdatedAfter lv lastSync = inr items →
  getVariantsUpdatedAfter lv lastSync = inr variants →
  ∃ t, w_trace (incrementalSync_steps lv lastSync (f, w)).2.2 = (w_trace w ++ t)%list
       ∧ full_item_fetches t
         = if bool_decide (itemIdsNeeded_of (itemsMap_of items) variants = ∅)
           then 0%nat else 1%nat.
Proof.
  intros Hc Hi Hv. unfold incrementalSync_steps.
  rewrite (bind_inr _ _ _ categories (f, set_trace (w_trace w ++ [EGetAllCategories]) w))
    by (by rewrite call_run, Hc).
  rewrite (bind_inr _ _ _ items
             (f, set_trace ((w_trace w ++ [EGetAllCategories])
                            ++ [EGetItemsUpdatedAfter lastSync]) w))
    by (by rewrite call_run, Hi).
  rewrite (bind_inr _ _ _ variants
             (f, set_trace (((w_trace w ++ [EGetAllCategories])
                             ++ [EGetItemsUpdatedAfter lastSync])
                            ++ [EGetVariantsUpdatedAfter lastSync]) w))
    by (by rewrite call_run, Hv).
  set (w3 := set_trace _ w).
  assert (Htail : ∀ itemsMap s,
    ∃ t, w_trace
           ((let* inventoryLevels :=
               io (call EGetAllInventoryLevels (getAllInventoryLevels lv)) in
             sync_to_supabase
               (productsData_of (categoryMap_of categories) itemsMap inventoryLevels
                  variants)) s).2.2
         = (w_trace s.2 ++ t)%list ∧ full_item_fetches t = 0%nat).
  { intros itemsMap s.
    destruct (steady_incremental_tail not_full_item_fetch not_full_item_fetch_store
                not_full_item_fetch_fetch lv (categoryMap_of categories) itemsMap
                variants s) as [[(t & Ht & Hquiet) _] _].
    exists t. split; [done|]. by apply full_item_fetches_quiet. }
  unfold bind at 1. rewrite repair_items_run.
  case_bool_decide as Hempty.
  - destruct (Htail (itemsMap_of items) (f, w3)) as (t & Ht & Hcount).
    eexists. split.
    + rewrite Ht. unfold w3. simpl. by rewrite <- !app_assoc.
    + rewrite !full_item_fetches_app, Hcount. done.
  - destruct (getAllItems lv) as [e|allItems].
    + eexists. split; [simpl; by rewrite <- !app_assoc|done].
    + destruct (Htail (fill_missing (itemIdsNeeded_of (itemsMap_of items) variants)
                         allItems (itemsMap_of items))
                  (f, set_trace (w_trace w3 ++ [EGetAllItems]) w3))
        as (t & Ht & Hcount).
      eexists. split.
      * rewrite Ht. unfold w3. simpl. by rewrite <- !app_assoc.
      * rewrite !full_item_fetches_app, Hcount. done.
Qed.

(* ===================================================================== *)
(** * 14. Batches, pages and tables *)
(* ===================================================================== *)

Lemma chunkSize_pos : (0 < chunkSize)%nat.
Proof. unfold chunkSize. lia. Qed.

Lemma pageSize_pos : (0 < pageSize)%nat.
Proof. unfold pageSize. lia. Qed.

Lemma slices_from_concat {A} (size : nat) (xs : list A) :
  (0 < size)%nat →
  ∀ turns i, (length xs - i ≤ turns)%nat →
    concat (slices_from turns i size xs) = drop i xs.
Proof.
  intros Hsize. induction turns as [|turns IH]; intros i Hturns.
  - simpl. symmetry. apply drop_ge. lia.
  - cbn [slices_from]. destruct (Nat.ltb_spec i (length xs)) as [Hlt|Hge].
    + cbn [concat]. rewrite IH by lia.
      rewrite <- (take_drop size (drop i xs)) at 2.
      by rewrite drop_drop.
    + simpl. symmetry. apply drop_ge. lia.
Qed.

(** The slices of a batch, put end to end, are the batch. *)
Lemma slices_concat {A} (size : nat) (xs : list A) :
  (0 < size)%nat → concat (slices size xs) = xs.
Proof.
  intros Hsize. unfold slices. rewrite slices_from_concat by lia. apply drop_0.
Qed.

Lemma slices_nil {A} (size : nat) : slices size (@nil A) = [].
Proof. reflexivity. Qed.

Lemma upsert_rows_app rows1 rows2 t :
  upsert_rows (rows1 ++ rows2) t = upsert_rows rows2 (upsert_rows rows1 t).
Proof. apply foldl_app. Qed.

Lemma last_with_sku_snoc sku rows p :
  last_with_sku sku (rows ++ [p])
  = if String.eqb (p_sku p) sku then Some p else last_with_sku sku rows.
Proof. unfold last_with_sku. by rewrite reverse_snoc. Qed.

(** Last write wins: after a batch, a SKU holds the last row of the batch
    that carries it, and what it held before when the batch has none. *)
Lemma upsert_rows_lookup rows t sku :
  upsert_rows rows t !! sku
  = match last_with_sku sku rows with
    | Some p => Some p
    | None => t !! sku
    end.
Proof.
  induction rows as [|p rows IH] using rev_ind; [done|].
  rewrite upsert_rows_app, last_with_sku_snoc. simpl.
  destruct (String.eqb_spec (p_sku p) sku) as [->|Hne].
  - by rewrite lookup_insert_eq.
  - by rewrite lookup_insert_ne.
Qed.

Lemma last_with_sku_Some sku rows p :
  last_with_sku sku rows = Some p → p ∈ rows ∧ p_sku p = sku.
Proof.
  unfold last_with_sku. intros Hfind.
  apply find_some in Hfind as [Hin Heq].
  split.
  - by apply elem_of_reverse, list_elem_of_In.
  - by apply String.eqb_eq.
Qed.

Lemma last_with_sku_None sku rows :
  last_with_sku sku rows = None ↔ sku ∉ map p_sku rows.
Proof.
  unfold last_with_sku. split.
  - intros Hnone Hin. apply list_elem_of_fmap in Hin as (p & -> & Hp).
    assert (In p (reverse rows)) as Hrev.
    { apply list_elem_of_In. by apply elem_of_reverse. }
    pose proof (find_none _ _ Hnone p Hrev) as Hf. simpl in Hf.
    by rewrite String.eqb_refl in Hf.
  - intros Hnot. destruct (find _ _) as [p|] eqn:Hfind; [|done].
    apply find_some in Hfind as [Hin Heq]. exfalso. apply Hnot.
    apply list_elem_of_fmap. exists p. split; [symmetry; by apply String.eqb_eq|].
    apply elem_of_reverse. by apply list_elem_of_In.
Qed.

Lemma upsert_rows_dom rows t sku :
  is_Some (upsert_rows rows t !! sku) ↔ sku ∈ map p_sku rows ∨ is_Some (t !! sku).
Proof.
  rewrite upsert_rows_lookup.
  destruct (last_with_sku sku rows) as [p|] eqn:E.
  - apply last_with_sku_Some in E as [Hin <-]. split; [|by eexists].
    intros _. left. apply list_elem_of_fmap. by exists p.
  - apply last_with_sku_None in E. split; [by right|]. by intros [?|?].
Qed.


Lemma without_lookup skus (t : gmap string SupabaseProduct) sku :
  without skus t !! sku = if decide (sku ∈ skus) then None else t !! sku.
Proof.
  unfold without. destruct (t !! sku) as [p|] eqn:E.
  - case_decide as Hin.
    + apply map_lookup_filter_None. right. intros p' _. simpl. by intros Hn.
    + apply map_lookup_filter_Some. by split.
  - case_decide; apply map_lookup_filter_None; by left.
Qed.

Lemma without_nil (t : gmap string SupabaseProduct) : without [] t = t.
Proof.
  apply map_eq. intros sku. rewrite without_lookup.
  case_decide as Hin; [|done]. by apply elem_of_nil in Hin.
Qed.

Lemma without_app skus1 skus2 (t : gmap string SupabaseProduct) :
  without skus2 (without skus1 t) = without (skus1 ++ skus2)%list t.
Proof.
  apply map_eq. intros sku. rewrite !without_lookup.
  destruct (decide (sku ∈ skus2)) as [H2|H2], (decide (sku ∈ skus1)) as [H1|H1],
    (decide (sku ∈ (skus1 ++ skus2)%list)) as [H|H];
    try done; rewrite elem_of_app in H; tauto.
Qed.



(* ===================================================================== *)
(** * 15. A store that serves every request *)
(* ===================================================================== *)

Lemma next_outcome_served k w :
  w_faults w = no_faults → next_outcome k w = (inr None, w).
Proof. unfold next_outcome. intros ->. by destruct k. Qed.

Lemma pg_upsert_served chunk w :
  w_faults w = no_faults →
  pg_upsert chunk w
  = (inr None,
     set_products (upsert_rows chunk (w_products w))
       (set_trace (w_trace w ++ [EUpsert chunk]) w)).
Proof.
  intros Hf. unfold pg_upsert, bind, emit, modify. simpl.
  by rewrite next_outcome_served.
Qed.

Lemma upsert_chunks_served chunks : ∀ n w,
  w_faults w = no_faults →
  upsert_chunks chunks n w
  = (inr (n + length (concat chunks))%nat,
     set_products (upsert_rows (concat chunks) (w_products w))
       (set_trace (w_trace w ++ map EUpsert chunks) w)).
Proof.
  induction chunks as [|chunk chunks IH]; intros n w Hf; cbn [upsert_chunks].
  - simpl. rewrite app_nil_r, Nat.add_0_r. by destruct w.
  - rewrite (bind_inr _ _ _ _ _ (pg_upsert_served chunk w Hf)).
    rewrite IH by done. cbn [concat map]. f_equal.
    + f_equal. rewrite length_app. lia.
    + unfold set_products, set_trace. simpl. f_equal.
      * by rewrite upsert_rows_app.
      * by rewrite <- app_assoc.
Qed.

Lemma upsertProducts_served pd w :
  w_faults w = no_faults →
  upsertProducts pd w
  = (inr (length (validProducts_of pd)),
     set_products (upsert_rows (validProducts_of pd) (w_products w))
       (set_trace (w_trace w ++ map EUpsert (slices chunkSize (validProducts_of pd))) w)).
Proof.
  intros Hf. unfold upsertProducts. rewrite upsert_chunks_served by done.
  by rewrite slices_concat by apply chunkSize_pos.
Qed.

Lemma pg_select_skus_served page w :
  w_faults w = no_faults →
  pg_select_skus (page * pageSize) ((page + 1) * pageSize - 1) w
  = (inr (Some (take pageSize (drop (page * pageSize) (stored_skus w))), None),
     set_trace (w_trace w ++ [ESelectSkus (page * pageSize) ((page + 1) * pageSize - 1)]) w).
Proof.
  intros Hf. unfold pg_select_skus, bind, emit, modify, gets.
  cbn [fst snd]. rewrite next_outcome_served by done.
  pose proof pageSize_pos.
  replace (S ((page + 1) * pageSize - 1) - page * pageSize)%nat with pageSize by lia.
  done.
Qed.

(** With enough turns the paginated enumeration returns every stored SKU,
    in the order of the store. *)
Lemma skus_loop_served turns : ∀ page acc w,
  w_faults w = no_faults →
  (length (stored_skus w) < (page + turns) * pageSize)%nat →
  ∃ t, skus_loop turns page acc w
       = (inr (acc ++ drop (page * pageSize) (stored_skus w))%list,
          set_trace (w_trace w ++ t) w)
       ∧ Forall select_event t.
Proof.
  pose proof pageSize_pos as Hpos.
  induction turns as [|turns IH]; intros page acc w Hf Hlen; cbn [skus_loop].
  - exists []. split; [|done]. unfold ret. rewrite !app_nil_r.
    rewrite drop_ge by lia. rewrite app_nil_r. by destruct w.
  - rewrite (bind_inr _ _ _ _ _ (pg_select_skus_served page w Hf)).
    set (rows := take pageSize (drop (page * pageSize) (stored_skus w))).
    set (w1 := set_trace _ w).
    assert (Hrows : length rows = Nat.min pageSize (length (stored_skus w) - page * pageSize)).
    { unfold rows. by rewrite length_take, length_drop. }
    destruct (Nat.ltb_spec 0 (length rows)) as [Hsome|Hnone].
    + destruct (Nat.eqb_spec (length rows) pageSize) as [Hfull|Hshort].
      * destruct (IH (page + 1)%nat (acc ++ rows)%list w1) as (t & Hrun & Ht);
          [done| |].
        { change (stored_skus w1) with (stored_skus w).
          by replace (page + 1 + turns)%nat with (page + S turns)%nat by lia. }
        eexists. split.
        -- rewrite Hrun. f_equal.
           ++ f_equal. rewrite <- app_assoc. f_equal.
              change (stored_skus w1) with (stored_skus w).
              rewrite <- (take_drop pageSize (drop (page * pageSize) (stored_skus w))).
              fold rows. f_equal. rewrite drop_drop. f_equal. lia.
           ++ unfold w1, set_trace. simpl. by rewrite <- app_assoc.
        -- by constructor.
      * exists [ESelectSkus (page * pageSize) ((page + 1) * pageSize - 1)].
        split; [|by repeat constructor].
        unfold ret. fold w1. do 3 f_equal. unfold rows. apply take_ge.
        rewrite length_drop. lia.
    + exists [ESelectSkus (page * pageSize) ((page + 1) * pageSize - 1)].
      split; [|by repeat constructor].
      unfold ret. fold w1. do 2 f_equal.
      rewrite drop_ge by lia. by rewrite app_nil_r.
Qed.

Lemma getAllProductSkus_served useCache w :
  w_faults w = no_faults →
  let skus := enumerated useCache (w_sku_cache w) (w_products w) in
  ∃ t, getAllProductSkus useCache w
       = (inr skus,
          match useCache, w_sku_cache w with
          | true, Some _ => w
          | _, _ => set_sku_cache (Some skus) (set_trace (w_trace w ++ t) w)
          end)
       ∧ Forall select_event t.
Proof.
  intros Hf skus.
  destruct (skus_loop_served (S (size (w_products w))) 0 [] w Hf) as (t & Hrun & Ht).
  { unfold stored_skus. rewrite length_fmap, length_map_to_list.
    pose proof pageSize_pos. nia. }
  rewrite drop_0, app_nil_l in Hrun.
  exists t. split; [|done].
  unfold getAllProductSkus, cache_skus, bind, gets, modify. subst skus.
  unfold enumerated.
  destruct useCache, (w_sku_cache w) as [cached|]; try done;
    rewrite Hrun, next_outcome_served; done.
Qed.

Lemma pg_delete_in_served chunk w :
  w_faults w = no_faults →
  ∃ rows, pg_delete_in chunk w
          = (inr (Some rows, None),
             set_products (without chunk (w_products w))
               (set_trace (w_trace w ++ [EDelete chunk]) w)).
Proof.
  intros Hf. unfold pg_delete_in, bind, emit, modify, gets. simpl.
  rewrite next_outcome_served by done. by eexists.
Qed.

Lemma delete_chunks_served chunks : ∀ n w,
  w_faults w = no_faults →
  ∃ n', delete_chunks chunks n w
        = (inr n',
           set_products (without (concat chunks) (w_products w))
             (set_trace (w_trace w ++ map EDelete chunks) w)).
Proof.
  induction chunks as [|chunk chunks IH]; intros n w Hf; cbn [delete_chunks].
  - exists n. simpl. rewrite app_nil_r, without_nil. by destruct w.
  - destruct (pg_delete_in_served chunk w Hf) as (rows & Hrun).
    rewrite (bind_inr _ _ _ _ _ Hrun).
    edestruct IH as (n' & ->); [done|]. exists n'.
    cbn [concat map]. f_equal. unfold set_products, set_trace. simpl. f_equal.
    + by rewrite without_app.
    + by rewrite <- app_assoc.
Qed.

Lemma deleteProductsBySkus_served skus w :
  w_faults w = no_faults →
  ∃ n, deleteProductsBySkus skus w
       = (inr n,
          set_products (without skus (w_products w))
            (set_trace (w_trace w ++ map EDelete (slices chunkSize skus)) w)).
Proof.
  intros Hf. unfold deleteProductsBySkus.
  destruct (delete_chunks_served (slices chunkSize skus) 0 w Hf) as (n & Hrun).
  rewrite slices_concat in Hrun by apply chunkSize_pos.
  destruct skus as [|sku skus]; [|by exists n].
  exists 0%nat. unfold ret. rewrite slices_nil, without_nil. simpl.
  rewrite app_nil_r. by destruct w.
Qed.

Lemma sync_to_supabase_served pd w :
  w_faults w = no_faults →
  let rows := validProducts_of pd in
  ∃ f,
    sync_to_supabase pd (frame0, w)
    = (inr tt,
       (f, set_products (upsert_rows rows (w_products w))
             (set_trace (w_trace w ++ map EUpsert (slices chunkSize rows)) w)))
    ∧ productsSynced f = length rows
    ∧ productsDeleted f = 0%nat
    ∧ errors f = [].
Proof.
  intros Hf rows. unfold sync_to_supabase.
  destruct pd as [|p pd]; cbn [length Nat.ltb Nat.leb].
  - exists frame0. split; [|done]. unfold ret. subst rows. simpl.
    rewrite app_nil_r. by destruct w.
  - exists (set_productsSynced (length rows) frame0). split; [|done].
    unfold bind. rewrite io_run, upsertProducts_served by done. done.
Qed.

Lemma remove_missing_served useCache pd f w :
  w_faults w = no_faults →
  let existing := enumerated useCache (w_sku_cache w) (w_products w) in
  let doomed := skusToDelete_of existing (loyverseSkus_of pd) in
  ∃ f' t w',
    remove_missing useCache pd (f, w) = (inr tt, (f', w'))
    ∧ w_products w' = without doomed (w_products w)
    ∧ w_sku_cache w'
      = match useCache, w_sku_cache w with
        | true, Some skus => Some skus
        | _, _ => Some existing
        end
    ∧ w_faults w' = no_faults
    ∧ w_sync_logs w' = w_sync_logs w
    ∧ w_clock w' = w_clock w
    ∧ w_trace w' = (w_trace w ++ t ++ map EDelete (slices chunkSize doomed))%list
    ∧ Forall select_event t
    ∧ productsSynced f' = productsSynced f
    ∧ errors f' = errors f.
Proof.
  intros Hf existing doomed.
  destruct (getAllProductSkus_served useCache w Hf) as (t & Hskus & Ht).
  fold existing in Hskus.
  set (w1 := match useCache, w_sku_cache w with
             | true, Some _ => w
             | _, _ => set_sku_cache (Some existing) (set_trace (w_trace w ++ t) w)
             end) in Hskus.
  assert (Hw1 : w_products w1 = w_products w
                ∧ w_faults w1 = no_faults
                ∧ w_sync_logs w1 = w_sync_logs w
                ∧ w_clock w1 = w_clock w
                ∧ w_sku_cache w1 = match useCache, w_sku_cache w with
                                   | true, Some skus => Some skus
                                   | _, _ => Some existing
                                   end
                ∧ ∃ t', w_trace w1 = (w_trace w ++ t')%list ∧ Forall select_event t').
  { unfold w1. destruct useCache, (w_sku_cache w) as [cached|] eqn:Hc; simpl;
      split_and!; try done; try (by exists t).
    exists []. by rewrite app_nil_r. }
  destruct Hw1 as (Hp1 & Hf1 & Hl1 & Hc1 & Hcache1 & t' & Ht1 & Ht').
  unfold remove_missing.
  rewrite (bind_inr _ _ _ existing (f, w1)) by (by rewrite io_run, Hskus).
  fold doomed. destruct (Nat.ltb_spec 0 (length doomed)) as [Hsome|Hnone].
  - destruct (deleteProductsBySkus_served doomed w1 Hf1) as (n & Hdel).
    eexists (set_productsDeleted n f), t', _. split.
    { unfold bind. rewrite io_run, Hdel. reflexivity. }
    simpl. rewrite Hp1, Ht1, <- app_assoc. by split_and!.
  - assert (doomed = []) as Hnil by (destruct doomed; [done|simpl in Hnone; lia]).
    exists f, t', w1. split; [done|].
    rewrite Hnil, without_nil, slices_nil. simpl. rewrite app_nil_r. by split_and!.
Qed.

(** The steps of a full pass when the client answers and the store serves
    every request. *)
Lemma fullSync_steps_served lv useCache categories items variants inventoryLevels w :
  getAllCategories lv = inr categories →
  getAllItems lv = inr items →
  getAllVariants lv = inr variants →
  getAllInventoryLevels lv = inr inventoryLevels →
  w_faults w = no_faults →
  let pd := prepared categories items variants inventoryLevels in
  let rows := validProducts_of pd in
  let table := upsert_rows rows (w_products w) in
  let existing := enumerated useCache (w_sku_cache w) table in
  let doomed := skusToDelete_of existing (loyverseSkus_of pd) in
  ∃ f1 w2 t,
    fullSync_steps lv useCache (frame0, w) = (inr tt, (f1, w2))
    ∧ w_products w2 = without doomed table
    ∧ w_sku_cache w2
      = match useCache, w_sku_cache w with
        | true, Some skus => Some skus
        | _, _ => Some existing
        end
    ∧ w_faults w2 = no_faults
    ∧ w_sync_logs w2 = w_sync_logs w
    ∧ w_trace w2
      = (w_trace w
         ++ [EGetAllCategories; EGetAllItems; EGetAllVariants; EGetAllInventoryLevels]
         ++ map EUpsert (slices chunkSize rows)
         ++ t ++ map EDelete (slices chunkSize doomed))%list
    ∧ Forall select_event t
    ∧ productsSynced f1 = length rows
    ∧ errors f1 = [].
Proof.
  intros Hc Hi Hv Hinv Hf pd rows table existing doomed.
  unfold fullSync_steps.
  rewrite (bind_inr _ _ _ categories (frame0, set_trace (w_trace w ++ [EGetAllCategories]) w))
    by (by rewrite call_run, Hc).
  rewrite (bind_inr _ _ _ items
             (frame0, set_trace ((w_trace w ++ [EGetAllCategories]) ++ [EGetAllItems]) w))
    by (by rewrite call_run, Hi).
  rewrite (bind_inr _ _ _ variants
             (frame0, set_trace (((w_trace w ++ [EGetAllCategories]) ++ [EGetAllItems])
                                 ++ [EGetAllVariants]) w))
    by (by rewrite call_run, Hv).
  rewrite (bind_inr _ _ _ inventoryLevels
             (frame0, set_trace ((((w_trace w ++ [EGetAllCategories]) ++ [EGetAllItems])
                                  ++ [EGetAllVariants]) ++ [EGetAllInventoryLevels]) w))
    by (by rewrite call_run, Hinv).
  set (w1 := set_trace _ w).
  fold (prepared categories items variants inventoryLevels). fold pd.
  destruct (sync_to_supabase_served pd w1) as (f & Hup & Hn & _ & Herr); [done|].
  fold rows in Hup, Hn. rewrite (bind_inr _ _ _ _ _ Hup).
  set (w2 := set_products _ _).
  destruct (remove_missing_served useCache pd f w2)
    as (f' & t & w' & Hrun & Hp & Hcache & Hf' & Hl & _ & Ht & Htsel & Hn' & Herr');
    [done|].
  exists f', w', t. split; [exact Hrun|].
  split_and!; try done; try congruence.
  rewrite Ht. unfold w2, w1. simpl. by rewrite <- !app_assoc.
Qed.

Lemma delete_batches_app t1 t2 :
  delete_batches (t1 ++ t2) = (delete_batches t1 ++ delete_batches t2)%list.
Proof. apply omap_app. Qed.

Lemma upsert_batches_app t1 t2 :
  upsert_batches (t1 ++ t2) = (upsert_batches t1 ++ upsert_batches t2)%list.
Proof. apply omap_app. Qed.

Lemma delete_batches_deletes chunks : delete_batches (map EDelete chunks) = chunks.
Proof. induction chunks as [|c chunks IH]; [done|]. simpl. by rewrite IH. Qed.

Lemma upsert_batches_upserts chunks : upsert_batches (map EUpsert chunks) = chunks.
Proof. induction chunks as [|c chunks IH]; [done|]. simpl. by rewrite IH. Qed.

Lemma delete_batches_upserts chunks : delete_batches (map EUpsert chunks) = [].
Proof. induction chunks as [|c chunks IH]; [done|]. exact IH. Qed.

Lemma upsert_batches_deletes chunks : upsert_batches (map EDelete chunks) = [].
Proof. induction chunks as [|c chunks IH]; [done|]. exact IH. Qed.

Lemma delete_batches_selects t : Forall select_event t → delete_batches t = [].
Proof. induction 1 as [|ev t Hev _ IH]; [done|]. destruct ev; try done; exact IH. Qed.

Lemma upsert_batches_selects t : Forall select_event t → upsert_batches t = [].
Proof. induction 1 as [|ev t Hev _ IH]; [done|]. destruct ev; try done; exact IH. Qed.

(** A full pass when the client answers and the store serves every request:
    what it upserts, what it deletes, and the tables it leaves. *)
Lemma fullSync_served lv useCache categories items variants inventoryLevels w :
  getAllCategories lv = inr categories →
  getAllItems lv = inr items →
  getAllVariants lv = inr variants →
  getAllInventoryLevels lv = inr inventoryLevels →
  w_faults w = no_faults →
  let pd := prepared categories items variants inventoryLevels in
  let rows := validProducts_of pd in
  let table := upsert_rows rows (w_products w) in
  let existing := enumerated useCache (w_sku_cache w) table in
  let doomed := skusToDelete_of existing (loyverseSkus_of pd) in
  ∃ r w',
    fullSync lv useCache w = (inr r, w')
    ∧ w_products w' = without doomed table
    ∧ w_sku_cache w'
      = match useCache, w_sku_cache w with
        | true, Some skus => Some skus
        | _, _ => Some existing
        end
    ∧ w_faults w' = no_faults
    ∧ upsert_batches (calls_of w w') = slices chunkSize rows
    ∧ delete_batches (calls_of w w') = slices chunkSize doomed
    ∧ r_errors r = []
    ∧ r_products_synced r = length rows.
Proof.
  intros Hc Hi Hv Hinv Hf pd rows table existing doomed.
  destruct (fullSync_steps_served lv useCache categories items variants inventoryLevels
              (set_clock (S (w_clock w)) w) Hc Hi Hv Hinv Hf)
    as (f1 & w2 & t & Hsteps & Hp & Hcache & Hf2 & Hl & Ht & Hsel & Hn & Herr).
  destruct (fullSync_run _ _ _ _ _ _ Hsteps)
    as (w3 & Hrun & Htrace & _ & Hp3 & Hc3 & _ & Hf3).
  eexists _, _. split; [exact Hrun|]. simpl in *.
  rewrite Hp3, Hc3.
  assert (Hcalls : calls_of w (set_clock (S (w_clock w3)) w3)
    = ([EGetAllCategories; EGetAllItems; EGetAllVariants; EGetAllInventoryLevels]
       ++ map EUpsert (slices chunkSize rows) ++ t
       ++ map EDelete (slices chunkSize doomed)
       ++ [EInsertLog (log_row "full" f1 (w_clock w) success w2)])%list).
  { apply calls_of_app. simpl. rewrite Htrace, Ht.
    rewrite <- !app_assoc. cbn [app]. by rewrite <- ?app_assoc. }
  rewrite Hcalls. split_and!; try done; [by apply Hf3| |].
  - rewrite !upsert_batches_app, upsert_batches_upserts, upsert_batches_deletes,
      (upsert_batches_selects t) by done.
    simpl. by rewrite app_nil_r.
  - rewrite !delete_batches_app, delete_batches_upserts, delete_batches_deletes,
      (delete_batches_selects t) by done.
    simpl. by rewrite app_nil_r.
Qed.

(* ===================================================================== *)
(** * 16. The join, the deletion diff and idempotence *)
(* ===================================================================== *)

Lemma stored_keys (t : gmap string SupabaseProduct) sku :
  sku ∈ (map_to_list t).*1 ↔ is_Some (t !! sku).
Proof.
  rewrite list_elem_of_fmap. split.
  - intros ([k p] & -> & Hin). apply elem_of_map_to_list in Hin. by eexists.
  - intros [p Hp]. exists (sku, p). split; [done|]. by apply elem_of_map_to_list.
Qed.

Lemma valid_skus pd :
  map p_sku (validProducts_of pd)
  = List.filter Js.nonempty (map (λ p, effectiveSku (pwi_variant p)) pd).
Proof.
  unfold validProducts_of. induction pd as [|p pd IH]; [done|]. simpl.
  destruct (Js.nonempty (effectiveSku (pwi_variant p))); simpl; by rewrite IH.
Qed.

Lemma loyverseSkus_valid pd sku :
  sku ∈ loyverseSkus_of pd ↔ sku ∈ map p_sku (validProducts_of pd).
Proof. unfold loyverseSkus_of. by rewrite elem_of_list_to_set, valid_skus. Qed.

Lemma nonempty_spec s : Js.nonempty s = true ↔ s ≠ "".
Proof. by destruct s. Qed.

Lemma loyverseSkus_spec pd sku :
  sku ∈ loyverseSkus_of pd
  ↔ sku ≠ "" ∧ ∃ p, p ∈ pd ∧ effectiveSku (pwi_variant p) = sku.
Proof.
  unfold loyverseSkus_of.
  rewrite elem_of_list_to_set, list_elem_of_In, filter_In, <- list_elem_of_In.
  rewrite list_elem_of_fmap, nonempty_spec. split.
  - intros [(p & -> & Hp) Hne]. split; [done|]. by exists p.
  - intros [Hne (p & Hp & <-)]. split; [|done]. by exists p.
Qed.

Lemma skusToDelete_spec existing (current : gset string) sku :
  sku ∈ skusToDelete_of existing current ↔ sku ∈ existing ∧ sku ∉ current.
Proof.
  unfold skusToDelete_of.
  rewrite list_elem_of_In, filter_In, <- list_elem_of_In, negb_true_iff.
  by rewrite bool_decide_eq_false.
Qed.


Lemma skusToDelete_all existing : skusToDelete_of existing ∅ = existing.
Proof.
  unfold skusToDelete_of. induction existing as [|sku l IH]; [done|].
  simpl. by rewrite IH.
Qed.

Lemma without_all (t : gmap string SupabaseProduct) :
  without (map_to_list t).*1 t = ∅.
Proof.
  apply map_eq. intros sku. rewrite without_lookup, lookup_empty.
  case_decide as Hin; [done|].
  destruct (t !! sku) as [p|] eqn:E; [|done].
  exfalso. apply Hin, stored_keys. by eexists.
Qed.

Lemma deleted_skus_batches calls doomed :
  delete_batches calls = slices chunkSize doomed → deleted_skus calls = doomed.
Proof.
  unfold deleted_skus. intros ->. apply slices_concat, chunkSize_pos.
Qed.

(** C1 (amended). In a full pass where the client answers and the store
    serves every request, the SKUs sent for deletion are exactly the SKUs
    the store enumeration returned that are not among the non-empty
    effective SKUs of the products prepared in this pass. The enumeration is
    the cached one when caching is on and a cached enumeration exists;
    otherwise it is the table as it is after the upsert, and the deletion
    set is then persisted minus current. A SKU of the current pass is never
    sent for deletion. *)
Theorem deletion_set lv useCache categories items variants inventoryLevels w :
  getAllCategories lv = inr categories →
  getAllItems lv = inr items →
  getAllVariants lv = inr variants →
  getAllInventoryLevels lv = inr inventoryLevels →
  w_faults w = no_faults →
  let pd := prepared categories items variants inventoryLevels in
  let current := loyverseSkus_of pd in
  let persisted := upsert_rows (validProducts_of pd) (w_products w) in
  let existing := enumerated useCache (w_sku_cache w) persisted in
  let deleted := deleted_skus (calls_of w (fullSync lv useCache w).2) in
  (∀ sku, sku ∈ current
          ↔ sku ≠ "" ∧ ∃ p, p ∈ pd ∧ effectiveSku (pwi_variant p) = sku)
  ∧ deleted = skusToDelete_of existing current
  ∧ list_to_set deleted = list_to_set existing ∖ current
  ∧ (useCache = false ∨ w_sku_cache w = None →
     list_to_set deleted = dom persisted ∖ current
     ∧ list_to_set deleted = dom (w_products w) ∖ current)
  ∧ (∀ sku, sku ∈ current → sku ∉ deleted).
Proof.
  intros Hc Hi Hv Hinv Hf pd current persisted existing deleted.
  destruct (fullSync_served lv useCache categories items variants inventoryLevels w
              Hc Hi Hv Hinv Hf) as (r & w' & Hrun & _ & _ & _ & _ & Hdel & _).
  assert (Hdeleted : deleted = skusToDelete_of existing current).
  { unfold deleted. rewrite Hrun. by apply deleted_skus_batches. }
  assert (Hset : list_to_set deleted =@{gset string} list_to_set existing ∖ current).
  { apply set_eq. intros sku.
    by rewrite Hdeleted, elem_of_difference, !elem_of_list_to_set, skusToDelete_spec. }
  split_and!; [apply loyverseSkus_spec|done|done| |].
  - intros Hlive.
    assert (existing = (map_to_list persisted).*1) as Hex.
    { unfold existing, enumerated. destruct Hlive as [->|Hnone]; [done|].
      rewrite Hnone. by destruct useCache. }
    assert (Hdom : list_to_set deleted = dom persisted ∖ current).
    { rewrite Hset. apply set_eq. intros sku.
      by rewrite !elem_of_difference, elem_of_list_to_set, Hex, stored_keys, elem_of_dom. }
    split; [done|]. rewrite Hdom. apply set_eq. intros sku.
    rewrite !elem_of_difference, !elem_of_dom. unfold persisted.
    rewrite upsert_rows_dom. unfold current. rewrite loyverseSkus_valid. tauto.
  - intros sku Hin. rewrite Hdeleted, skusToDelete_spec. tauto.
Qed.

Lemma deletion_set_witness :
  let w := Scenario.store [Scenario.row "OLD"; Scenario.row "v1"] None [] no_faults in
  let lv := Scenario.client [Scenario.shirt] [Scenario.variant "v1" None] in
  deleted_skus (calls_of w (fullSync lv false w).2) = ["OLD"].
Proof.
  intros w lv.
  destruct (deletion_set lv false [] [Scenario.shirt] [Scenario.variant "v1" None] [] w
              eq_refl eq_refl eq_refl eq_refl eq_refl) as (_ & -> & _).
  by vm_compute.
Defined.

(** C1 as stated fails, in two ways. With caching on and a cached
    enumeration that no longer matches the table, the pass sends the cached
    SKU "A" for deletion although it is not persisted, and leaves "B", which
    is persisted and not in the current pass. And a persisted row with the
    empty SKU is sent for deletion although the one product prepared in the
    pass has the empty string as its effective SKU. *)
Lemma deletion_set_counterexample :
  (let w := Scenario.store [Scenario.row "B"] (Some ["A"]) [] no_faults in
   let w' := (fullSync (Scenario.client [] []) true w).2 in
   dom (w_products w) = {["B"]}
   ∧ prepared [] [] [] [] = []
   ∧ deleted_skus (calls_of w w') = ["A"]
   ∧ w_products w' !! "B" = Some (Scenario.row "B"))
  ∧ (let w := Scenario.store [Scenario.row ""] None [] no_faults in
     let lv := Scenario.client [Scenario.shirt] [Scenario.variant "" None] in
     let w' := (fullSync lv false w).2 in
     dom (w_products w) = {[""]}
     ∧ map (λ p, effectiveSku (pwi_variant p))
           (prepared [] [Scenario.shirt] [Scenario.variant "" None] []) = [""]
     ∧ deleted_skus (calls_of w w') = [""]
     ∧ w_products w' !! "" = None).
Proof.
  split; intros; split_and!; by vm_compute.
Qed.

(** C10 (amended). In a full pass where the client answers, the store serves
    every request and the join prepares no product, no upsert is sent, the
    deletion diff runs against an empty current set, and every SKU the store
    enumeration returned is sent for deletion. When the enumeration is read
    from the table (caching off, or no cached enumeration), these are all
    persisted SKUs and the table is left empty. *)
Theorem empty_join_deletes_all lv useCache categories items variants inventoryLevels w :
  getAllCategories lv = inr categories →
  getAllItems lv = inr items →
  getAllVariants lv = inr variants →
  getAllInventoryLevels lv = inr inventoryLevels →
  w_faults w = no_faults →
  prepared categories items variants inventoryLevels = [] →
  let w' := (fullSync lv useCache w).2 in
  upsert_batches (calls_of w w') = []
  ∧ loyverseSkus_of (prepared categories items variants inventoryLevels) = ∅
  ∧ deleted_skus (calls_of w w') = enumerated useCache (w_sku_cache w) (w_products w)
  ∧ (useCache = false ∨ w_sku_cache w = None →
     list_to_set (deleted_skus (calls_of w w')) = dom (w_products w)
     ∧ w_products w' = ∅).
Proof.
  intros Hc Hi Hv Hinv Hf Hempty w'.
  destruct (fullSync_served lv useCache categories items variants inventoryLevels w
              Hc Hi Hv Hinv Hf) as (r & w1 & Hrun & Hp & _ & _ & Hup & Hdel & _).
  unfold w'. rewrite Hrun. simpl. rewrite Hempty in *. simpl in *.
  change (loyverseSkus_of []) with (∅ : gset string) in *.
  rewrite skusToDelete_all in Hp, Hdel.
  apply deleted_skus_batches in Hdel.
  split_and!; [done|done|done|].
  intros Hlive.
  assert (enumerated useCache (w_sku_cache w) (w_products w)
          = (map_to_list (w_products w)).*1) as Hex.
  { unfold enumerated. destruct Hlive as [->|Hnone]; [done|].
    rewrite Hnone. by destruct useCache. }
  rewrite Hex in Hp, Hdel. split.
  - rewrite Hdel. apply set_eq. intros sku.
    by rewrite elem_of_list_to_set, stored_keys, elem_of_dom.
  - rewrite Hp. apply without_all.
Qed.

Lemma empty_join_deletes_all_witness :
  let w := Scenario.store [Scenario.row "A"; Scenario.row "B"] None [] no_faults in
  let w' := (fullSync (Scenario.client [] [Scenario.variant "v1" None]) false w).2 in
  upsert_batches (calls_of w w') = [] ∧ w_products w' = ∅.
Proof.
  intros w w'.
  destruct (empty_join_deletes_all (Scenario.client [] [Scenario.variant "v1" None])
              false [] [] [Scenario.variant "v1" None] [] w
              eq_refl eq_refl eq_refl eq_refl eq_refl eq_refl)
    as (Hup & _ & _ & Hlive).
  split; [exact Hup|]. apply Hlive. by left.
Defined.

(** C10 as stated fails: with caching on and a cached enumeration that lists
    "A" only, a full pass whose join prepares nothing leaves "B", which is
    persisted, in the table. *)
Lemma empty_join_deletes_all_counterexample :
  let w := Scenario.store [Scenario.row "A"; Scenario.row "B"] (Some ["A"]) []
             no_faults in
  let w' := (fullSync (Scenario.client [] []) true w).2 in
  prepared [] [] [] [] = []
  ∧ w_products w !! "B" = Some (Scenario.row "B")
  ∧ deleted_skus (calls_of w w') = ["A"]
  ∧ w_products w' !! "B" = Some (Scenario.row "B").
Proof.
  intros; split_and!; by vm_compute.
Qed.




Lemma prepare_variant categoryMap itemsMap inventoryMap inventoryLevels variant p :
  prepare categoryMap itemsMap inventoryMap inventoryLevels variant = Some p →
  pwi_variant p = variant.
Proof.
  unfold prepare. destruct (itemsMap !! v_item_id variant); [|done].
  by intros [= <-].
Qed.

Lemma prepare_resolvable categoryMap itemsMap inventoryMap inventoryLevels variant :
  is_Some (prepare categoryMap itemsMap inventoryMap inventoryLevels variant)
  ↔ resolvable itemsMap variant = true.
Proof.
  unfold prepare, resolvable. rewrite bool_decide_eq_true.
  destruct (itemsMap !! v_item_id variant); split; try done; by intros [].
Qed.

(** The join keeps every variant whose item resolves, once, in the order of
    the variants. *)
Lemma join_variants categoryMap itemsMap inventoryLevels variants :
  map pwi_variant (productsData_of categoryMap itemsMap inventoryLevels variants)
  = List.filter (resolvable itemsMap) variants.
Proof.
  unfold productsData_of. induction variants as [|v variants IH]; [done|].
  cbn [omap list_omap List.filter].
  destruct (prepare _ _ _ _ v) as [p|] eqn:E.
  - assert (resolvable itemsMap v = true) as ->.
    { apply (prepare_resolvable categoryMap itemsMap
               (inventoryMap_of inventoryLevels) inventoryLevels). by eexists. }
    cbn [map]. f_equal; [|exact IH]. by eapply prepare_variant.
  - destruct (resolvable itemsMap v) eqn:R; [|exact IH].
    apply (prepare_resolvable categoryMap itemsMap
             (inventoryMap_of inventoryLevels) inventoryLevels) in R.
    rewrite E in R. by destruct R.
Qed.

Lemma last_with_sku_last before q after :
  p_sku q ∉ map p_sku after →
  last_with_sku (p_sku q) (before ++ q :: after) = Some q.
Proof.
  induction after as [|x after IH] using rev_ind; intros Hnot.
  - rewrite last_with_sku_snoc. by rewrite String.eqb_refl.
  - rewrite app_comm_cons, app_assoc, last_with_sku_snoc.
    rewrite map_app, elem_of_app in Hnot.
    destruct (String.eqb_spec (p_sku x) (p_sku q)) as [Heq|Hne].
    + exfalso. apply Hnot. right. simpl. rewrite Heq. by left.
    + apply IH. intros Hin. apply Hnot. by left.
Qed.

(** C2 (amended). The join does not merge colliding variants: it emits one
    product per variant whose item resolves, in the order of the variants,
    each with its variant's effective SKU, so the SKUs of the output are
    pairwise distinct exactly when those of the resolving variants are.
    Uniqueness holds in the product table, which is keyed by SKU: once the
    store has served the upsert, each SKU of the batch holds the last product
    of the batch that carries it, so of two colliding variants the later one
    overwrites the earlier. *)
Theorem sku_collisions :
  (∀ categoryMap itemsMap inventoryLevels variants,
     let pd := productsData_of categoryMap itemsMap inventoryLevels variants in
     map pwi_variant pd = List.filter (resolvable itemsMap) variants
     ∧ map p_sku (map toSupabaseProduct pd)
       = map effectiveSku (List.filter (resolvable itemsMap) variants)
     ∧ (NoDup (map p_sku (map toSupabaseProduct pd))
        ↔ NoDup (map effectiveSku (List.filter (resolvable itemsMap) variants))))
  ∧ (∀ pd w,
       w_faults w = no_faults →
       let w' := (upsertProducts pd w).2 in
       (∀ sku,
          w_products w' !! sku
          = match last_with_sku sku (validProducts_of pd) with
            | Some p => Some p
            | None => w_products w !! sku
            end)
       ∧ (∀ before q after,
            validProducts_of pd = (before ++ q :: after)%list →
            p_sku q ∉ map p_sku after →
            w_products w' !! p_sku q = Some q)).
Proof.
  split.
  - intros categoryMap itemsMap inventoryLevels variants pd.
    assert (Hv : map pwi_variant pd = List.filter (resolvable itemsMap) variants)
      by apply join_variants.
    assert (Hs : map p_sku (map toSupabaseProduct pd)
                 = map effectiveSku (List.filter (resolvable itemsMap) variants)).
    { rewrite <- Hv, !map_map. done. }
    split; [done|]. split; [done|]. by rewrite Hs.
  - intros pd w Hf w'.
    assert (Hlookup : ∀ sku,
      w_products w' !! sku
      = match last_with_sku sku (validProducts_of pd) with
        | Some p => Some p
        | None => w_products w !! sku
        end).
    { intros sku. unfold w'. rewrite upsertProducts_served by done. simpl.
      apply upsert_rows_lookup. }
    split; [done|].
    intros before q after Hrows Hlast.
    by rewrite Hlookup, Hrows, last_with_sku_last.
Qed.

Lemma sku_collisions_witness :
  let prepared_from variant :=
    {| pwi_variant := variant; pwi_item := Scenario.shirt;
       pwi_inventory := {| inv_variant_id := v_variant_id variant; inv_store_id := "";
                           inv_in_stock := 0; inv_cost := None |};
       pwi_categoryName := None |} in
  let first := Scenario.variant "v1" (Some "X") in
  let second := Scenario.variant "v2" (Some "X") in
  let pd := prepared [] [Scenario.shirt] [first; second] [] in
  let w := Scenario.store [] None [] no_faults in
  w_products (upsertProducts pd w).2 !! "X"
  = Some (toSupabaseProduct (prepared_from second)).
Proof.
  intros prepared_from first second pd w.
  destruct sku_collisions as [_ Hlast].
  destruct (Hlast pd w eq_refl) as [_ Hq].
  apply (Hq [toSupabaseProduct (prepared_from first)]
            (toSupabaseProduct (prepared_from second)) []).
  - by vm_compute.
  - simpl. apply not_elem_of_nil.
Defined.

(** C2 as stated fails: two variants of one item with the same SKU both
    come out of the join, so the output carries that SKU twice. *)
Lemma sku_collisions_counterexample :
  let first := Scenario.variant "v1" (Some "X") in
  let second := Scenario.variant "v2" (Some "X") in
  let pd := prepared [] [Scenario.shirt] [first; second] [] in
  map (λ p, v_variant_id (pwi_variant p)) pd = ["v1"; "v2"]
  ∧ map p_sku (validProducts_of pd) = ["X"; "X"]
  ∧ ¬ NoDup (map p_sku (validProducts_of pd)).
Proof.
  intros first second pd. split_and!; [by vm_compute..|].
  assert (map p_sku (validProducts_of pd) = ["X"; "X"]) as -> by (by vm_compute).
  intros Hnd. apply NoDup_cons in Hnd as [Hnot _]. apply Hnot. by left.
Qed.

(* ===================================================================== *)
(** * 17. What every pass respects *)
(* ===================================================================== *)

#[local] Instance in_pass_preorder R `{!PreOrder R} : PreOrder (in_pass R).
Proof.
  split.
  - intros s. unfold in_pass. reflexivity.
  - intros s1 s2 s3 H1 H2. unfold in_pass in *. by etrans.
Qed.

Lemma valid_rows_valid pd : Forall valid_row (validProducts_of pd).
Proof.
  unfold validProducts_of. apply Forall_forall. intros p Hin.
  apply list_elem_of_In, filter_In in Hin as [_ Hp]. exact Hp.
Qed.

Lemma slices_from_Forall {A} (P : A → Prop) (size : nat) (xs : list A) :
  Forall P xs → ∀ turns i, Forall (Forall P) (slices_from turns i size xs).
Proof.
  intros Hxs. induction turns as [|turns IH]; intros i; cbn [slices_from]; [done|].
  destruct (i <? length xs)%nat; [|done].
  constructor; [|apply IH]. by apply Forall_take, Forall_drop.
Qed.

(** A request that writes: the world it leaves is the world as the request
    found it, up to the trace, the outcome queues and the clock, with the
    write applied when the store served the request. *)
Lemma pg_upsert_world chunk w :
  ∃ w1, w_products w1 = w_products w ∧ w_sync_logs w1 = w_sync_logs w
        ∧ w_sku_cache w1 = w_sku_cache w ∧ w_clock w1 = w_clock w
        ∧ ((pg_upsert chunk w).2 = w1
           ∨ (pg_upsert chunk w).2
             = set_products (upsert_rows chunk (w_products w1)) w1).
Proof.
  exists ((emit (EUpsert chunk);; next_outcome FUpsert) w).2.
  unfold pg_upsert, bind, emit, modify, next_outcome. simpl.
  destruct (f_upsert (w_faults w)) as [|[e|] q]; simpl;
    split_and!; try done; first [by left|by right].
Qed.

Lemma pg_delete_in_world chunk w :
  ∃ w1, w_products w1 = w_products w ∧ w_sync_logs w1 = w_sync_logs w
        ∧ w_sku_cache w1 = w_sku_cache w ∧ w_clock w1 = w_clock w
        ∧ ((pg_delete_in chunk w).2 = w1
           ∨ (pg_delete_in chunk w).2
             = set_products (without chunk (w_products w1)) w1).
Proof.
  exists ((emit (EDelete chunk);; next_outcome FDelete) w).2.
  unfold pg_delete_in, bind, emit, modify, next_outcome, gets. simpl.
  destruct (f_delete (w_faults w)) as [|[e|] q]; simpl;
    split_and!; try done; first [by left|by right].
Qed.

Lemma logSync_world syncType n errs startedAt status w :
  ∃ w1 row, w_products w1 = w_products w ∧ w_sync_logs w1 = w_sync_logs w
        ∧ w_sku_cache w1 = w_sku_cache w ∧ w_clock w1 = S (w_clock w)
        ∧ l_completed_at row = Some (w_clock w)
        ∧ ((logSync syncType n errs startedAt status w).2 = w1
           ∨ (logSync syncType n errs startedAt status w).2
             = set_sync_logs (w_sync_logs w1 ++ [row]) w1).
Proof.
  set (row := {| l_sync_type := syncType; l_products_synced := n; l_errors := errs;
                 l_started_at := startedAt; l_completed_at := Some (w_clock w);
                 l_status := status |}).
  exists ((new_Date;; emit (EInsertLog row);; next_outcome FInsertLog) w).2, row.
  unfold logSync, pg_insert_log, bind, new_Date, emit, modify, next_outcome. simpl.
  destruct (f_insert_log (w_faults w)) as [|[e|] q]; simpl;
    split_and!; try done; first [by left|by right].
Qed.

(** A relation that the steps of a pass keep, from what it says of the few
    ways in which they change the world. *)
Section Respects.

Variable R : relation World.
Context `{!PreOrder R}.

Hypothesis R_other : ∀ w w',
  w_products w' = w_products w → w_sync_logs w' = w_sync_logs w →
  w_sku_cache w' = w_sku_cache w → (w_clock w ≤ w_clock w')%nat → R w w'.

Lemma respects_new_Date : steady R new_Date.
Proof. intros w. apply R_other; simpl; auto. Qed.

Lemma respects_call {A} ev (answer : Js.exn + A) : steady R (call ev answer).
Proof. intros w. by apply R_other. Qed.

Lemma respects_pg_select_skus a b : steady R (pg_select_skus a b).
Proof.
  intros w. apply R_other;
    unfold pg_select_skus, bind, emit, modify, next_outcome, gets; simpl;
    by destruct (f_select_skus (w_faults w)) as [|[e|] q].
Qed.

Lemma respects_pg_select_last_success : steady R pg_select_last_success.
Proof.
  intros w. apply R_other;
    unfold pg_select_last_success, bind, emit, modify, next_outcome, gets; simpl;
    destruct (f_last_sync (w_faults w)) as [|[e|] q]; simpl; try done;
    by destruct (latest_success _).
Qed.

Lemma respects_getLastSyncTimestamp : steady R getLastSyncTimestamp.
Proof.
  unfold getLastSyncTimestamp.
  apply steady_bind; [apply _|apply respects_pg_select_last_success|].
  intros [data [e|]]; [apply steady_ret, _|].
  destruct data; apply steady_ret, _.
Qed.

Lemma respects_skus_loop turns : ∀ page acc, steady R (skus_loop turns page acc).
Proof.
  induction turns as [|turns IH]; intros page acc; cbn [skus_loop].
  - apply steady_ret, _.
  - apply steady_bind; [apply _|apply respects_pg_select_skus|].
    intros [data [e|]]; [apply steady_throw, _|].
    destruct data as [rows|]; [|apply steady_ret, _].
    destruct (0 <? length rows)%nat; [|apply steady_ret, _].
    destruct (length rows =? pageSize)%nat; [apply IH|apply steady_ret, _].
Qed.

Lemma respects_io {A} (m : M World A) : steady R m → steady (in_pass R) (io m).
Proof. intros Hm [f w]. unfold in_pass. rewrite io_run. apply Hm. Qed.

Lemma respects_assign g : steady (in_pass R) (assign g).
Proof. intros [f w]. unfold in_pass. simpl. reflexivity. Qed.

Lemma respects_local {A} (g : Frame → A) : steady (in_pass R) (local g).
Proof. apply steady_gets, _. Qed.

Lemma respects_method {A} (body : M (Frame * World) A) :
  steady (in_pass R) body → steady R (method body).
Proof.
  intros Hbody w. specialize (Hbody (frame0, w)). unfold in_pass in Hbody.
  unfold method. by destruct (body (frame0, w)) as [r [f w']].
Qed.

Lemma respects_repair_items lv itemsMap variants :
  steady (in_pass R) (repair_items lv itemsMap variants).
Proof.
  unfold repair_items. destruct (0 <? size _)%nat; [|apply steady_ret, _].
  apply steady_bind; [apply _|apply respects_io, respects_call|].
  intros allItems. apply steady_ret, _.
Qed.

Hypothesis R_cache : ∀ w c, R w (set_sku_cache c w).

Lemma respects_getAllProductSkus useCache : steady R (getAllProductSkus useCache).
Proof.
  unfold getAllProductSkus.
  apply steady_bind; [apply _|apply steady_gets, _|]. intros cached.
  assert (Hlive : steady R
    (let* rows := gets (λ w, size (w_products w)) in
     let* allSkus := skus_loop (S rows) 0 [] in
     cache_skus allSkus;; ret allSkus)).
  { apply steady_bind; [apply _|apply steady_gets, _|]. intros rows.
    apply steady_bind; [apply _|apply respects_skus_loop|]. intros allSkus.
    apply steady_bind; [apply _| |intros; apply steady_ret, _].
    intros w. unfold cache_skus, bind, next_outcome, modify, ret. simpl.
    destruct (f_cache_write (w_faults w)) as [|[e|] q]; simpl.
    - apply R_cache.
    - by apply R_other.
    - etrans; [|apply R_cache]. by apply R_other. }
  destruct useCache, cached; try exact Hlive. apply steady_ret, _.
Qed.

Hypothesis R_upsert : ∀ w chunk,
  Forall valid_row chunk → R w (set_products (upsert_rows chunk (w_products w)) w).

Lemma respects_pg_upsert chunk : Forall valid_row chunk → steady R (pg_upsert chunk).
Proof.
  intros Hvalid w.
  destruct (pg_upsert_world chunk w) as (w1 & Hp & Hl & Hc & Ht & [-> | ->]).
  - apply R_other; auto. lia.
  - etrans; [|by apply R_upsert]. apply R_other; auto. lia.
Qed.

Lemma respects_upsert_chunks chunks :
  Forall (Forall valid_row) chunks → ∀ n, steady R (upsert_chunks chunks n).
Proof.
  induction 1 as [|chunk chunks Hchunk _ IH]; intros n; cbn [upsert_chunks].
  - apply steady_ret, _.
  - apply steady_bind; [apply _|by apply respects_pg_upsert|].
    intros [e|]; [apply steady_throw, _|apply IH].
Qed.

Lemma respects_upsertProducts pd : steady R (upsertProducts pd).
Proof.
  apply respects_upsert_chunks, slices_from_Forall, valid_rows_valid.
Qed.

Lemma respects_sync_to_supabase pd : steady (in_pass R) (sync_to_supabase pd).
Proof.
  unfold sync_to_supabase. destruct (0 <? length pd)%nat; [|apply steady_ret, _].
  apply steady_bind; [apply _|apply respects_io, respects_upsertProducts|].
  intros n. apply respects_assign.
Qed.

Lemma respects_incrementalSync_steps lv lastSync :
  steady (in_pass R) (incrementalSync_steps lv lastSync).
Proof.
  unfold incrementalSync_steps.
  apply steady_bind; [apply _|apply respects_io, respects_call|]. intros categories.
  apply steady_bind; [apply _|apply respects_io, respects_call|]. intros items.
  apply steady_bind; [apply _|apply respects_io, respects_call|]. intros variants.
  apply steady_bind; [apply _|apply respects_repair_items|]. intros itemsMap.
  apply steady_bind; [apply _|apply respects_io, respects_call|]. intros inventoryLevels.
  apply respects_sync_to_supabase.
Qed.

Hypothesis R_delete : ∀ w chunk, R w (set_products (without chunk (w_products w)) w).

Lemma respects_pg_delete_in chunk : steady R (pg_delete_in chunk).
Proof.
  intros w.
  destruct (pg_delete_in_world chunk w) as (w1 & Hp & Hl & Hc & Ht & [-> | ->]).
  - apply R_other; auto. lia.
  - etrans; [|by apply R_delete]. apply R_other; auto. lia.
Qed.

Lemma respects_delete_chunks chunks : ∀ n, steady R (delete_chunks chunks n).
Proof.
  induction chunks as [|chunk chunks IH]; intros n; cbn [delete_chunks].
  - apply steady_ret, _.
  - apply steady_bind; [apply _|apply respects_pg_delete_in|].
    intros [data [e|]]; [apply steady_throw, _|apply IH].
Qed.

Lemma respects_deleteProductsBySkus skus : steady R (deleteProductsBySkus skus).
Proof.
  unfold deleteProductsBySkus. destruct skus; [apply steady_ret, _|].
  apply respects_delete_chunks.
Qed.

Lemma respects_fullSync_steps lv useCache :
  steady (in_pass R) (fullSync_steps lv useCache).
Proof.
  unfold fullSync_steps.
  apply steady_bind; [apply _|apply respects_io, respects_call|]. intros categories.
  apply steady_bind; [apply _|apply respects_io, respects_call|]. intros items.
  apply steady_bind; [apply _|apply respects_io, respects_call|]. intros variants.
  apply steady_bind; [apply _|apply respects_io, respects_call|]. intros inventoryLevels.
  apply steady_bind; [apply _|apply respects_sync_to_supabase|]. intros _.
  unfold remove_missing.
  apply steady_bind; [apply _|apply respects_io, respects_getAllProductSkus|].
  intros existing. destruct (0 <? length _)%nat; [|apply steady_ret, _].
  apply steady_bind; [apply _|apply respects_io, respects_deleteProductsBySkus|].
  intros n. apply respects_assign.
Qed.

Hypothesis R_log : ∀ w row c,
  w_clock w = S c → l_completed_at row = Some c →
  R w (set_sync_logs (w_sync_logs w ++ [row]) w).

Lemma respects_logSync syncType n errs startedAt status :
  steady R (logSync syncType n errs startedAt status).
Proof.
  intros w.
  destruct (logSync_world syncType n errs startedAt status w)
    as (w1 & row & Hp & Hl & Hc & Ht & Hrow & [-> | ->]).
  - apply R_other; auto. lia.
  - etrans; [|by apply (R_log _ _ (w_clock w))]. apply R_other; auto. lia.
Qed.

Lemma respects_log_pass syncType startedAt status :
  steady (in_pass R) (log_pass syncType startedAt status).
Proof.
  unfold log_pass.
  apply steady_bind; [apply _|apply respects_local|]. intros n.
  apply steady_bind; [apply _|apply respects_local|]. intros errs.
  apply respects_io, respects_logSync.
Qed.

Lemma respects_on_error syncType startedAt e :
  steady (in_pass R) (on_error syncType startedAt e).
Proof.
  unfold on_error. apply steady_bind; [apply _|apply respects_assign|].
  intros _. apply respects_log_pass.
Qed.

Lemma respects_summary startedAt : steady (in_pass R) (summary startedAt).
Proof.
  unfold summary.
  apply steady_bind; [apply _|apply respects_io, respects_new_Date|]. intros c.
  apply steady_bind; [apply _|apply respects_local|]. intros f.
  apply steady_ret, _.
Qed.

Lemma respects_fullSync lv useCache : steady R (fullSync lv useCache).
Proof.
  unfold fullSync. apply respects_method.
  apply steady_bind; [apply _|apply respects_io, respects_new_Date|]. intros startedAt.
  apply steady_bind; [apply _| |intros; apply respects_summary].
  apply steady_try_catch; [apply _| |intros; apply respects_on_error].
  apply steady_bind; [apply _|apply respects_fullSync_steps|].
  intros _. apply respects_log_pass.
Qed.

Lemma respects_incrementalSync lv useCache : steady R (incrementalSync lv useCache).
Proof.
  unfold incrementalSync. apply respects_method.
  apply steady_bind; [apply _|apply respects_io, respects_new_Date|]. intros startedAt.
  apply steady_bind; [apply _| |].
  - apply steady_try_catch; [apply _| |].
    + apply steady_bind; [apply _|apply respects_io, respects_getLastSyncTimestamp|].
      intros [lastSync|].
      * apply steady_bind; [apply _|apply respects_incrementalSync_steps|]. intros _.
        apply steady_bind; [apply _|apply respects_log_pass|]. intros _.
        apply steady_ret, _.
      * apply steady_bind; [apply _|apply respects_io, respects_fullSync|].
        intros r. apply steady_ret, _.
    + intros e. apply steady_bind; [apply _|apply respects_on_error|].
      intros _. apply steady_ret, _.
  - intros [r|]; [apply steady_ret, _|apply respects_summary].
Qed.

Lemma respects_sync_pass lv useCache kind : steady R (sync_pass lv useCache kind).
Proof. destruct kind; [apply respects_fullSync|apply respects_incrementalSync]. Qed.

End Respects.

(* ===================================================================== *)
(** * 18. Invariants of the product table *)
(* ===================================================================== *)

#[local] Instance rows_kept_or_keyed_preorder : PreOrder rows_kept_or_keyed.
Proof.
  split.
  - intros w sku p Hp. by left.
  - intros w1 w2 w3 H12 H23 sku p Hp.
    destruct (H23 sku p Hp) as [Hp2|?]; [|by right]. by apply H12.
Qed.

Lemma rows_kept_or_keyed_pass lv useCache kind w :
  rows_kept_or_keyed w (sync_pass lv useCache kind w).2.
Proof.
  apply (respects_sync_pass rows_kept_or_keyed).
  - intros w0 w' Hp _ _ _ sku p. rewrite Hp. by left.
  - intros w0 c sku p Hp. by left.
  - intros w0 chunk Hvalid sku p. simpl. rewrite upsert_rows_lookup.
    destruct (last_with_sku sku chunk) as [q|] eqn:E; [|by left].
    intros [= ->]. apply last_with_sku_Some in E as [Hin Hsku]. right.
    split; [done|]. rewrite <- Hsku. apply nonempty_spec.
    by apply (proj1 (Forall_forall _ _) Hvalid).
  - intros w0 chunk sku p. simpl. rewrite without_lookup.
    case_decide; [done|]. by left.
  - intros w0 row c _ _ sku p Hp. by left.
Qed.

(** X1. Whatever the client answers and whatever the store refuses, a pass,
    full or incremental, leaves every row of the product table either
    exactly as it was or stored under its own, non-empty SKU. So a table in
    which every row is stored under its own SKU stays so, and a pass never
    creates a row with the empty SKU. *)
Theorem rows_stay_keyed lv useCache kind w :
  let w' := (sync_pass lv useCache kind w).2 in
  rows_kept_or_keyed w w'
  ∧ (keyed_by_sku (w_products w) → keyed_by_sku (w_products w'))
  ∧ (w_products w !! "" = None → w_products w' !! "" = None).
Proof.
  intros w'. pose proof (rows_kept_or_keyed_pass lv useCache kind w) as Hrows.
  fold w' in Hrows. split_and!; [done| |].
  - intros Hkeyed sku p Hp. destruct (Hrows sku p Hp) as [Hold|[? _]]; [|done].
    by apply Hkeyed.
  - intros Hnone. destruct (w_products w' !! "") as [p|] eqn:Hp; [|done].
    destruct (Hrows "" p Hp) as [Hold|[_ ?]]; [|done]. by rewrite Hnone in Hold.
Qed.

Lemma rows_stay_keyed_witness :
  let lv := Scenario.client [Scenario.shirt] [Scenario.variant "" None;
                                               Scenario.variant "v1" None] in
  let w := Scenario.store [Scenario.row "OLD"] None [] Scenario.ledger_down in
  let w' := (sync_pass lv false Full w).2 in
  keyed_by_sku (w_products w') ∧ w_products w' !! "" = None.
Proof.
  intros lv w w'.
  destruct (rows_stay_keyed lv false Full w) as (_ & Hkeyed & Hempty).
  split; [apply Hkeyed|by apply Hempty].
  intros sku p. unfold w. simpl. rewrite lookup_insert_Some, lookup_empty.
  by intros [[<- <-]|[_ ?]].
Defined.

(* --------------------------------------------------------------------- *)
(** ** Incremental passes never delete *)

#[local] Instance keeps_deleted_preorder : PreOrder keeps_deleted.
Proof.
  split; [by intros s|]. intros s1 s2 s3 H1 H2. unfold keeps_deleted in *. congruence.
Qed.

#[local] Instance no_row_lost_preorder : PreOrder no_row_lost.
Proof.
  split; [by intros w sku|]. intros w1 w2 w3 H1 H2 sku Hsku. by apply H2, H1.
Qed.

Lemma keeps_deleted_io {A} (m : M World A) : steady keeps_deleted (io m).
Proof. intros [f w]. unfold keeps_deleted. by rewrite io_run. Qed.

Lemma incrementalSync_steps_keeps_deleted lv lastSync :
  steady keeps_deleted (incrementalSync_steps lv lastSync).
Proof.
  unfold incrementalSync_steps.
  apply steady_bind; [apply _|apply keeps_deleted_io|]. intros categories.
  apply steady_bind; [apply _|apply keeps_deleted_io|]. intros items.
  apply steady_bind; [apply _|apply keeps_deleted_io|]. intros variants.
  apply steady_bind; [apply _| |]. 
  { unfold repair_items. destruct (0 <? size _)%nat; [|apply steady_ret, _].
    apply steady_bind; [apply _|apply keeps_deleted_io|].
    intros allItems. apply steady_ret, _. }
  intros itemsMap.
  apply steady_bind; [apply _|apply keeps_deleted_io|]. intros inventoryLevels.
  unfold sync_to_supabase. destruct (0 <? length _)%nat; [|apply steady_ret, _].
  apply steady_bind; [apply _|apply keeps_deleted_io|]. intros n. by intros [f w].
Qed.

Lemma incrementalSync_steps_no_delete lv lastSync :
  steady (pass_evolves not_delete) (incrementalSync_steps lv lastSync).
Proof.
  unfold incrementalSync_steps.
  apply steady_bind; [apply _|by apply steady_io, steady_call|]. intros categories.
  apply steady_bind; [apply _|by apply steady_io, steady_call|]. intros items.
  apply steady_bind; [apply _|by apply steady_io, steady_call|]. intros variants.
  apply steady_bind; [apply _|by apply steady_repair_items|]. intros itemsMap.
  apply steady_bind; [apply _|by apply steady_io, steady_call|]. intros inventoryLevels.
  unfold sync_to_supabase. destruct (0 <? length _)%nat; [|apply steady_ret, _].
  apply steady_bind; [apply _| |intros n; by apply steady_assign].
  apply steady_io. unfold upsertProducts.
  generalize (slices chunkSize (validProducts_of
    (productsData_of (categoryMap_of categories) itemsMap inventoryLevels variants))).
  generalize 0%nat. intros n chunks. revert n.
  induction chunks as [|chunk chunks IH]; intros n; cbn [upsert_chunks].
  - apply steady_ret, _.
  - apply steady_bind; [apply _|by apply steady_pg_upsert|].
    intros [e|]; [apply steady_throw, _|apply IH].
Qed.

Lemma incrementalSync_steps_no_row_lost lv lastSync :
  steady (in_pass no_row_lost) (incrementalSync_steps lv lastSync).
Proof.
  apply (respects_incrementalSync_steps no_row_lost).
  - intros wa wb Hp _ _ _ k. by rewrite Hp.
  - intros wa chunk _ k [p Hp]. simpl. apply upsert_rows_dom. right. by eexists.
Qed.

Lemma getLastSyncTimestamp_trace w :
  w_trace (getLastSyncTimestamp w).2 = (w_trace w ++ [ESelectLastSync])%list.
Proof.
  unfold getLastSyncTimestamp, pg_select_last_success.
  unfold bind, emit, modify, next_outcome, gets. simpl.
  destruct (f_last_sync (w_faults w)) as [|[e|] q]; simpl; try done;
    by destruct (latest_success _).
Qed.

Lemma delete_batches_quiet t : Forall not_delete t → delete_batches t = [].
Proof. induction 1 as [|ev t Hev _ IH]; [done|]. destruct ev; try done; exact IH. Qed.

(** X2. An incremental pass that finds a watermark never deletes, whatever
    the client answers and whatever the store refuses: it sends no delete
    request, reports zero deleted products, and every SKU that was in the
    product table is still in it afterwards. *)
Theorem incremental_never_deletes lv useCache w lastSync w1 :
  getLastSyncTimestamp (new_Date w).2 = (inr (Some lastSync), w1) →
  ∃ r w',
    incrementalSync lv useCache w = (inr r, w')
    ∧ delete_batches (calls_of w w') = []
    ∧ r_products_deleted r = 0%nat
    ∧ no_row_lost w w'.
Proof.
  intros Hlast. simpl in Hlast.
  destruct (incrementalSync_steps lv lastSync (frame0, w1)) as [res [f1 w2]] eqn:Hsteps.
  destruct (incrementalSync_run _ useCache _ _ _ _ _ _ Hlast Hsteps)
    as (w3 & Hrun & Htrace & _ & Hp3 & _).
  eexists _, _. split; [exact Hrun|]. split_and!.
  - pose proof (incrementalSync_steps_no_delete lv lastSync (frame0, w1))
      as [[(t & Ht & Hquiet) _] _].
    rewrite Hsteps in Ht. simpl in Ht.
    pose proof (getLastSyncTimestamp_trace (set_clock (S (w_clock w)) w)) as Ht0.
    rewrite Hlast in Ht0. simpl in Ht0.
    rewrite (calls_of_app w _ ([ESelectLastSync] ++ t ++ [EInsertLog
               (log_row "incremental" (final_frame res f1) (w_clock w)
                  (final_status res) w2)])).
    + rewrite !delete_batches_app, (delete_batches_quiet t) by done. done.
    + simpl. rewrite Htrace, Ht, Ht0, <- !app_assoc. done.
  - pose proof (incrementalSync_steps_keeps_deleted lv lastSync (frame0, w1)) as Hd.
    rewrite Hsteps in Hd. unfold keeps_deleted in Hd. simpl in *.
    by destruct res.
  - intros sku Hsku. simpl. rewrite Hp3.
    assert (no_row_lost w1 w2) as H12.
    { pose proof (incrementalSync_steps_no_row_lost lv lastSync (frame0, w1)) as Hs.
      by rewrite Hsteps in Hs. }
    apply H12.
    pose proof (getLastSyncTimestamp_keeps (set_clock (S (w_clock w)) w)) as (Hk & _).
    rewrite Hlast in Hk. simpl in Hk. by rewrite Hk.
Qed.

Lemma incremental_never_deletes_witness :
  let lv := Scenario.client [Scenario.shirt] [Scenario.variant "v1" None] in
  let w := Scenario.store [Scenario.row "OLD"] None [Scenario.earlier_success] no_faults in
  ∃ r w',
    incrementalSync lv false w = (inr r, w')
    ∧ delete_batches (calls_of w w') = []
    ∧ r_products_deleted r = 0%nat
    ∧ no_row_lost w w'.
Proof.
  intros lv w. eapply (incremental_never_deletes lv false w 1%nat).
  vm_compute. reflexivity.
Defined.

(* ===================================================================== *)
(** * 19. Batches *)
(* ===================================================================== *)

Lemma slices_from_shape {A} (size : nat) (xs : list A) :
  (0 < size)%nat →
  ∀ turns i, (length xs - i ≤ turns)%nat →
    Forall (λ c, 0 < length c ≤ size)%nat (slices_from turns i size xs)
    ∧ (length xs - i ≤ size * length (slices_from turns i size xs)
       < length xs - i + size)%nat.
Proof.
  intros Hsize. induction turns as [|turns IH]; intros i Hturns.
  - simpl. split; [done|]. lia.
  - cbn [slices_from]. destruct (Nat.ltb_spec i (length xs)) as [Hlt|Hge].
    + destruct (IH (i + size)%nat) as [Hall Hcount]; [lia|]. split.
      * constructor; [|done]. rewrite length_take, length_drop. lia.
      * cbn [length]. rewrite Nat.mul_succ_r.
        destruct (Nat.le_gt_cases size (length xs - i)) as [Hbig|Hsmall]; [lia|].
        assert (length (slices_from turns (i + size) size xs) = 0)%nat as -> by nia.
        lia.
    + simpl. split; [done|]. lia.
Qed.

(** X3. The products to upsert, and the SKUs to delete, are sent in order in
    batches of at most 100, none of them empty, and in as few batches as
    that allows: a list of n elements goes in the least number of batches k
    with n <= 100 k. *)
Theorem batches_of_100 {A} (xs : list A) :
  concat (slices chunkSize xs) = xs
  ∧ Forall (λ c, 0 < length c ≤ 100)%nat (slices chunkSize xs)
  ∧ (length xs ≤ 100 * length (slices chunkSize xs) < length xs + 100)%nat.
Proof.
  destruct (slices_from_shape chunkSize xs chunkSize_pos (length xs) 0)
    as [Hall Hcount]; [lia|].
  rewrite Nat.sub_0_r in Hcount.
  split_and!; [apply slices_concat, chunkSize_pos|exact Hall|apply Hcount..].
Qed.

Lemma pg_upsert_cases chunk w :
  ∃ w1, w_trace w1 = (w_trace w ++ [EUpsert chunk])%list
        ∧ w_sync_logs w1 = w_sync_logs w ∧ w_sku_cache w1 = w_sku_cache w
        ∧ w_clock w1 = w_clock w
        ∧ f_insert_log (w_faults w1) = f_insert_log (w_faults w)
        ∧ f_upsert (w_faults w1) = tail (f_upsert (w_faults w))
        ∧ match head (f_upsert (w_faults w)) with
          | Some (Some e) =>
              pg_upsert chunk w = (inr (Some e), w1) ∧ w_products w1 = w_products w
          | _ =>
              pg_upsert chunk w = (inr None, w1)
              ∧ w_products w1 = upsert_rows chunk (w_products w)
          end.
Proof.
  exists (pg_upsert chunk w).2.
  unfold pg_upsert, bind, emit, modify, next_outcome. simpl.
  by destruct (f_upsert (w_faults w)) as [|[e|] q] eqn:E.
Qed.

(** [upsert_chunks], whatever the store answers: every batch is written and
    the total returned, or some batch is refused, the batches before it
    stay written and nothing is sent after it. *)
Lemma upsert_chunks_outcome chunks : ∀ n w,
  ∃ k w',
    (k ≤ length chunks)%nat
    ∧ w_products w' = upsert_rows (concat (take k chunks)) (w_products w)
    ∧ w_trace w' = (w_trace w ++ map EUpsert (take (S k) chunks))%list
    ∧ w_sync_logs w' = w_sync_logs w ∧ w_sku_cache w' = w_sku_cache w
    ∧ ((k = length chunks
        ∧ upsert_chunks chunks n w = (inr (n + length (concat chunks))%nat, w'))
       ∨ (k < length chunks
          ∧ ∃ e, f_upsert (w_faults w) !! k = Some (Some e)
                 ∧ upsert_chunks chunks n w = (inl e, w')))%nat.
Proof.
  induction chunks as [|chunk chunks IH]; intros n w; cbn [upsert_chunks].
  - exists 0%nat, w. simpl. rewrite Nat.add_0_r, app_nil_r.
    split_and!; try done. by left.
  - destruct (pg_upsert_cases chunk w)
      as (w1 & Ht & Hl & Hc & _ & _ & Hq & Hcase).
    assert (Hnext : pg_upsert chunk w = (inr None, w1)
                    ∧ w_products w1 = upsert_rows chunk (w_products w) →
      ∃ k w',
        (k ≤ length (chunk :: chunks))%nat
        ∧ w_products w' = upsert_rows (concat (take k (chunk :: chunks))) (w_products w)
        ∧ w_trace w' = (w_trace w ++ map EUpsert (take (S k) (chunk :: chunks)))%list
        ∧ w_sync_logs w' = w_sync_logs w ∧ w_sku_cache w' = w_sku_cache w
        ∧ ((k = length (chunk :: chunks)
            ∧ (let* error := pg_upsert chunk in
               match error with
               | Some e => throw e
               | None => upsert_chunks chunks (n + length chunk)
               end) w = (inr (n + length (concat (chunk :: chunks)))%nat, w'))
           ∨ (k < length (chunk :: chunks)
              ∧ ∃ e, f_upsert (w_faults w) !! k = Some (Some e)
                     ∧ (let* error := pg_upsert chunk in
                        match error with
                        | Some e => throw e
                        | None => upsert_chunks chunks (n + length chunk)
                        end) w = (inl e, w')))%nat).
    { intros [Hrun Hp]. rewrite (bind_inr _ _ _ _ _ Hrun).
      destruct (IH (n + length chunk)%nat w1)
        as (k & w' & Hle & Hp' & Ht' & Hl' & Hc' & Hres).
      exists (S k), w'. cbn [length take concat map].
      split_and!; [lia|by rewrite Hp', Hp, upsert_rows_app
                  |rewrite Ht', Ht, <- app_assoc; done|congruence|congruence|].
      destruct Hres as [[-> ->]|(Hlt & e & He & ->)].
      - left. split; [done|]. do 2 f_equal. rewrite length_app. lia.
      - right. split; [lia|]. exists e. split; [|done].
        rewrite Hq in He. by destruct (f_upsert (w_faults w)). }
    destruct (f_upsert (w_faults w)) as [|[e|] q] eqn:E; simpl in Hcase;
      [by apply Hnext| |by apply Hnext].
    destruct Hcase as [Hrun Hp]. rewrite (bind_inr _ _ _ _ _ Hrun).
    exists 0%nat, w1. cbn [length take concat map]. simpl.
    split_and!; try done; [lia|]. right. split; [lia|]. by exists e.
Qed.

Lemma upsertProducts_outcome pd w :
  let rows := validProducts_of pd in
  let chunks := slices chunkSize rows in
  ∃ k w',
    (k ≤ length chunks)%nat
    ∧ w_products w' = upsert_rows (concat (take k chunks)) (w_products w)
    ∧ w_trace w' = (w_trace w ++ map EUpsert (take (S k) chunks))%list
    ∧ ((k = length chunks ∧ upsertProducts pd w = (inr (length rows), w'))
       ∨ (k < length chunks
          ∧ ∃ e, f_upsert (w_faults w) !! k = Some (Some e)
                 ∧ upsertProducts pd w = (inl e, w')))%nat.
Proof.
  intros rows chunks.
  destruct (upsert_chunks_outcome chunks 0 w) as (k & w' & Hle & Hp & Ht & _ & _ & Hres).
  exists k, w'. split_and!; try done. unfold upsertProducts. fold rows chunks.
  destruct Hres as [[-> Hok]|(Hlt & e & He & Hko)]; [left|right; eauto].
  split; [done|]. rewrite Hok. simpl. unfold chunks.
  by rewrite slices_concat by apply chunkSize_pos.
Qed.

(** X4. [upsertProducts], whatever the store answers, either writes every
    batch and returns the number of products with a non-empty SKU, or throws
    the error of the first refused batch; the batches sent before that one
    stay written (there is no rollback), the refused one is not written and
    no batch is sent after it. *)
Theorem upsert_all_or_prefix pd w :
  let rows := validProducts_of pd in
  let chunks := slices chunkSize rows in
  let run := upsertProducts pd w in
  ∃ k,
    (k ≤ length chunks)%nat
    ∧ w_products run.2 = upsert_rows (concat (take k chunks)) (w_products w)
    ∧ upsert_batches (calls_of w run.2) = take (S k) chunks
    ∧ ((k = length chunks ∧ run.1 = inr (length rows)
        ∧ w_products run.2 = upsert_rows rows (w_products w))
       ∨ (k < length chunks
          ∧ ∃ e, f_upsert (w_faults w) !! k = Some (Some e) ∧ run.1 = inl e))%nat.
Proof.
  intros rows chunks run.
  destruct (upsert_chunks_outcome chunks 0 w) as (k & w' & Hle & Hp & Ht & _ & _ & Hres).
  assert (run = (run.1, w')) as Hrun.
  { unfold run, upsertProducts. fold rows chunks.
    by destruct Hres as [[_ ->]|(_ & e & _ & ->)]. }
  exists k. rewrite Hrun. simpl. split_and!; [done|done| |].
  - rewrite (calls_of_app w w' _ Ht). apply upsert_batches_upserts.
  - destruct Hres as [[-> Hok]|(Hlt & e & He & Hko)].
    + left. split; [done|]. unfold run, upsertProducts. fold rows chunks.
      rewrite Hok. simpl.
      rewrite firstn_all in Hp. unfold chunks in *.
      rewrite slices_concat in * by apply chunkSize_pos. by split.
    + right. split; [done|]. exists e. split; [done|].
      unfold run, upsertProducts. fold rows chunks. by rewrite Hko.
Qed.

#[local] Instance keeps_synced_preorder : PreOrder keeps_synced.
Proof.
  split; [by intros s|]. intros s1 s2 s3 H1 H2. unfold keeps_synced in *. congruence.
Qed.

Lemma remove_missing_keeps_synced useCache pd :
  steady keeps_synced (remove_missing useCache pd).
Proof.
  unfold remove_missing.
  apply steady_bind; [apply _| |].
  { intros [f w]. unfold keeps_synced. by rewrite io_run. }
  intros existing. destruct (0 <? length _)%nat; [|apply steady_ret, _].
  apply steady_bind; [apply _| |intros n; by intros [f w]].
  intros [f w]. unfold keeps_synced. by rewrite io_run.
Qed.

(** X5. A full pass whose four fetches succeed never reports a partial
    count: it reports as synced either every product with a non-empty SKU,
    or, when the store refuses an upsert batch, zero, although the batches
    sent before the refused one stay written; in that case the pass deletes
    nothing and returns one error: the message of the value [upsertProducts]
    threw when that is an [Error], and ["Unknown error"] when it is not, as
    for the plain error object of a store response. *)
Theorem synced_count_all_or_nothing lv useCache categories items variants
    inventoryLevels w :
  getAllCategories lv = inr categories →
  getAllItems lv = inr items →
  getAllVariants lv = inr variants →
  getAllInventoryLevels lv = inr inventoryLevels →
  let rows := validProducts_of (prepared categories items variants inventoryLevels) in
  let chunks := slices chunkSize rows in
  ∃ r w',
    fullSync lv useCache w = (inr r, w')
    ∧ (r_products_synced r = length rows
       ∨ ∃ k e,
           (k < length chunks)%nat
           ∧ f_upsert (w_faults w) !! k = Some (Some e)
           ∧ r_products_synced r = 0%nat
           ∧ r_products_deleted r = 0%nat
           ∧ r_errors r = [Js.errorMessage e]
           ∧ w_products w' = upsert_rows (concat (take k chunks)) (w_products w)
           ∧ upsert_batches (calls_of w w') = take (S k) chunks
           ∧ delete_batches (calls_of w w') = []).
Proof.
  intros Hc Hi Hv Hinv rows chunks.
  set (pd := prepared categories items variants inventoryLevels) in *.
  set (w0 := set_clock (S (w_clock w)) w).
  set (w4 := set_trace ((((w_trace w0 ++ [EGetAllCategories]) ++ [EGetAllItems])
                          ++ [EGetAllVariants]) ++ [EGetAllInventoryLevels]) w0).
  assert (Hsteps : fullSync_steps lv useCache (frame0, w0)
                   = (sync_to_supabase pd;; remove_missing useCache pd) (frame0, w4)).
  { unfold fullSync_steps.
    rewrite (bind_inr _ _ _ categories
               (frame0, set_trace (w_trace w0 ++ [EGetAllCategories]) w0))
      by (by rewrite call_run, Hc).
    rewrite (bind_inr _ _ _ items
               (frame0, set_trace ((w_trace w0 ++ [EGetAllCategories])
                                   ++ [EGetAllItems]) w0))
      by (by rewrite call_run, Hi).
    rewrite (bind_inr _ _ _ variants
               (frame0, set_trace (((w_trace w0 ++ [EGetAllCategories])
                                    ++ [EGetAllItems]) ++ [EGetAllVariants]) w0))
      by (by rewrite call_run, Hv).
    by rewrite (bind_inr _ _ _ inventoryLevels (frame0, w4))
      by (by rewrite call_run, Hinv). }
  destruct (fullSync_steps lv useCache (frame0, w0)) as [res [f1 w2]] eqn:Hrun.
  destruct (fullSync_run _ _ _ _ _ _ Hrun) as (w3 & Hfull & Htrace & _ & Hp3 & _).
  eexists _, _. split; [exact Hfull|]. simpl.
  replace (productsSynced (final_frame res f1)) with (productsSynced f1)
    by (by destruct res).
  symmetry in Hsteps. unfold sync_to_supabase in Hsteps. clearbody pd.
  destruct (Nat.ltb_spec 0 (length pd)) as [Hpos|Hzero]; last first.
  - assert (pd = []) as -> by (destruct pd; simpl in *; [done|lia]).
    left. rewrite (bind_inr _ _ _ tt (frame0, w4)) in Hsteps by done.
    pose proof (remove_missing_keeps_synced useCache [] (frame0, w4)) as Hk.
    rewrite Hsteps in Hk. unfold keeps_synced in Hk. simpl in Hk.
    by rewrite Hk.
  - destruct (upsertProducts_outcome pd w4)
      as (k & w5 & Hle & Hp & Ht & [(-> & Hok)|(Hlt & e & He & Hko)]).
    + left.
      rewrite (bind_inr _ _ _ tt (set_productsSynced (length rows) frame0, w5))
        in Hsteps.
      2:{ unfold bind. by rewrite io_run, Hok. }
      pose proof (remove_missing_keeps_synced useCache pd
                    (set_productsSynced (length rows) frame0, w5)) as Hk.
      rewrite Hsteps in Hk. unfold keeps_synced in Hk. simpl in Hk. by rewrite Hk.
    + right.
      rewrite (bind_inl _ _ _ e (frame0, w5)) in Hsteps.
      2:{ unfold bind. by rewrite io_run, Hko. }
      injection Hsteps as <- <- <-. exists k, e. simpl.
      split_and!; try done.
      * by rewrite Hp3, Hp.
      * rewrite (calls_of_app w _
          ([EGetAllCategories; EGetAllItems; EGetAllVariants; EGetAllInventoryLevels]
           ++ map EUpsert (take (S k) chunks)
           ++ [EInsertLog (log_row "full" (push_error (Js.errorMessage e) frame0)
                             (w_clock w) failed w5)])).
        -- rewrite !upsert_batches_app, upsert_batches_upserts. simpl.
           by rewrite app_nil_r.
        -- simpl. rewrite Htrace, Ht. unfold w4, w0. simpl.
           rewrite <- !app_assoc. cbn [app]. by rewrite <- ?app_assoc.
      * rewrite (calls_of_app w _
          ([EGetAllCategories; EGetAllItems; EGetAllVariants; EGetAllInventoryLevels]
           ++ map EUpsert (take (S k) chunks)
           ++ [EInsertLog (log_row "full" (push_error (Js.errorMessage e) frame0)
                             (w_clock w) failed w5)])).
        -- rewrite !delete_batches_app, delete_batches_upserts. done.
        -- simpl. rewrite Htrace, Ht. unfold w4, w0. simpl.
           rewrite <- !app_assoc. cbn [app]. by rewrite <- ?app_assoc.
Qed.

Lemma synced_count_all_or_nothing_witness :
  let lv := Scenario.client [Scenario.shirt] (many_variants 150) in
  let w := Scenario.store [] None [] (upsert_outcomes [None; Some Js.NonError]) in
  let rows := validProducts_of (prepared [] [Scenario.shirt] (many_variants 150) []) in
  (∃ r w',
     fullSync lv false w = (inr r, w')
     ∧ (r_products_synced r = length rows
        ∨ ∃ k e,
            (k < length (slices chunkSize rows))%nat
            ∧ f_upsert (w_faults w) !! k = Some (Some e)
            ∧ r_products_synced r = 0%nat
            ∧ r_products_deleted r = 0%nat
            ∧ r_errors r = [Js.errorMessage e]
            ∧ w_products w'
              = upsert_rows (concat (take k (slices chunkSize rows))) (w_products w)
            ∧ upsert_batches (calls_of w w') = take (S k) (slices chunkSize rows)
            ∧ delete_batches (calls_of w w') = []))
  ∧ match (fullSync lv false w).1 with
    | inr r => r_products_synced r = 0%nat ∧ r_errors r = ["Unknown error"]
    | inl _ => False
    end
  ∧ size (w_products (fullSync lv false w).2) = 100%nat.
Proof.
  intros lv w rows. split.
  - exact (synced_count_all_or_nothing lv false [] [Scenario.shirt] (many_variants 150)
             [] w eq_refl eq_refl eq_refl eq_refl).
  - split; by vm_compute.
Defined.

(* ===================================================================== *)
(** * 20. The SKU enumeration and its cache *)
(* ===================================================================== *)




Lemma pg_select_skus_cache_write first last w :
  f_cache_write (w_faults (pg_select_skus first last w).2) = f_cache_write (w_faults w).
Proof.
  unfold pg_select_skus, bind, emit, modify, gets, next_outcome, ret.
  cbn [fst snd queue_of w_faults set_trace].
  by destruct (f_select_skus (w_faults w)) as [|[e|] q].
Qed.

Lemma skus_loop_cache_write turns : ∀ page acc w,
  f_cache_write (w_faults (skus_loop turns page acc w).2) = f_cache_write (w_faults w).
Proof.
  induction turns as [|turns IH]; intros page acc w; [done|].
  cbn [skus_loop]. unfold bind at 1.
  pose proof (pg_select_skus_cache_write (page * pageSize) ((page + 1) * pageSize - 1) w)
    as Hpage.
  destruct (pg_select_skus _ _ w) as [[e|[data [e|]]] w1]; cbn [snd] in *; try done.
  destruct data as [rows|]; [|done].
  destruct (0 <? length rows)%nat; [|done].
  destruct (length rows =? pageSize)%nat; [|done].
  by rewrite IH.
Qed.

Lemma cache_skus_run allSkus w :
  ∃ w', cache_skus allSkus w = (inr tt, w')
        ∧ w_sku_cache w'
          = (if cache_write_accepted w then Some allSkus else w_sku_cache w)
        ∧ w_products w' = w_products w
        ∧ w_sync_logs w' = w_sync_logs w
        ∧ w_trace w' = w_trace w.
Proof.
  unfold cache_skus, bind, next_outcome, modify, ret, cache_write_accepted.
  cbn [queue_of].
  destruct (f_cache_write (w_faults w)) as [|[e|] q]; eexists; by split_and!.
Qed.



Lemma skus_loop_untouched turns page acc w :
  untouched w (skus_loop turns page acc w).2.
Proof.
  assert (PreOrder untouched) as Hpre.
  { split; [by intros w0|]. intros w1 w2 w3 (? & ? & ?) (? & ? & ?).
    unfold untouched. split_and!; congruence. }
  apply (@respects_skus_loop untouched Hpre).
  intros w0 w' ? ? ? _. by split_and!.
Qed.

(** X7. When [getAllProductSkus] throws, because the store refused a page,
    it has written nothing: the cache file, the product table and the ledger
    are as they were. *)
Theorem enumeration_failure_writes_nothing useCache w e :
  (getAllProductSkus useCache w).1 = inl e →
  untouched w (getAllProductSkus useCache w).2.
Proof.
  unfold getAllProductSkus, cache_skus, bind, gets, modify, next_outcome.
  intros Hthrow.
  pose proof (skus_loop_untouched (S (size (w_products w))) 0 [] w) as Hloop.
  destruct useCache, (w_sku_cache w) as [cached|] eqn:Hc; try done;
    destruct (skus_loop _ _ _ w) as [[e'|skus] w']; try done;
    cbn [fst snd] in *;
    by destruct (queue_of FCacheWrite (w_faults w')) as [|[e'|] q].
Qed.

Lemma enumeration_failure_writes_nothing_witness :
  let w := Scenario.store [Scenario.row "A"] (Some ["OLD"]) []
             {| f_upsert := []; f_select_skus := [Some (Js.ErrorObj "timeout")];
                f_delete := []; f_last_sync := []; f_insert_log := [];
                f_cache_write := [] |} in
  untouched w (getAllProductSkus false w).2.
Proof.
  intros w. by apply (enumeration_failure_writes_nothing false w (Js.ErrorObj "timeout")).
Defined.

(** X8. Once an enumeration has succeeded and its list is in the cache
    (it was read from there, or the file system accepted the write), every
    later enumeration with caching on returns that same list without a
    single request to the store, whatever has been written to the product
    table in between: the cached list never expires and no write refreshes
    it. *)
Theorem cached_enumeration_is_sticky useCache w skus w1 w2 :
  getAllProductSkus useCache w = (inr skus, w1) →
  cache_write_accepted w = true →
  w_sku_cache w2 = w_sku_cache w1 →
  getAllProductSkus true w2 = (inr skus, w2).
Proof.
  intros Hrun Haccepted Hsame.
  assert (w_sku_cache w1 = Some skus) as Hcache.
  { assert (Hlive :
      (let* rows := gets (λ w, size (w_products w)) in
       let* allSkus := skus_loop (S rows) 0 [] in
       cache_skus allSkus;; ret allSkus) w = (inr skus, w1) →
      w_sku_cache w1 = Some skus).
    { unfold bind at 1. unfold gets at 1.
      pose proof (skus_loop_cache_write (S (size (w_products w))) 0 [] w) as Hkeeps.
      destruct (skus_loop (S (size (w_products w))) 0 [] w) as [[e|all] w'] eqn:Hloop.
      - by rewrite (bind_inl _ _ _ _ _ Hloop).
      - rewrite (bind_inr _ _ _ _ _ Hloop).
        destruct (cache_skus_run all w') as (w'' & Hset & Hc & _).
        rewrite (bind_inr _ _ _ _ _ Hset). unfold ret. intros [= <- <-].
        rewrite Hc. unfold cache_write_accepted in *. cbn [snd] in Hkeeps.
        by rewrite Hkeeps, Haccepted. }
    revert Hrun. unfold getAllProductSkus. unfold bind at 1. unfold gets at 1.
    destruct useCache, (w_sku_cache w) as [cached|] eqn:Hc; try exact Hlive.
    unfold ret. by intros [= <- <-]. }
  unfold getAllProductSkus, bind, gets. by rewrite Hsame, Hcache.
Qed.

Lemma cached_enumeration_is_sticky_witness :
  let w := Scenario.store [Scenario.row "A"] None [] no_faults in
  let w1 := (getAllProductSkus false w).2 in
  let w2 := set_products (upsert_rows [Scenario.row "B"] (w_products w1)) w1 in
  getAllProductSkus true w2 = (inr ["A"], w2).
Proof.
  intros w w1 w2.
  apply (cached_enumeration_is_sticky false w ["A"] w1 w2); by vm_compute.
Defined.

(* ===================================================================== *)
(** * 21. Deleting by SKU *)
(* ===================================================================== *)

Lemma without_size chunk (t : gmap string SupabaseProduct) :
  size t = (size (filter (λ kv, kv.1 ∈ chunk) t) + size (without chunk t))%nat.
Proof.
  rewrite <- (map_filter_union_complement (λ kv, kv.1 ∈ chunk) t) at 1.
  by rewrite map_size_disj_union by apply map_disjoint_filter_complement.
Qed.

Lemma without_size_le chunk (t : gmap string SupabaseProduct) :
  (size (without chunk t) ≤ size t)%nat.
Proof. rewrite (without_size chunk t). lia. Qed.

Lemma pg_delete_in_count chunk w :
  w_faults w = no_faults →
  ∃ rows, pg_delete_in chunk w
          = (inr (Some rows, None),
             set_products (without chunk (w_products w))
               (set_trace (w_trace w ++ [EDelete chunk]) w))
          ∧ length rows
            = (size (w_products w) - size (without chunk (w_products w)))%nat.
Proof.
  intros Hf. unfold pg_delete_in, bind, emit, modify, gets. simpl.
  rewrite next_outcome_served by done. eexists. split; [done|].
  rewrite length_fmap, length_map_to_list. simpl.
  pose proof (without_size chunk (w_products w)) as Hsize.
  unfold without in Hsize |- *. lia.
Qed.

Lemma delete_chunks_count chunks : ∀ n w,
  w_faults w = no_faults →
  delete_chunks chunks n w
  = (inr (n + (size (w_products w)
               - size (without (concat chunks) (w_products w))))%nat,
     set_products (without (concat chunks) (w_products w))
       (set_trace (w_trace w ++ map EDelete chunks) w)).
Proof.
  induction chunks as [|chunk chunks IH]; intros n w Hf; cbn [delete_chunks].
  - simpl. rewrite app_nil_r, without_nil, Nat.sub_diag, Nat.add_0_r. by destruct w.
  - destruct (pg_delete_in_count chunk w Hf) as (rows & Hrun & Hrows).
    rewrite (bind_inr _ _ _ _ _ Hrun). rewrite IH by done.
    cbn [concat map]. unfold set_products, set_trace.
    cbn [w_products w_sync_logs w_sku_cache w_faults w_clock w_trace].
    pose proof (without_size_le chunk (w_products w)).
    pose proof (without_size_le (concat chunks) (without chunk (w_products w))) as Hle.
    rewrite without_app in Hle |- *. rewrite <- app_assoc, Hrows.
    do 2 f_equal. lia.
Qed.

(** X9. When the store serves every request, [deleteProductsBySkus] removes
    from the product table exactly the rows whose SKU is in the list, leaves
    every other row as it was, and returns the number of rows that were
    actually there to remove (the drop in the size of the table), which can
    be less than the number of SKUs asked for. The SKUs are sent in batches
    of 100; an empty list sends nothing and returns 0. *)
Theorem delete_removes_and_counts skus w :
  w_faults w = no_faults →
  ∃ n w',
    deleteProductsBySkus skus w = (inr n, w')
    ∧ (∀ sku, sku ∈ skus → w_products w' !! sku = None)
    ∧ (∀ sku, sku ∉ skus → w_products w' !! sku = w_products w !! sku)
    ∧ (n + size (w_products w') = size (w_products w))%nat
    ∧ delete_batches (calls_of w w') = slices chunkSize skus
    ∧ (skus = [] → n = 0%nat ∧ w' = w).
Proof.
  intros Hf.
  pose proof (delete_chunks_count (slices chunkSize skus) 0 w Hf) as Hrun.
  rewrite slices_concat in Hrun by apply chunkSize_pos.
  pose proof (without_size_le skus (w_products w)) as Hle.
  assert (Hlookup : ∀ sku,
    (sku ∈ skus → without skus (w_products w) !! sku = None)
    ∧ (sku ∉ skus → without skus (w_products w) !! sku = w_products w !! sku)).
  { intros sku. rewrite without_lookup. by case_decide. }
  destruct skus as [|sku skus].
  - exists 0%nat, w. split; [done|]. split_and!; try done.
    + intros sku Hin. by apply elem_of_nil in Hin.
    + unfold calls_of. by rewrite drop_all.
  - eexists _, _. split; [exact Hrun|]. simpl. split_and!.
    + intros k. apply Hlookup.
    + intros k. apply Hlookup.
    + lia.
    + rewrite (calls_of_app w _ (map EDelete (slices chunkSize (sku :: skus)))) by done.
      apply delete_batches_deletes.
    + done.
Qed.

Lemma delete_removes_and_counts_witness :
  let w := Scenario.store [Scenario.row "A"; Scenario.row "B"] None [] no_faults in
  ∃ n w',
    deleteProductsBySkus ["A"; "GONE"] w = (inr n, w')
    ∧ (∀ sku, sku ∈ ["A"; "GONE"] → w_products w' !! sku = None)
    ∧ (∀ sku, sku ∉ ["A"; "GONE"] → w_products w' !! sku = w_products w !! sku)
    ∧ (n + size (w_products w') = size (w_products w))%nat
    ∧ delete_batches (calls_of w w') = slices chunkSize ["A"; "GONE"]
    ∧ (["A"; "GONE"] = [] → n = 0%nat ∧ w' = w).
Proof.
  intros w. by apply (delete_removes_and_counts ["A"; "GONE"] w).
Defined.

(** X10. Whatever the store refuses, [deleteProductsBySkus] only removes
    rows: every row of the table afterwards was in the table before,
    unchanged; the cache file and the ledger are not touched. *)
Theorem delete_only_removes skus w :
  let w' := (deleteProductsBySkus skus w).2 in
  only_removes w w'
  ∧ w_sku_cache w' = w_sku_cache w
  ∧ w_sync_logs w' = w_sync_logs w.
Proof.
  set (R := λ w w' : World,
         only_removes w w' ∧ w_sku_cache w' = w_sku_cache w
         ∧ w_sync_logs w' = w_sync_logs w).
  assert (PreOrder R) as Hpre.
  { split.
    - intros w0. unfold R. split_and!; [by intros sku p Hp|done..].
    - intros w1 w2 w3 (H1 & ? & ?) (H2 & ? & ?). unfold R.
      split_and!; [|congruence..].
      intros sku p Hp. by apply H1, H2. }
  apply (@respects_deleteProductsBySkus R Hpre).
  - intros w0 w' Hp Hl Hc _. unfold R. split_and!; [|done..].
    intros sku p. by rewrite Hp.
  - intros w0 chunk. unfold R. split_and!; [|done..]. intros sku p. simpl.
    rewrite without_lookup. by case_decide.
Qed.

(* ===================================================================== *)
(** * 22. The watermark *)
(* ===================================================================== *)

Lemma completed_after_irrefl a : completed_after a a = false.
Proof.
  unfold completed_after. destruct (l_completed_at a); [|done].
  apply Nat.ltb_irrefl.
Qed.

Lemma completed_after_chain a b c :
  completed_after a b = false → completed_after b c = false →
  completed_after a c = false.
Proof.
  unfold completed_after.
  destruct (l_completed_at a), (l_completed_at b), (l_completed_at c);
    try done; rewrite !Nat.ltb_ge; lia.
Qed.

Lemma completed_after_above a b c :
  completed_after a b = true → completed_after a c = false →
  completed_after b c = false.
Proof.
  unfold completed_after.
  destruct (l_completed_at a), (l_completed_at b), (l_completed_at c);
    try done; rewrite ?Nat.ltb_ge, ?Nat.ltb_lt; lia.
Qed.

Lemma latest_fold rows : ∀ b,
  ∃ best,
    foldl (λ best row,
             match best with
             | None => Some row
             | Some b => if completed_after row b then Some row else Some b
             end) (Some b) rows = Some best
    ∧ (best = b ∨ best ∈ rows)
    ∧ completed_after b best = false
    ∧ ∀ row, row ∈ rows → completed_after row best = false.
Proof.
  induction rows as [|r rows IH]; intros b; cbn [foldl].
  - exists b. split_and!; [done|by left|apply completed_after_irrefl|].
    intros row Hin. by apply elem_of_nil in Hin.
  - destruct (completed_after r b) eqn:Hrb.
    + destruct (IH r) as (best & Hrun & Hin & Hr & Hall).
      exists best. split_and!; [done| | |].
      * right. destruct Hin as [->|Hin]; apply elem_of_cons; [by left|by right].
      * by apply (completed_after_above r).
      * intros row [->|Hrow]%elem_of_cons; [done|by apply Hall].
    + destruct (IH b) as (best & Hrun & Hin & Hb & Hall).
      exists best. split_and!; [done| |done|].
      * destruct Hin as [->|Hin]; [by left|right; apply elem_of_cons; by right].
      * intros row [->|Hrow]%elem_of_cons; [|by apply Hall].
        by apply (completed_after_chain _ b).
Qed.

Lemma is_success_spec row : is_success row = true ↔ l_status row = success.
Proof. unfold is_success. by destruct (l_status row). Qed.

Lemma filter_success logs row :
  row ∈ List.filter is_success logs ↔ row ∈ logs ∧ l_status row = success.
Proof.
  rewrite !list_elem_of_In, List.filter_In. by rewrite is_success_spec.
Qed.

Lemma latest_success_spec logs :
  match latest_success logs with
  | Some best =>
      best ∈ logs ∧ l_status best = success
      ∧ ∀ row, row ∈ logs → l_status row = success →
               completed_after row best = false
  | None => Forall (λ row, l_status row ≠ success) logs
  end.
Proof.
  unfold latest_success.
  destruct (List.filter is_success logs) as [|b rows] eqn:Hrows.
  - simpl. apply Forall_forall. intros row Hin Hs.
    assert (row ∈ List.filter is_success logs) as Hrow by by apply filter_success.
    rewrite Hrows in Hrow. by apply elem_of_nil in Hrow.
  - cbn [foldl]. destruct (latest_fold rows b) as (best & -> & Hin & Hb & Hall).
    assert (Hsub : ∀ row, row ∈ b :: rows → row ∈ logs ∧ l_status row = success).
    { intros row Hrow. apply filter_success. by rewrite Hrows. }
    assert (best ∈ b :: rows) as Hbest.
    { destruct Hin as [->|Hin]; apply elem_of_cons; [by left|by right]. }
    split_and!; [by apply Hsub|by apply Hsub|].
    intros row Hrow Hs.
    assert (row ∈ b :: rows) as [->|Hr]%elem_of_cons.
    { rewrite <- Hrows. by apply filter_success. }
    + done.
    + by apply Hall.
Qed.

Lemma getLastSyncTimestamp_value w :
  (getLastSyncTimestamp w).1
  = inr (if query_served w
         then match latest_success (w_sync_logs w) with
              | Some row => l_completed_at row
              | None => None
              end
         else None).
Proof.
  unfold getLastSyncTimestamp, pg_select_last_success, query_served.
  unfold bind, emit, modify, next_outcome, gets. simpl.
  destruct (f_last_sync (w_faults w)) as [|[e|] q]; simpl; try done;
    by destruct (latest_success _).
Qed.

Lemma latest_completion_value logs t :
  latest_completion logs t
  ↔ match latest_success logs with
    | Some row => l_completed_at row
    | None => None
    end = Some t.
Proof.
  pose proof (latest_success_spec logs) as Hspec.
  destruct (latest_success logs) as [best|]; split.
  - intros [(row & Hrow & Hs & Ht) Hall].
    destruct Hspec as (Hbest & Hsb & Hmax).
    destruct (Hall best Hbest Hsb) as (tb & Htb & Hle).
    specialize (Hmax row Hrow Hs). unfold completed_after in Hmax.
    rewrite Ht, Htb in Hmax. apply Nat.ltb_ge in Hmax.
    rewrite Htb. f_equal. lia.
  - intros Ht. destruct Hspec as (Hbest & Hsb & Hmax). split; [by exists best|].
    intros row Hrow Hs. specialize (Hmax row Hrow Hs).
    unfold completed_after in Hmax. rewrite Ht in Hmax.
    destruct (l_completed_at row) as [t'|]; [|done].
    exists t'. split; [done|]. by apply Nat.ltb_ge in Hmax.
  - intros [(row & Hrow & Hs & _) _].
    by destruct (proj1 (Forall_forall _ _) Hspec row Hrow).
  - done.
Qed.

(** X11. [getLastSyncTimestamp] never throws and writes nothing. It answers
    with a time [t] exactly when the store serves the query, some successful
    ledger entry was completed at [t], and every successful entry has a
    completion time, none later than [t]; in every other case (the query is
    refused, no entry is successful, a successful entry has no completion
    time) it answers null. Failed and partial entries never count. *)
Theorem watermark_is_latest_success w :
  (∃ lastSync, (getLastSyncTimestamp w).1 = inr lastSync)
  ∧ untouched w (getLastSyncTimestamp w).2
  ∧ ∀ t, (getLastSyncTimestamp w).1 = inr (Some t)
         ↔ query_served w = true ∧ latest_completion (w_sync_logs w) t.
Proof.
  split_and!.
  - rewrite getLastSyncTimestamp_value. by eexists.
  - pose proof (getLastSyncTimestamp_keeps w) as (? & ? & ?). by split_and!.
  - intros t. rewrite getLastSyncTimestamp_value, latest_completion_value.
    destruct (query_served w); split.
    + intros [= Ht]. by split.
    + intros [_ Ht]. by rewrite Ht.
    + done.
    + by intros [? _].
Qed.

Lemma ledger_grows_preorder : PreOrder ledger_grows.
Proof.
  split.
  - intros w. split; [done|]. exists []. split; [by rewrite app_nil_r|].
    intros row Hin. by apply elem_of_nil in Hin.
  - intros w1 w2 w3 (Hc12 & new1 & Hl12 & Hn1) (Hc23 & new2 & Hl23 & Hn2).
    split; [lia|]. exists (new1 ++ new2)%list.
    split; [by rewrite Hl23, Hl12, app_assoc|].
    intros row [Hin|Hin]%elem_of_app.
    + destruct (Hn1 row Hin) as (t & Ht & ? & ?). exists t. split_and!; [done|lia..].
    + destruct (Hn2 row Hin) as (t & Ht & ? & ?). exists t. split_and!; [done|lia..].
Qed.

Lemma ledger_grows_quiet w w' :
  w_sync_logs w' = w_sync_logs w → (w_clock w ≤ w_clock w')%nat → ledger_grows w w'.
Proof.
  intros Hl Hc. split; [done|]. exists []. split; [by rewrite app_nil_r|].
  intros row Hin. by apply elem_of_nil in Hin.
Qed.

Lemma sync_pass_ledger_grows lv useCache kind w :
  ledger_grows w (sync_pass lv useCache kind w).2.
Proof.
  apply (@respects_sync_pass ledger_grows ledger_grows_preorder).
  - intros w0 w' _ Hl _ Hc. by apply ledger_grows_quiet.
  - intros w0 c. by apply ledger_grows_quiet.
  - intros w0 chunk _. by apply ledger_grows_quiet.
  - intros w0 chunk. by apply ledger_grows_quiet.
  - intros w0 row c Hc Hrow. split; [done|]. exists [row]. split; [done|].
    intros row' ->%list_elem_of_singleton. exists c. simpl. split_and!; [done|lia..].
Qed.

Lemma ledger_grows_in_past w w' :
  ledger_grows w w' → ledger_in_past w → ledger_in_past w'.
Proof.
  intros (Hc & new & Hl & Hnew) Hpast row. rewrite Hl. intros [Hin|Hin]%elem_of_app.
  - destruct (Hpast row Hin) as (t & Ht & ?). exists t. split; [done|lia].
  - destruct (Hnew row Hin) as (t & Ht & _ & ?). by exists t.
Qed.

Lemma latest_success_failed logs row :
  l_status row ≠ success → latest_success (logs ++ [row]) = latest_success logs.
Proof.
  intros Hrow. unfold latest_success. rewrite List.filter_app. simpl.
  destruct (is_success row) eqn:Hs; [by apply is_success_spec in Hs|].
  by rewrite app_nil_r.
Qed.

(** The outcome of the steps of a pass, read off what it returns. *)
Lemma final_frame_errors res f1 :
  errors f1 = [] →
  (errors (final_frame res f1) = [] → final_status res = success)
  ∧ (errors (final_frame res f1) ≠ [] → final_status res = failed).
Proof.
  intros Hf1. destruct res as [e|[]]; simpl; rewrite Hf1; split; try done.
Qed.

(** X12. A pass that reports an error never moves the watermark: whether or
    not its ledger entry is recorded, a later [getLastSyncTimestamp] answers
    what it would have answered before the pass. *)
Theorem failed_pass_keeps_watermark lv useCache kind w r w' :
  sync_pass lv useCache kind w = (inr r, w') →
  r_errors r ≠ [] →
  ∀ a b, w_sync_logs a = w_sync_logs w → w_sync_logs b = w_sync_logs w' →
         query_served b = query_served a →
         (getLastSyncTimestamp b).1 = (getLastSyncTimestamp a).1.
Proof.
  intros Hrun Herr a b Ha Hb Hq.
  destruct (pass_ledger lv useCache kind w)
    as (r0 & row & w0 & res & f1 & Hrun0 & _ & Hlogs & _ & Hstatus & _ & _ & _ & Hr & Hf1).
  rewrite Hrun in Hrun0. injection Hrun0 as <- <-.
  rewrite Hr in Herr.
  pose proof (proj2 (final_frame_errors res f1 Hf1) Herr) as Hfailed.
  rewrite !getLastSyncTimestamp_value, Hq, Ha, Hb, Hlogs.
  destruct (insert_accepted w); [|by rewrite app_nil_r].
  rewrite latest_success_failed; [done|]. by rewrite Hstatus, Hfailed.
Qed.

Lemma failed_pass_keeps_watermark_witness :
  let lv := Scenario.client [Scenario.shirt] [Scenario.variant "v1" None] in
  let w := Scenario.store [] None [Scenario.earlier_success] Scenario.upsert_down in
  let w' := (sync_pass lv false Incremental w).2 in
  (getLastSyncTimestamp w').1 = (getLastSyncTimestamp w).1.
Proof.
  intros lv w w'.
  eapply (failed_pass_keeps_watermark lv false Incremental w _ w').
  - vm_compute. reflexivity.
  - vm_compute. discriminate.
  - reflexivity.
  - reflexivity.
  - reflexivity.
Defined.

(** X13. A pass that reports no error and whose ledger entry the store
    accepts sets the watermark, when the entries the ledger had were all
    completed in the past: its entry is successful, completed before the
    pass returns and no earlier than any entry the ledger had, and a later
    [getLastSyncTimestamp], when served, answers with that completion time.
    The ledger is again in the past afterwards. *)
Theorem clean_pass_sets_watermark lv useCache kind w r w' :
  sync_pass lv useCache kind w = (inr r, w') →
  r_errors r = [] →
  insert_accepted w = true →
  ledger_in_past w →
  ∃ row t,
    w_sync_logs w' = (w_sync_logs w ++ [row])%list
    ∧ l_status row = success
    ∧ l_completed_at row = Some t
    ∧ (t < w_clock w')%nat
    ∧ latest_completion (w_sync_logs w') t
    ∧ ledger_in_past w'
    ∧ ∀ b, w_sync_logs b = w_sync_logs w' → query_served b = true →
           (getLastSyncTimestamp b).1 = inr (Some t).
Proof.
  intros Hrun Herr Hacc Hpast.
  pose proof (sync_pass_ledger_grows lv useCache kind w) as Hgrow.
  destruct (pass_ledger lv useCache kind w)
    as (r0 & row & w0 & res & f1 & Hrun0 & _ & Hlogs & _ & Hstatus & _ & _ & _ & Hr & Hf1).
  rewrite Hrun in Hrun0, Hgrow. injection Hrun0 as <- <-. simpl in Hgrow.
  rewrite Hr in Herr. rewrite Hacc in Hlogs.
  pose proof (proj1 (final_frame_errors res f1 Hf1) Herr) as Hsuccess.
  rewrite <- Hstatus in Hsuccess.
  pose proof (ledger_grows_in_past _ _ Hgrow Hpast) as Hpast'.
  destruct Hgrow as (Hclock & new & Hnew & Hrows).
  rewrite Hlogs in Hnew. apply app_inv_head in Hnew. subst new.
  destruct (Hrows row) as (t & Ht & Hafter & Hbefore);
    [by apply list_elem_of_singleton|].
  assert (latest_completion (w_sync_logs w') t) as Hlatest.
  { split.
    - exists row. rewrite Hlogs. split_and!; [|done..].
      apply elem_of_app. right. by apply list_elem_of_singleton.
    - intros row'. rewrite Hlogs.
      intros [Hin| ->%list_elem_of_singleton]%elem_of_app _.
      + destruct (Hpast row' Hin) as (t' & Ht' & ?). exists t'. split; [done|lia].
      + by exists t. }
  exists row, t. split_and!; try done.
  intros b Hb Hq. rewrite getLastSyncTimestamp_value, Hq, Hb.
  f_equal. by apply latest_completion_value.
Qed.

Lemma clean_pass_sets_watermark_witness :
  let lv := Scenario.client [Scenario.shirt] [Scenario.variant "v1" None] in
  let w := set_clock 5 (Scenario.store [] None [Scenario.earlier_success] no_faults) in
  let w' := (sync_pass lv false Incremental w).2 in
  ∃ row t,
    w_sync_logs w' = (w_sync_logs w ++ [row])%list
    ∧ l_status row = success
    ∧ l_completed_at row = Some t
    ∧ (t < w_clock w')%nat
    ∧ latest_completion (w_sync_logs w') t
    ∧ ledger_in_past w'
    ∧ ∀ b, w_sync_logs b = w_sync_logs w' → query_served b = true →
           (getLastSyncTimestamp b).1 = inr (Some t).
Proof.
  intros lv w w'.
  eapply (clean_pass_sets_watermark lv false Incremental w).
  - vm_compute. reflexivity.
  - vm_compute. reflexivity.
  - vm_compute. reflexivity.
  - intros row ->%list_elem_of_singleton. exists 1%nat. split; [done|]. simpl. lia.
Defined.

(* ===================================================================== *)
(** * 23. The configuration and the HTTP entry point *)
(* ===================================================================== *)

Lemma or_else_empty o : Js.nonempty (Js.or_else o "") = Js.truthy o.
Proof. by destruct o as [[|a s]|]. Qed.

Lemma validateConfig_ok {S} env (s : S) :
  configured env = true → validateConfig (config env) s = (inr tt, s).
Proof.
  unfold configured, validateConfig, config_errors, push_if_missing, config.
  cbn [loyverse_apiToken supabase_url supabase_key].
  rewrite !or_else_empty. intros [[-> ->]%andb_true_iff ->]%andb_true_iff. done.
Qed.

Lemma validateConfig_throws {S} env (s : S) :
  configured env = false →
  validateConfig (config env) s
  = (inl (Js.ErrorObj ("Configuration errors:" +:+ newline
                       +:+ String.concat newline (config_errors (config env)))), s).
Proof.
  unfold configured, validateConfig, config_errors, push_if_missing, config.
  cbn [loyverse_apiToken supabase_url supabase_key].
  rewrite !or_else_empty.
  by destruct (Js.truthy (LOYVERSE_API_TOKEN env)), (Js.truthy (SUPABASE_URL env)),
    (Js.truthy (SUPABASE_KEY env)).
Qed.

Lemma push_if_missing_elem errors value msg m :
  m ∈ push_if_missing errors value msg
  ↔ m ∈ errors ∨ (Js.nonempty value = false ∧ m = msg).
Proof.
  unfold push_if_missing. destruct (Js.nonempty value).
  - split; [by left|]. by intros [?|[? _]].
  - rewrite elem_of_app, list_elem_of_singleton.
    split; [intros [?|?]; auto|intros [?|[_ ?]]; auto].
Qed.

(** X14. [validateConfig] treats an unset variable and an empty one alike.
    It returns normally exactly when the three variables are set to
    non-empty values; otherwise it throws one error that reports every
    missing variable, and no variable that is present, whatever the others
    are. It changes no state. *)
Theorem validateConfig_reports_missing {S} env (s : S) :
  (validateConfig (config env) s).2 = s
  ∧ ((validateConfig (config env) s).1 = inr tt ↔ configured env = true)
  ∧ (configured env = false →
     (validateConfig (config env) s).1
     = inl (Js.ErrorObj ("Configuration errors:" +:+ newline
                         +:+ String.concat newline (config_errors (config env)))))
  ∧ ("LOYVERSE_API_TOKEN is required" ∈ config_errors (config env)
     ↔ Js.truthy (LOYVERSE_API_TOKEN env) = false)
  ∧ ("SUPABASE_URL is required" ∈ config_errors (config env)
     ↔ Js.truthy (SUPABASE_URL env) = false)
  ∧ ("SUPABASE_KEY is required" ∈ config_errors (config env)
     ↔ Js.truthy (SUPABASE_KEY env) = false).
Proof.
  split_and!.
  - destruct (configured env) eqn:Hc.
    + by rewrite validateConfig_ok.
    + by rewrite validateConfig_throws.
  - destruct (configured env) eqn:Hc.
    + by rewrite validateConfig_ok.
    + by rewrite validateConfig_throws.
  - intros Hc. by rewrite validateConfig_throws.
  - unfold config_errors, config.
    cbn [loyverse_apiToken supabase_url supabase_key].
    rewrite !push_if_missing_elem, !or_else_empty, elem_of_nil.
    intuition discriminate.
  - unfold config_errors, config.
    cbn [loyverse_apiToken supabase_url supabase_key].
    rewrite !push_if_missing_elem, !or_else_empty, elem_of_nil.
    intuition discriminate.
  - unfold config_errors, config.
    cbn [loyverse_apiToken supabase_url supabase_key].
    rewrite !push_if_missing_elem, !or_else_empty, elem_of_nil.
    intuition discriminate.
Qed.

Lemma sync_pass_returns lv useCache kind w :
  ∃ r w', sync_pass lv useCache kind w = (inr r, w').
Proof.
  destruct (pass_ledger lv useCache kind w) as (r & _ & w' & _ & _ & Hrun & _).
  by exists r, w'.
Qed.

Lemma log_trigger_run engine params w :
  log_trigger engine params w
  = (if printable (requested_type params) && printable (requested_useCache params)
     then inr tt else inl (Js.ErrorObj (cannot_convert engine)),
     (new_Date w).2).
Proof.
  unfold log_trigger, bind, new_Date. simpl.
  by destruct (printable _ && printable _).
Qed.

(** X15. A request for a full or an incremental pass that gets as far as
    the pass (the configuration is complete, the request has parameters,
    its cache flag converts to a string for the log line, the service could
    be created) is always answered with status 200 and [success: true],
    carrying the result of the pass, whether or not that result reports
    errors. The flag handed to the service is the one read from the
    request. *)
Theorem sync_request_answers_200 engine env backend req p kind lv w :
  configured env = true →
  request_params req = Some p →
  requested_type p = JsString (kind_name kind) →
  printable (requested_useCache p) = true →
  new_InventorySyncService backend (cache_flag p) = inr lv →
  ∃ r w1,
    sync_pass lv (cache_flag p) kind (new_Date w).2 = (inr r, w1)
    ∧ handleSync engine env backend req w
      = (inr {| res_status := 200;
                res_json := {| j_success := Some true; j_error := None;
                               j_message := None;
                               j_type := Some (JsString (kind_name kind));
                               j_result := Some r;
                               j_timestamp := Some (w_clock w1) |} |},
         (new_Date w1).2).
Proof.
  intros Hcfg Hp Htype Hcache Hsvc.
  destruct (sync_pass_returns lv (cache_flag p) kind (new_Date w).2) as (r & w1 & Hrun).
  exists r, w1. split; [done|].
  unfold handleSync, try_catch.
  rewrite (bind_inr _ _ _ _ _ (validateConfig_ok env w Hcfg)).
  rewrite Hp. unfold bind at 1. unfold ret at 1.
  assert (log_trigger engine p w = (inr tt, (new_Date w).2)) as Hlog.
  { by rewrite log_trigger_run, Htype, Hcache. }
  rewrite (bind_inr _ _ _ _ _ Hlog).
  rewrite Htype, Hsvc. unfold bind at 1. unfold ret at 1.
  destruct kind; cbn [kind_name is_case String.eqb Ascii.eqb Bool.eqb sync_pass] in *.
  - by rewrite (bind_inr _ _ _ _ _ Hrun).
  - by rewrite (bind_inr _ _ _ _ _ Hrun).
Qed.

Lemma sync_request_answers_200_witness :
  let engine := {| cannot_destructure := "Cannot destructure";
                   cannot_convert := "Cannot convert object to primitive value" |} in
  let env := {| LOYVERSE_API_TOKEN := Some "token"; SUPABASE_URL := Some "url";
                SUPABASE_KEY := Some "key" |} in
  let lv := Scenario.client [Scenario.shirt] [Scenario.variant "v1" None] in
  let backend := {| new_InventorySyncService := λ _, inr lv; product_count := None |} in
  let p := {| prm_type := JsUndefined; prm_useCache := JsString "false" |} in
  let req := {| req_method := "GET"; req_body := None; req_query := p |} in
  let w := Scenario.store [] None [] (upsert_outcomes [Some Js.NonError]) in
  ∃ r w1,
    sync_pass lv (cache_flag p) Full (new_Date w).2 = (inr r, w1)
    ∧ handleSync engine env backend req w
      = (inr {| res_status := 200;
                res_json := {| j_success := Some true; j_error := None;
                               j_message := None;
                               j_type := Some (JsString (kind_name Full));
                               j_result := Some r;
                               j_timestamp := Some (w_clock w1) |} |},
         (new_Date w1).2).
Proof.
  intros engine env lv backend p req w.
  apply (sync_request_answers_200 engine env backend req p Full lv w); reflexivity.
Defined.

(** X16. [handleSync] always answers, with status 200, 400 or 500. It
    answers 500 exactly when the configuration is incomplete, the request
    has no parameters, its type or its cache flag cannot be converted to a
    string for the log line, or the service cannot be created, and this
    takes precedence over the type of the request; it answers 400 exactly
    when all of that went well and the type is none of full, incremental and
    stats. In both cases no request has left the process and the store is as
    it was; a 200 always carries [success: true]. *)
Theorem rejected_request_calls_nothing engine env backend req w :
  ∃ res w',
    handleSync engine env backend req w = (inr res, w')
    ∧ (res_status res = 200 ∨ res_status res = 400 ∨ res_status res = 500)%nat
    ∧ (res_status res ≠ 200%nat → only_time_passed w w')
    ∧ (res_status res = 500%nat
       ↔ configured env = false ∨ request_params req = None
         ∨ ∃ p, request_params req = Some p
                ∧ (printable (requested_type p) = false
                   ∨ printable (requested_useCache p) = false
                   ∨ ∃ e, new_InventorySyncService backend (cache_flag p) = inl e))
    ∧ (res_status res = 400%nat
       ↔ configured env = true
         ∧ ∃ p lv, request_params req = Some p
                   ∧ printable (requested_type p) = true
                   ∧ printable (requested_useCache p) = true
                   ∧ new_InventorySyncService backend (cache_flag p) = inr lv
                   ∧ known_type (requested_type p) = false)
    ∧ (res_status res = 200%nat → j_success (res_json res) = Some true).
Proof.
  unfold handleSync, try_catch.
  destruct (configured env) eqn:Hcfg.
  2:{ rewrite (bind_inl _ _ _ _ _ (validateConfig_throws env w Hcfg)).
      eexists _, _. split; [reflexivity|]. cbn [res_status res_json j_success].
      split_and!; [by right; right|done| | |done].
      - split; [auto|done].
      - split; [done|]. by intros [? _]. }
  rewrite (bind_inr _ _ _ _ _ (validateConfig_ok env w Hcfg)).
  destruct (request_params req) as [p|] eqn:Hp.
  2:{ unfold bind at 1. unfold throw at 1.
      eexists _, _. split; [reflexivity|]. cbn [res_status res_json j_success].
      split_and!; [by right; right|done| | |done].
      - split; [auto|done].
      - split; [done|]. by intros (_ & ? & ? & ? & _). }
  unfold bind at 1. unfold ret at 1.
  rewrite (bind_ret_pair _ _ _ _ (log_trigger_run engine p w)).
  destruct (printable (requested_type p)) eqn:Htype; cbn [andb].
  2:{ eexists _, _. split; [reflexivity|]. cbn [res_status res_json j_success].
      split_and!; [by right; right|done| | |done].
      - split; [|done]. intros _. right. right. exists p. split; [done|]. by left.
      - split; [done|]. intros (_ & p0 & lv0 & [= <-] & Hprint & _).
        by rewrite Htype in Hprint. }
  destruct (printable (requested_useCache p)) eqn:Hcache.
  2:{ eexists _, _. split; [reflexivity|]. cbn [res_status res_json j_success].
      split_and!; [by right; right|done| | |done].
      - split; [|done]. intros _. right. right. exists p. split; [done|].
        right. by left.
      - split; [done|]. intros (_ & p0 & lv0 & [= <-] & _ & Hprint & _).
        by rewrite Hcache in Hprint. }
  destruct (new_InventorySyncService backend (cache_flag p)) as [e|lv] eqn:Hsvc.
  { unfold bind at 1. unfold throw at 1.
    eexists _, _. split; [reflexivity|]. cbn [res_status res_json j_success].
    split_and!; [by right; right|done| | |done].
    - split; [|done]. intros _. right. right. exists p. split; [done|].
      right. right. by exists e.
    - split; [done|]. intros (_ & p0 & lv0 & [= <-] & _ & _ & Hlv & _).
      by rewrite Hsvc in Hlv. }
  unfold bind at 1. unfold ret at 1.
  assert (Hnot500 : ¬ (true = false ∨ Some p = None
                       ∨ ∃ p0, Some p = Some p0
                           ∧ (printable (requested_type p0) = false
                              ∨ printable (requested_useCache p0) = false
                              ∨ ∃ e, new_InventorySyncService backend (cache_flag p0)
                                     = inl e))).
  { intros [?|[?|(p0 & [= <-] & [He|[He|[e He]]])]]; [done|done|..].
    - by rewrite Htype in He.
    - by rewrite Hcache in He.
    - by rewrite Hsvc in He. }
  assert (Hnot400 : known_type (requested_type p) = true →
                    ¬ (true = true
                       ∧ ∃ p0 lv0, Some p = Some p0
                           ∧ printable (requested_type p0) = true
                           ∧ printable (requested_useCache p0) = true
                           ∧ new_InventorySyncService backend (cache_flag p0) = inr lv0
                           ∧ known_type (requested_type p0) = false)).
  { intros Hk (_ & p0 & lv0 & [= <-] & _ & _ & _ & Hk'). by rewrite Hk in Hk'. }
  unfold known_type in Hnot400 at 1.
  destruct (is_case (requested_type p) "full") eqn:Hfull.
  { destruct (sync_pass_returns lv (cache_flag p) Full (new_Date w).2) as (r & w1 & Hrun).
    cbn [sync_pass] in Hrun. rewrite (bind_inr _ _ _ _ _ Hrun).
    eexists _, _. split; [reflexivity|]. cbn [res_status res_json j_success].
    split_and!; [by left|done|by split|split; [done|]|done].
    intros H400. by destruct Hnot400. }
  destruct (is_case (requested_type p) "incremental") eqn:Hincr.
  { destruct (sync_pass_returns lv (cache_flag p) Incremental (new_Date w).2)
      as (r & w1 & Hrun).
    cbn [sync_pass] in Hrun. rewrite (bind_inr _ _ _ _ _ Hrun).
    eexists _, _. split; [reflexivity|]. cbn [res_status res_json j_success].
    split_and!; [by left|done|by split|split; [done|]|done].
    intros H400. by destruct Hnot400. }
  destruct (is_case (requested_type p) "stats") eqn:Hstats.
  { eexists _, _. split; [reflexivity|]. cbn [res_status res_json j_success].
    split_and!; [by left|done|by split|split; [done|]|done].
    intros H400. by destruct Hnot400. }
  eexists _, _. split; [reflexivity|]. cbn [res_status res_json j_success].
  split_and!; [right; by left|done|by split| |done].
  split; [|done]. intros _. split; [done|]. exists p, lv. split_and!; [done..|].
  unfold known_type. by rewrite Hfull, Hincr, Hstats.
Qed.

(* ===================================================================== *)
(** * 24. The file cache *)
(* ===================================================================== *)

Lemma string_length_app (s t : string) :
  String.length (s +:+ t) = (String.length s + String.length t)%nat.
Proof. induction s as [|a s IH]; simpl; [done|]. by rewrite IH. Qed.

Lemma string_app_inj_r (t : string) : ∀ s1 s2, s1 +:+ t = s2 +:+ t → s1 = s2.
Proof.
  induction s1 as [|a s1 IH]; intros [|b s2] H; simpl in H.
  - done.
  - apply (f_equal String.length) in H.
    rewrite !string_length_app in H. simpl in H. lia.
  - apply (f_equal String.length) in H.
    rewrite !string_length_app in H. simpl in H. lia.
  - injection H as -> H. f_equal. by apply IH.
Qed.

Lemma endsWith_app suffix : ∀ s, endsWith suffix (s +:+ suffix) = true.
Proof.
  induction s as [|a s IH].
  - destruct suffix; simpl; [done|]. by rewrite Ascii.eqb_refl, String.eqb_refl.
  - change (endsWith suffix (String a s +:+ suffix))
      with (String.eqb (String a (s +:+ suffix)) suffix || endsWith suffix (s +:+ suffix)).
    rewrite IH. apply orb_true_r.
Qed.

Lemma plain_app s t : plain s = true → plain t = true → plain (s +:+ t) = true.
Proof.
  intros Hs Ht. induction s as [|a s IH]; [done|].
  change (plain (String a s +:+ t))
    with (negb (String.eqb (String a EmptyString) "/") && plain (s +:+ t)).
  cbn [plain] in Hs. apply andb_true_iff in Hs as [-> Hs]. by rewrite IH.
Qed.

(** The cache file of a key without separator is an entry of the cache
    directory. *)
Lemma entry_name_json key : plain key = true → entry_name (key +:+ ".json") = true.
Proof.
  intros Hkey. unfold entry_name. rewrite plain_app by done.
  assert (Hlong : ∀ s, (String.length s < 5)%nat →
                       String.eqb (key +:+ ".json") s = false).
  { intros s Hs. apply String.eqb_neq. intros Heq.
    apply (f_equal String.length) in Heq. rewrite string_length_app in Heq.
    simpl in Heq. lia. }
  rewrite !Hlong by (simpl; lia). done.
Qed.

Lemma fresh_age d node m :
  node_mtimeMs node = d_now d → (0 <= m)%Q →
  Qle_bool (ageMinutes d node) m = true.
Proof.
  intros Hnode Hm. apply Qle_bool_iff. unfold ageMinutes. rewrite Hnode.
  assert ((d_now d - d_now d) / 1000 / 60 == 0)%Q as Hzero by (unfold Qdiv; ring).
  by rewrite Hzero.
Qed.

(** What is found at a location depends on the entries and on the state of
    the cache directory only. *)
Lemma node_at_same d d' place :
  d_nodes d' = d_nodes d → d_cacheDir d' = d_cacheDir d →
  node_at d' place = node_at d place.
Proof. unfold node_at, reachable. by intros -> ->. Qed.

Lemma next_answer_accepted d :
  match d_outcomes d with Some _ :: _ => false | _ => true end = true →
  ∃ d', next_answer d = (inr None, d')
        ∧ d_nodes d' = d_nodes d ∧ d_now d' = d_now d
        ∧ d_cacheDir d' = d_cacheDir d ∧ d_cannot d' = d_cannot d.
Proof.
  unfold next_answer. destruct (d_outcomes d) as [|[e|] rest]; [|done|];
    intros _; eexists; by split_and!.
Qed.

Lemma writeFileSync_accepted filePath text d :
  write_accepted filePath d = true →
  ∃ d', writeFileSync filePath text d = (inr tt, d')
        ∧ d_now d' = d_now d
        ∧ node_at d' filePath = Some (File (Some text) (d_now d))
        ∧ ∀ place, place ≠ filePath → node_at d' place = node_at d place.
Proof.
  unfold write_accepted, writeFileSync. unfold bind at 1. unfold gets at 1.
  intros [Hwritable Hanswer]%andb_true_iff. rewrite Hwritable.
  destruct (next_answer_accepted d Hanswer) as (d1 & Hrun & Hnodes & Hnow & Hdir & _).
  rewrite (bind_inr _ _ _ _ _ Hrun). unfold modify. eexists.
  split; [reflexivity|]. split; [done|].
  apply andb_true_iff in Hwritable as [Hreach _].
  unfold node_at, reachable in *. simpl. rewrite Hdir, Hnodes, Hnow. split.
  - by rewrite Hreach, lookup_insert_eq.
  - intros place Hne. by rewrite lookup_insert_ne.
Qed.


Lemma unlinkSync_cases place d :
  match node_at d place with
  | Some (File text mtime) =>
      match d_outcomes d with
      | Some e :: rest =>
          (unlinkSync place d).1 = inl e
          ∧ d_nodes (unlinkSync place d).2 = d_nodes d
          ∧ d_cacheDir (unlinkSync place d).2 = d_cacheDir d
      | _ =>
          (unlinkSync place d).1 = inr tt
          ∧ d_nodes (unlinkSync place d).2 = delete place (d_nodes d)
          ∧ d_cacheDir (unlinkSync place d).2 = d_cacheDir d
          ∧ d_outcomes (unlinkSync place d).2 = tail (d_outcomes d)
      end
  | _ => unlinkSync place d = (inl (d_cannot d), d)
  end.
Proof.
  unfold unlinkSync, bind, gets, cannot, next_answer, modify, throw. simpl.
  destruct (node_at d place) as [[text mtime|mtime]|]; try done.
  destruct (d_outcomes d) as [|[e|] rest] eqn:Hout; simpl; by split_and!.
Qed.

Lemma NoDup_omap {A B} (f : A → option B) (l : list A) :
  (∀ x y b, x ∈ l → y ∈ l → f x = Some b → f y = Some b → x = y) →
  NoDup l → NoDup (omap f l).
Proof.
  intros Hinj Hl. induction Hl as [|x l Hx Hl IH]; [constructor|].
  cbn [omap list_omap]. destruct (f x) as [b|] eqn:Hfx.
  - constructor.
    + intros (y & Hy & Hfy)%list_elem_of_omap.
      assert (x = y) as <-; [|done].
      apply (Hinj x y b); [apply elem_of_cons; by left|apply elem_of_cons; by right|done..].
    + apply IH. intros y z c Hy Hz. apply Hinj; apply elem_of_cons; by right.
  - apply IH. intros y z c Hy Hz. apply Hinj; apply elem_of_cons; by right.
Qed.

Lemma readdirSync_names d :
  d_cacheDir d = ADirectory →
  ∃ names, readdirSync d = (inr names, d)
           ∧ NoDup names
           ∧ ∀ name, name ∈ names ↔ is_Some (node_at d (InCache name)).
Proof.
  intros Hdir. unfold readdirSync, bind, gets. simpl. rewrite Hdir.
  eexists. split; [reflexivity|]. split.
  - apply NoDup_omap; [|apply NoDup_map_to_list].
    intros [place node] [place' node'] name Hin Hin'. simpl.
    destruct place as [n|]; [|done]. destruct place' as [n'|]; [|done].
    intros [= ->] [= ->].
    apply elem_of_map_to_list in Hin, Hin'. rewrite Hin in Hin'. by injection Hin' as ->.
  - intros name. unfold node_at, reachable, InCache. rewrite Hdir.
    rewrite list_elem_of_omap. split.
    + intros ([place node] & Hin & Hname). simpl in Hname.
      destruct place as [n|]; [|done]. injection Hname as ->.
      apply elem_of_map_to_list in Hin. by exists node.
    + intros [node Hnode]. exists (inl name, node). split; [|done].
      by apply elem_of_map_to_list.
Qed.

Lemma entry_join_joins cacheDir : joins_entries cacheDir entry_join.
Proof. intros name Hname. unfold entry_join. by rewrite Hname. Qed.

Lemma cache_of_entry entries now name node :
  node_at (cache_of entries now) (InCache name) = Some node → (name, node) ∈ entries.
Proof.
  unfold node_at. simpl. intros Hnode%elem_of_list_to_map_2.
  apply list_elem_of_fmap in Hnode as ([n nd] & Heq & Hin).
  simpl in Heq. by injection Heq as -> ->.
Qed.

Section CacheLaws.

Context {T : Type}.
Variable stringify : T → Js.exn + string.
Variable parse : string → option T.
Variable cacheDir : string.
Variable path_join : string → string → Location.

Lemma set_returns key data d :
  (CacheService.set T stringify cacheDir path_join key data d).1 = inr tt.
Proof.
  unfold CacheService.set, try_catch.
  destruct (stringify data) as [e|text]; [done|].
  by destruct (writeFileSync _ _ d) as [[e|[]] d'].
Qed.


Lemma key_entries key key' :
  joins_entries cacheDir path_join →
  plain key = true → plain key' = true → key' ≠ key →
  CacheService.getCacheFilePath cacheDir path_join key'
  ≠ CacheService.getCacheFilePath cacheDir path_join key.
Proof.
  intros Hjoin Hkey Hkey' Hne. unfold CacheService.getCacheFilePath.
  rewrite !Hjoin by by apply entry_name_json.
  intros [= Heq]. by apply string_app_inj_r in Heq.
Qed.

(** X17. When the data has a JSON text and the file system carries out the
    write, what [set] stores under a key is what [get] returns for it,
    provided the data survives the JSON round trip: [has] holds for the key
    at every later time when no age limit is given, and under every
    non-negative limit as long as no time has passed. Nothing changes at any
    other place of the file system; in particular, for keys without path
    separator, the entries of the other keys are as they were. *)
Theorem set_then_get key data text d :
  write_accepted (CacheService.getCacheFilePath cacheDir path_join key) d = true →
  stringify data = inr text →
  parse text = Some data →
  ∃ d',
    CacheService.set T stringify cacheDir path_join key data d = (inr tt, d')
    ∧ (∀ t, CacheService.get T parse cacheDir path_join key (at_time t d')
            = (inr (Some data), at_time t d')
            ∧ CacheService.has cacheDir path_join key None (at_time t d')
              = (inr true, at_time t d'))
    ∧ (∀ m, (0 <= m)%Q →
            CacheService.has cacheDir path_join key (Some m) d' = (inr true, d'))
    ∧ (∀ place, place ≠ CacheService.getCacheFilePath cacheDir path_join key →
                node_at d' place = node_at d place)
    ∧ (joins_entries cacheDir path_join →
       ∀ key', plain key = true → plain key' = true → key' ≠ key →
               node_at d' (CacheService.getCacheFilePath cacheDir path_join key')
               = node_at d (CacheService.getCacheFilePath cacheDir path_join key')).
Proof.
  intros Hw Htext Hparse.
  destruct (writeFileSync_accepted _ text d Hw) as (d' & Hrun & Hnow & Hfile & Hother).
  exists d'. unfold CacheService.set, try_catch. rewrite Htext, Hrun.
  split; [done|]. split_and!.
  - intros t. unfold CacheService.get, CacheService.has, bind, gets, ret. simpl.
    rewrite (node_at_same d' (at_time t d')), Hfile by done. simpl. by rewrite Hparse.
  - intros m Hm. unfold CacheService.has, bind, gets, ret. simpl.
    rewrite Hfile. destruct (negb (Qeq_bool m 0)); [|done].
    simpl. rewrite fresh_age; [done|by rewrite Hnow|done].
  - exact Hother.
  - intros Hjoin key' Hkey Hkey' Hne. apply Hother. by apply key_entries.
Qed.


Lemma unlink_json_removed names : ∀ d,
  joins_entries cacheDir path_join →
  Forall (λ name, entry_name name = true) names →
  (CacheService.unlink_json cacheDir path_join names d).1 = inr tt →
  d_cacheDir (CacheService.unlink_json cacheDir path_join names d).2 = d_cacheDir d
  ∧ ∀ place,
      d_nodes (CacheService.unlink_json cacheDir path_join names d).2 !! place
      = if match place with
           | inl name => endsWith ".json" name && bool_decide (name ∈ names)
           | inr _ => false
           end
        then None else d_nodes d !! place.
Proof.
  intros d Hjoin Hnames. revert d.
  induction Hnames as [|n names Hn Hnames IH]; intros d Hrun.
  - split; [done|]. intros place.
    cbn [CacheService.unlink_json ret snd]. destruct place as [name|]; [|done].
    rewrite (bool_decide_eq_false_2 (name ∈ [])); [|by intros ?%elem_of_nil].
    by rewrite andb_false_r.
  - cbn [CacheService.unlink_json] in *.
    assert (Hother : ∀ name, name ≠ n →
              bool_decide (name ∈ n :: names) = bool_decide (name ∈ names)).
    { intros name Hne. apply bool_decide_ext. rewrite elem_of_cons.
      split; [by intros [?|?]|by right]. }
    destruct (endsWith ".json" n) eqn:Hjson.
    + rewrite (Hjoin n Hn) in *.
      pose proof (unlinkSync_cases (InCache n) d) as Hcases.
      destruct (unlinkSync (InCache n) d) as [[e|[]] d1] eqn:Hunlink.
      { by rewrite (bind_inl _ _ _ _ _ Hunlink) in Hrun. }
      rewrite (bind_inr _ _ _ _ _ Hunlink) in Hrun |- *.
      assert (d_nodes d1 = delete (InCache n) (d_nodes d)
              ∧ d_cacheDir d1 = d_cacheDir d) as [Hd1 Hdir1].
      { destruct (node_at d (InCache n)) as [[text mtime|mtime]|]; try done.
        destruct (d_outcomes d) as [|[e|] rest]; simpl in Hcases;
          [destruct Hcases as (_ & Hnodes & Hdir & _)
          |by destruct Hcases as (Hresult & _)
          |destruct Hcases as (_ & Hnodes & Hdir & _)]; done. }
      destruct (IH d1 Hrun) as [Hdir Hgone]. split; [by rewrite Hdir|].
      intros place. rewrite (Hgone place), Hd1.
      destruct place as [name|canonical]; [|by rewrite lookup_delete_ne].
      destruct (decide (name = n)) as [->|Hne].
      * rewrite Hjson, lookup_delete_eq. simpl.
        rewrite (bool_decide_eq_true_2 (n ∈ n :: names)); [|apply elem_of_cons; by left].
        by destruct (bool_decide _).
      * rewrite (Hother name Hne), lookup_delete_ne; [done|]. by intros [= ->].
    + unfold bind at 1 in Hrun. unfold bind at 1 2. unfold ret at 1 in Hrun.
      unfold ret at 1 2. destruct (IH d Hrun) as [Hdir Hgone]. split; [done|].
      intros place. rewrite (Hgone place).
      destruct place as [name|canonical]; [|done].
      destruct (decide (name = n)) as [->|Hne]; [by rewrite Hjson|].
      by rewrite (Hother name Hne).
Qed.

Lemma unlink_json_runs names : ∀ d,
  joins_entries cacheDir path_join →
  NoDup names →
  Forall (λ name, entry_name name = true) names →
  d_outcomes d = [] →
  (∀ name, name ∈ names → endsWith ".json" name = true →
           ∃ text mtime, node_at d (InCache name) = Some (File text mtime)) →
  (CacheService.unlink_json cacheDir path_join names d).1 = inr tt.
Proof.
  intros d Hjoin Hnodup. revert d.
  induction Hnodup as [|n names Hn Hnodup IH]; intros d Hnames Hout Hfiles; [done|].
  apply Forall_cons in Hnames as [Hname Hnames].
  cbn [CacheService.unlink_json].
  destruct (endsWith ".json" n) eqn:Hjson.
  - rewrite (Hjoin n Hname).
    destruct (Hfiles n) as (text & mtime & Hnode); [apply elem_of_cons; by left|done|].
    pose proof (unlinkSync_cases (InCache n) d) as Hcases.
    rewrite Hnode, Hout in Hcases. destruct Hcases as (Hrun & Hd1 & Hdir1 & Hout1).
    destruct (unlinkSync (InCache n) d) as [[e|[]] d1] eqn:Hunlink; [done|].
    rewrite (bind_inr _ _ _ _ _ Hunlink). simpl in Hd1, Hdir1, Hout1.
    apply IH; [done|done|].
    intros name Hin Hj.
    destruct (Hfiles name) as (text' & mtime' & Hnode');
      [apply elem_of_cons; by right|done|].
    exists text', mtime'. rewrite <- Hnode'. unfold node_at, reachable.
    rewrite Hdir1, Hd1, lookup_delete_ne; [done|]. intros [= ->]. done.
  - unfold bind at 1. unfold ret at 1. apply IH; [done|done|].
    intros name Hin Hj. apply Hfiles; [apply elem_of_cons; by right|done].
Qed.

(** X19. [clearAll] does nothing when there is nothing at the path of the
    cache directory, and throws when what is there is not a directory. On a
    cache directory, when it returns, it has removed every entry whose name
    ends in [.json] and nothing else, in the directory or elsewhere;
    afterwards, for every key without path separator, [has] is false under
    any age limit and [get] returns null. It returns when the file system
    carries out every removal and no such entry is a directory. *)
Theorem clearAll_clears d :
  joins_entries cacheDir path_join →
  named_entries d →
  match d_cacheDir d with
  | NoEntry => CacheService.clearAll cacheDir path_join d = (inr tt, d)
  | NotADirectory => CacheService.clearAll cacheDir path_join d = (inl (d_cannot d), d)
  | ADirectory =>
      ((CacheService.clearAll cacheDir path_join d).1 = inr tt →
       let d' := (CacheService.clearAll cacheDir path_join d).2 in
       (∀ name, node_at d' (InCache name)
                = if endsWith ".json" name then None else node_at d (InCache name))
       ∧ (∀ canonical,
            node_at d' (Elsewhere canonical) = node_at d (Elsewhere canonical))
       ∧ ∀ key, plain key = true →
                (∀ maxAge,
                   (CacheService.has cacheDir path_join key maxAge d').1 = inr false)
                ∧ (CacheService.get T parse cacheDir path_join key d').1 = inr None)
      ∧ (d_outcomes d = [] → json_files d →
         (CacheService.clearAll cacheDir path_join d).1 = inr tt)
  end.
Proof.
  intros Hjoin Hnamed.
  destruct (d_cacheDir d) eqn:Hdir.
  - unfold CacheService.clearAll, bind, gets. simpl. by rewrite Hdir.
  - destruct (readdirSync_names d Hdir) as (names & Hread & Hnodup & Hnames).
    assert (Hentries : Forall (λ name, entry_name name = true) names).
    { apply Forall_forall. intros name Hin. by apply Hnamed, Hnames. }
    assert (Hrun : CacheService.clearAll cacheDir path_join d
                   = CacheService.unlink_json cacheDir path_join names d).
    { unfold CacheService.clearAll. unfold bind at 1. unfold gets at 1.
      rewrite Hdir. by rewrite (bind_inr _ _ _ _ _ Hread). }
    rewrite Hrun. split.
    + intros Hdone d'. subst d'.
      destruct (unlink_json_removed names d Hjoin Hentries Hdone) as [Hdir' Hgone].
      assert (Hin : ∀ name,
                node_at (CacheService.unlink_json cacheDir path_join names d).2
                  (InCache name)
                = if endsWith ".json" name then None else node_at d (InCache name)).
      { intros name. unfold node_at, reachable, InCache. rewrite Hdir', Hdir.
        etrans; [exact (Hgone (inl name))|].
        destruct (endsWith ".json" name); [|done]. simpl.
        destruct (d_nodes d !! inl name) as [node|] eqn:Hnode.
        - rewrite bool_decide_eq_true_2; [done|]. apply Hnames.
          unfold node_at, reachable, InCache. rewrite Hdir. by exists node.
        - by destruct (bool_decide _). }
      split_and!; [done| |].
      * intros canonical. unfold node_at, reachable, Elsewhere.
        exact (Hgone (inr canonical)).
      * intros key Hkey.
        assert (node_at (CacheService.unlink_json cacheDir path_join names d).2
                  (CacheService.getCacheFilePath cacheDir path_join key) = None)
          as Hnone.
        { unfold CacheService.getCacheFilePath.
          rewrite (Hjoin _ (entry_name_json key Hkey)), Hin. by rewrite endsWith_app. }
        unfold CacheService.has, CacheService.get, bind, gets, ret. simpl.
        by rewrite Hnone.
    + intros Hout Hfiles. apply unlink_json_runs; try done.
      intros name Hin Hjson. apply Hnames in Hin as [[text mtime|mtime] Hnode].
      * by exists text, mtime.
      * specialize (Hfiles name mtime Hnode). by rewrite Hjson in Hfiles.
  - unfold CacheService.clearAll, readdirSync, bind, gets, cannot. simpl.
    rewrite Hdir. simpl. by rewrite Hdir.
Qed.


End CacheLaws.

Lemma set_then_get_witness :
  let d := cache_of [] 0 in
  ∃ d',
    CacheService.set string inr ".cache" entry_join "loyverse_items" "[]" d = (inr tt, d')
    ∧ (∀ t, CacheService.get string Some ".cache" entry_join "loyverse_items" (at_time t d')
            = (inr (Some "[]"), at_time t d')
            ∧ CacheService.has ".cache" entry_join "loyverse_items" None (at_time t d')
              = (inr true, at_time t d'))
    ∧ (∀ m, (0 <= m)%Q →
            CacheService.has ".cache" entry_join "loyverse_items" (Some m) d'
            = (inr true, d'))
    ∧ (∀ place,
         place ≠ CacheService.getCacheFilePath ".cache" entry_join "loyverse_items" →
         node_at d' place = node_at d place)
    ∧ (joins_entries ".cache" entry_join →
       ∀ key', plain "loyverse_items" = true → plain key' = true →
               key' ≠ "loyverse_items" →
               node_at d' (CacheService.getCacheFilePath ".cache" entry_join key')
               = node_at d (CacheService.getCacheFilePath ".cache" entry_join key')).
Proof.
  intros d.
  apply (set_then_get inr Some ".cache" entry_join "loyverse_items" "[]" "[]" d);
    vm_compute; reflexivity.
Defined.


Lemma clearAll_clears_witness :
  let d := cache_of [("k.json", File (Some "[]") 0); ("notes.txt", File (Some "x") 0)] 1 in
  let d' := (CacheService.clearAll ".cache" entry_join d).2 in
  (CacheService.clearAll ".cache" entry_join d).1 = inr tt
  ∧ node_at d' (InCache "k.json") = None
  ∧ node_at d' (InCache "notes.txt") = Some (File (Some "x") 0)
  ∧ (CacheService.has ".cache" entry_join "k" None d').1 = inr false
  ∧ (CacheService.get string Some ".cache" entry_join "k" d').1 = inr None.
Proof.
  intros d d'.
  assert (Hentries : ∀ name node,
            node_at d (InCache name) = Some node →
            (name = "k.json" ∨ name = "notes.txt") ∧ ∃ text, node = File (Some text) 0).
  { intros name node Hin%cache_of_entry.
    apply elem_of_cons in Hin as [[= -> ->]|Hin]; [by eauto|].
    apply list_elem_of_singleton in Hin as [= -> ->]. by eauto. }
  assert (Hnamed : named_entries d).
  { intros name [node Hnode]. by destruct (Hentries name node Hnode) as [[-> | ->] _]. }
  destruct (clearAll_clears Some ".cache" entry_join d (entry_join_joins ".cache") Hnamed)
    as [Hcleared Hruns].
  assert (Hrun : (CacheService.clearAll ".cache" entry_join d).1 = inr tt).
  { apply Hruns; [reflexivity|]. intros name mtime Hnode.
    by destruct (Hentries name _ Hnode) as [_ [text ?]]. }
  destruct (Hcleared Hrun) as (Hin & _ & Hkeys). fold d' in Hin, Hkeys.
  split; [exact Hrun|]. split; [by rewrite Hin|].
  split; [rewrite Hin; vm_compute; reflexivity|].
  destruct (Hkeys "k" eq_refl) as [Hhas Hget]. by split.
Defined.


(* ===================================================================== *)
(** * 25. The Loyverse client *)
(* ===================================================================== *)

Section Fetch.

Context {X : Type}.
Variable path : string.
Variable respond : Loyverse.Request → Js.exn + Loyverse.Page X.
Variable stringify : list X → Js.exn + string.
Variable parse : string → option (list X).
Variable cacheDir : string.
Variable path_join : string → string → Location.

Lemma fetch_loop_serves date : ∀ pages turns cursor items c,
  Loyverse.serves X path respond date cursor pages →
  (length pages ≤ turns)%nat →
  Loyverse.fetch_loop X path respond turns date cursor items c
  = (inr (Some (items ++ Loyverse.records X pages)%list),
     {| Loyverse.cl_disk := Loyverse.cl_disk c;
        Loyverse.cl_requests :=
          (Loyverse.cl_requests c ++ Loyverse.requests_for X path date cursor pages)%list |}).
Proof.
  induction pages as [|page rest IH]; intros turns cursor items c Hserves Hturns;
    [done|].
  destruct turns as [|turns]; [simpl in Hturns; lia|].
  destruct Hserves as [Hpage Hrest].
  cbn [Loyverse.fetch_loop]. unfold bind at 1. unfold Loyverse.http_get at 1.
  fold (Loyverse.request_of path date cursor). rewrite Hpage.
  unfold Loyverse.records. cbn [map concat Loyverse.requests_for].
  destruct rest as [|page' rest].
  - rewrite Hrest. unfold ret. simpl. rewrite app_nil_r.
    destruct (Loyverse.pg_data page); simpl; by rewrite ?app_nil_r.
  - destruct Hrest as [-> Hrest]. rewrite IH; [|done|simpl in *; lia].
    cbn [Loyverse.cl_disk Loyverse.cl_requests].
    rewrite <- (app_assoc (Loyverse.cl_requests c)). simpl.
    unfold Loyverse.records. do 3 f_equal.
    destruct (Loyverse.pg_data page); simpl; by rewrite <- ?app_assoc, ?app_nil_r.
Qed.

Lemma fetch_loop_failure date : ∀ turns cursor items c,
  let run := Loyverse.fetch_loop X path respond turns date cursor items c in
  Loyverse.cl_disk run.2 = Loyverse.cl_disk c
  ∧ ∀ e, run.1 = inl e →
         ∃ sent request,
           Loyverse.cl_requests run.2
           = (Loyverse.cl_requests c ++ sent ++ [request])%list
           ∧ respond request = inl e.
Proof.
  induction turns as [|turns IH]; intros cursor items c; [by split|].
  cbn [Loyverse.fetch_loop]. unfold bind at 1 2 3. unfold Loyverse.http_get at 1 2 3.
  set (request := {| Loyverse.rq_path := path; Loyverse.rq_limit := 250;
                     Loyverse.rq_cursor := Js.or_null cursor;
                     Loyverse.rq_updated_at_min := date |}).
  destruct (respond request) as [e|page] eqn:Hanswer.
  - split; [done|]. intros e' [= <-]. by exists [], request.
  - destruct (Js.truthy (Loyverse.pg_cursor page)); [|by split].
    match goal with
    | |- context [Loyverse.fetch_loop X path respond turns date ?k ?i ?c'] =>
        destruct (IH k i c') as [Hdisk Hfail]
    end.
    split; [by rewrite Hdisk|].
    intros e He. destruct (Hfail e He) as (sent & r & -> & Hr).
    exists (request :: sent), r. split; [|done]. simpl.
    by rewrite <- app_assoc.
Qed.

Lemma cache_lookup cacheKey (useCache : bool) c :
  (if useCache then
     let* hit := Loyverse.on_disk (CacheService.has cacheDir path_join cacheKey None) in
     if hit
     then Loyverse.on_disk (CacheService.get (list X) parse cacheDir path_join cacheKey)
     else ret None
   else ret None) c
  = (inr (if useCache
          then match node_at (Loyverse.cl_disk c)
                       (CacheService.getCacheFilePath cacheDir path_join cacheKey) with
               | Some (File (Some text) _) => parse text
               | _ => None
               end
          else None), c).
Proof.
  destruct useCache; [|done]. destruct c as [d rs].
  unfold Loyverse.on_disk, CacheService.has, CacheService.get, bind, gets, ret.
  cbn [Loyverse.cl_disk Loyverse.cl_requests].
  destruct (node_at d (CacheService.getCacheFilePath cacheDir path_join cacheKey))
    as [[[text|] mtime|mtime]|] eqn:Hfile; [| | |done];
    cbn [number_truthy Loyverse.cl_disk Loyverse.cl_requests]; by rewrite Hfile.
Qed.

(** A full fetch that finds nothing usable in the cache. *)
Lemma getAll_served cacheKey useCache turns pages c :
  (length pages ≤ turns)%nat →
  Loyverse.serves X path respond None None pages →
  useCache = false
  ∨ (CacheService.get (list X) parse cacheDir path_join cacheKey
       (Loyverse.cl_disk c)).1 = inr None →
  Loyverse.getAll X path respond stringify parse cacheDir path_join cacheKey
    useCache turns c
  = (inr (Some (Loyverse.records X pages)),
     {| Loyverse.cl_disk :=
          (CacheService.set (list X) stringify cacheDir path_join cacheKey
             (Loyverse.records X pages) (Loyverse.cl_disk c)).2;
        Loyverse.cl_requests :=
          (Loyverse.cl_requests c
           ++ Loyverse.requests_for X path None None pages)%list |}).
Proof.
  intros Hturns Hserves Hmiss.
  unfold Loyverse.getAll. rewrite (bind_inr _ _ _ _ _ (cache_lookup cacheKey useCache c)).
  assert ((if useCache
           then match node_at (Loyverse.cl_disk c)
                        (CacheService.getCacheFilePath cacheDir path_join cacheKey) with
                | Some (File (Some text) _) => parse text
                | _ => None
                end
           else None) = None) as ->.
  { destruct useCache; [|done]. destruct Hmiss as [?|Hmiss]; [done|].
    revert Hmiss. unfold CacheService.get, bind, gets, ret. simpl.
    destruct (node_at (Loyverse.cl_disk c)
                (CacheService.getCacheFilePath cacheDir path_join cacheKey))
      as [[[text|] mtime|mtime]|]; [|done..].
    by intros [= ->]. }
  rewrite (bind_inr _ _ _ _ _
             (fetch_loop_serves None pages turns None [] c Hserves Hturns)).
  simpl. unfold bind, Loyverse.on_disk. simpl.
  pose proof (set_returns stringify cacheDir path_join cacheKey
                (Loyverse.records X pages) (Loyverse.cl_disk c)) as Hset.
  destruct (CacheService.set _ _ _ _ _) as [r d']. simpl in Hset. by subst r.
Qed.

(** A full fetch, with the cache in use, whose cache file can be read. *)
Lemma getAll_cached cacheKey turns c text mtimeMs cached :
  node_at (Loyverse.cl_disk c) (CacheService.getCacheFilePath cacheDir path_join cacheKey)
  = Some (File (Some text) mtimeMs) →
  parse text = Some cached →
  Loyverse.getAll X path respond stringify parse cacheDir path_join cacheKey
    true turns c
  = (inr (Some cached), c).
Proof.
  intros Hfile Hparse.
  unfold Loyverse.getAll. rewrite (bind_inr _ _ _ _ _ (cache_lookup cacheKey true c)).
  by rewrite Hfile, Hparse.
Qed.

(** X21. When the server serves the pages of an endpoint, each in answer to
    the cursor of the page before, up to a first page without cursor, a
    fetch that finds nothing usable in the cache returns the records of all
    these pages, in order, having sent one request per page, each with a
    limit of 250 and the cursor of the page before (none for the first). A
    full fetch then hands the records to [set] of the cache, which stores
    them when the file system carries out the write; an incremental fetch
    sends the date with every request and does not touch the cache. *)
Theorem fetch_follows_cursors cacheKey useCache turns pages c :
  (length pages ≤ turns)%nat →
  (Loyverse.serves X path respond None None pages →
   useCache = false
   ∨ (CacheService.get (list X) parse cacheDir path_join cacheKey
        (Loyverse.cl_disk c)).1 = inr None →
   Loyverse.getAll X path respond stringify parse cacheDir path_join cacheKey
     useCache turns c
   = (inr (Some (Loyverse.records X pages)),
      {| Loyverse.cl_disk :=
           (CacheService.set (list X) stringify cacheDir path_join cacheKey
              (Loyverse.records X pages) (Loyverse.cl_disk c)).2;
         Loyverse.cl_requests :=
           (Loyverse.cl_requests c
            ++ Loyverse.requests_for X path None None pages)%list |}))
  ∧ ∀ date,
      Loyverse.serves X path respond (Some date) None pages →
      Loyverse.getUpdatedAfter X path respond date turns c
      = (inr (Some (Loyverse.records X pages)),
         {| Loyverse.cl_disk := Loyverse.cl_disk c;
            Loyverse.cl_requests :=
              (Loyverse.cl_requests c
               ++ Loyverse.requests_for X path (Some date) None pages)%list |}).
Proof.
  intros Hturns. split.
  - intros Hserves Hmiss. by apply getAll_served.
  - intros date Hserves. unfold Loyverse.getUpdatedAfter.
    by rewrite (fetch_loop_serves (Some date) pages turns None [] c Hserves Hturns).
Qed.

(** X22. With the cache in use, a full fetch whose cache file exists and
    parses returns what the file holds and sends no request, however old the
    file is and whatever the server would answer. *)
Theorem cache_hit_sends_nothing cacheKey turns c text mtimeMs cached :
  node_at (Loyverse.cl_disk c) (CacheService.getCacheFilePath cacheDir path_join cacheKey)
  = Some (File (Some text) mtimeMs) →
  parse text = Some cached →
  ∀ t,
    let c' := {| Loyverse.cl_disk := at_time t (Loyverse.cl_disk c);
                 Loyverse.cl_requests := Loyverse.cl_requests c |} in
    Loyverse.getAll X path respond stringify parse cacheDir path_join cacheKey
      true turns c'
    = (inr (Some cached), c').
Proof.
  intros Hfile Hparse t c'. by apply (getAll_cached cacheKey turns c' text mtimeMs).
Qed.

(** X23. A fetch that throws has cached nothing: the cache directory is as
    it was, and the exception is the one the last request it sent was
    answered with. The records of the pages read before are dropped. *)
Theorem failed_fetch_caches_nothing cacheKey useCache turns c e :
  let run := Loyverse.getAll X path respond stringify parse cacheDir path_join cacheKey
               useCache turns c in
  run.1 = inl e →
  Loyverse.cl_disk run.2 = Loyverse.cl_disk c
  ∧ ∃ sent request,
      Loyverse.cl_requests run.2 = (Loyverse.cl_requests c ++ sent ++ [request])%list
      ∧ respond request = inl e.
Proof.
  intros run. subst run. unfold Loyverse.getAll.
  rewrite (bind_inr _ _ _ _ _ (cache_lookup cacheKey useCache c)).
  match goal with |- context [match ?found with Some _ => _ | None => _ end c] =>
    destruct found as [cached|]; [done|]
  end.
  pose proof (fetch_loop_failure None turns None [] c) as [Hdisk Hfail].
  destruct (Loyverse.fetch_loop X path respond turns None None [] c)
    as [[e'|items] c1] eqn:Hloop; simpl in Hdisk, Hfail.
  - rewrite (bind_inl _ _ _ _ _ Hloop). simpl.
    intros [= <-]. split; [done|]. by apply Hfail.
  - rewrite (bind_inr _ _ _ _ _ Hloop). destruct items as [items|]; [|done].
    unfold bind, Loyverse.on_disk. simpl.
    pose proof (set_returns stringify cacheDir path_join cacheKey items
                  (Loyverse.cl_disk c1)) as Hset.
    destruct (CacheService.set _ _ _ _ _) as [r d']. simpl in Hset. by subst r.
Qed.

End Fetch.

Lemma fetch_follows_cursors_witness :
  let page1 := {| Loyverse.pg_data := Some ["a"]; Loyverse.pg_cursor := Some "next" |} in
  let page2 := {| Loyverse.pg_data := Some ["b"]; Loyverse.pg_cursor := None |} in
  let respond := λ rq, match Loyverse.rq_cursor rq with
                       | None => inr page1
                       | Some _ => inr page2
                       end in
  let c := {| Loyverse.cl_disk := cache_of [] 0; Loyverse.cl_requests := [] |} in
  (Loyverse.getAll string "/items" respond (λ _, inr "[]") (λ _, None) ".cache" entry_join
     "k" true 5 c).1
  = inr (Some ["a"; "b"])
  ∧ (Loyverse.getUpdatedAfter string "/items" respond "2024" 5 c).1
    = inr (Some ["a"; "b"]).
Proof.
  intros page1 page2 respond c.
  destruct (fetch_follows_cursors "/items" respond (λ _, inr "[]") (λ _, None) ".cache"
              entry_join "k" true 5 [page1; page2] c) as [Hall Hupdated]; [simpl; lia|].
  split.
  - rewrite Hall; [reflexivity| |by right]. simpl. repeat split; reflexivity.
  - rewrite (Hupdated "2024"); [reflexivity|]. simpl. repeat split; reflexivity.
Defined.

Lemma cache_hit_sends_nothing_witness :
  let c := {| Loyverse.cl_disk := cache_of [("k.json", File (Some "stale") 0)] 0;
              Loyverse.cl_requests := [] |} in
  let c' := {| Loyverse.cl_disk := at_time 86400000 (Loyverse.cl_disk c);
               Loyverse.cl_requests := Loyverse.cl_requests c |} in
  Loyverse.getAll string "/items" (λ _, inl Js.NonError) (λ _, inr "[]")
    (λ _, Some ["a"]) ".cache" entry_join "k" true 0 c'
  = (inr (Some ["a"]), c').
Proof.
  intros c.
  apply (cache_hit_sends_nothing "/items" (λ _, inl Js.NonError) (λ _, inr "[]")
           (λ _, Some ["a"]) ".cache" entry_join "k" 0 c "stale" 0 ["a"]);
    vm_compute; reflexivity.
Defined.

Lemma failed_fetch_caches_nothing_witness :
  let respond := λ _ : Loyverse.Request,
                   @inl Js.exn (Loyverse.Page string) (Js.ErrorObj "timeout") in
  let c := {| Loyverse.cl_disk := cache_of [] 0; Loyverse.cl_requests := [] |} in
  let run := Loyverse.getAll string "/items" respond (λ _, inr "[]") (λ _, None)
               ".cache" entry_join "k" true 5 c in
  Loyverse.cl_disk run.2 = Loyverse.cl_disk c
  ∧ ∃ sent request,
      Loyverse.cl_requests run.2 = (Loyverse.cl_requests c ++ sent ++ [request])%list
      ∧ respond request = inl (Js.ErrorObj "timeout").
Proof.
  intros respond c.
  apply (failed_fetch_caches_nothing "/items" respond (λ _, inr "[]") (λ _, None)
           ".cache" entry_join "k" true 5 c (Js.ErrorObj "timeout")).
  reflexivity.
Defined.

(** X24. Nothing bounds the number of pages: against a server every page of
    which carries a cursor, the loop is still running after any number of
    turns, having sent one request per turn. *)
Theorem fetch_has_no_page_limit {X} path (respond : Loyverse.Request → Js.exn + Loyverse.Page X)
    date :
  (∀ request, ∃ page, respond request = inr page
                      ∧ Js.truthy (Loyverse.pg_cursor page) = true) →
  ∀ turns cursor items c,
    let run := Loyverse.fetch_loop X path respond turns date cursor items c in
    run.1 = inr None
    ∧ length (Loyverse.cl_requests run.2) = (length (Loyverse.cl_requests c) + turns)%nat.
Proof.
  intros Hmore. induction turns as [|turns IH]; intros cursor items c.
  - simpl. split; [done|lia].
  - cbn [Loyverse.fetch_loop]. unfold bind at 1 2. unfold Loyverse.http_get at 1 2.
    destruct (Hmore {| Loyverse.rq_path := path; Loyverse.rq_limit := 250;
                       Loyverse.rq_cursor := Js.or_null cursor;
                       Loyverse.rq_updated_at_min := date |}) as (page & -> & ->).
    match goal with
    | |- context [Loyverse.fetch_loop X path respond turns date ?k ?i ?c'] =>
        destruct (IH k i c') as [Hnone Hsent]
    end.
    split; [done|]. rewrite Hsent. simpl. rewrite length_app. simpl. lia.
Qed.

Lemma fetch_has_no_page_limit_witness :
  let page := {| Loyverse.pg_data := Some ["a"]; Loyverse.pg_cursor := Some "again" |} in
  let respond := λ _ : Loyverse.Request, @inr Js.exn (Loyverse.Page string) page in
  let c := {| Loyverse.cl_disk := cache_of [] 0; Loyverse.cl_requests := [] |} in
  let run := Loyverse.fetch_loop string "/items" respond 1000 None None [] c in
  run.1 = inr None
  ∧ length (Loyverse.cl_requests run.2) = (length (Loyverse.cl_requests c) + 1000)%nat.
Proof.
  intros page respond c.
  apply (fetch_has_no_page_limit "/items" respond None).
  intros request. exists page. split; reflexivity.
Defined.

(* ===================================================================== *)
(** * 26. The cross-reference repair *)
(* ===================================================================== *)

(** The steps of an incremental pass whose fetches are all served hand to
    the store the products joined over the repaired lookup, batch by batch
    up to the first batch the store refuses. *)
Lemma incrementalSync_steps_upserts lv lastSync categories items variants inventoryLevels
    f w s repaired s' :
  getAllCategories lv = inr categories →
  getItemsUpdatedAfter lv lastSync = inr items →
  getVariantsUpdatedAfter lv lastSync = inr variants →
  getAllInventoryLevels lv = inr inventoryLevels →
  repair_items lv (itemsMap_of items) variants s = (inr repaired, s') →
  ∃ t k,
    w_trace (incrementalSync_steps lv lastSync (f, w)).2.2 = (w_trace w ++ t)%list
    ∧ upsert_batches t
      = take (S k)
          (slices chunkSize
             (validProducts_of
                (productsData_of (categoryMap_of categories) repaired inventoryLevels
                   variants))).
Proof.
  intros Hc Hi Hv Hl Hrepair. unfold incrementalSync_steps.
  rewrite (bind_inr _ _ _ categories (f, set_trace (w_trace w ++ [EGetAllCategories]) w))
    by (by rewrite call_run, Hc).
  rewrite (bind_inr _ _ _ items
             (f, set_trace ((w_trace w ++ [EGetAllCategories])
                            ++ [EGetItemsUpdatedAfter lastSync]) w))
    by (by rewrite call_run, Hi).
  rewrite (bind_inr _ _ _ variants
             (f, set_trace (((w_trace w ++ [EGetAllCategories])
                             ++ [EGetItemsUpdatedAfter lastSync])
                            ++ [EGetVariantsUpdatedAfter lastSync]) w))
    by (by rewrite call_run, Hv).
  set (w3 := set_trace _ w).
  set (pd := productsData_of (categoryMap_of categories) repaired inventoryLevels variants).
  assert (Htail : ∀ w4,
    ∃ t k, w_trace
             ((let* inventoryLevels :=
                 io (call EGetAllInventoryLevels (getAllInventoryLevels lv)) in
               sync_to_supabase
                 (productsData_of (categoryMap_of categories) repaired inventoryLevels
                    variants)) (f, w4)).2.2
           = (w_trace w4 ++ t)%list
           ∧ upsert_batches t = take (S k) (slices chunkSize (validProducts_of pd))).
  { intros w4.
    rewrite (bind_inr _ _ _ inventoryLevels
               (f, set_trace (w_trace w4 ++ [EGetAllInventoryLevels]) w4))
      by (by rewrite call_run, Hl).
    fold pd. unfold sync_to_supabase.
    destruct (0 <? length pd)%nat eqn:Hlen.
    - destruct (upsertProducts_outcome pd
                  (set_trace (w_trace w4 ++ [EGetAllInventoryLevels]) w4))
        as (k & w' & _ & _ & Ht & Hres).
      exists ([EGetAllInventoryLevels]
              ++ map EUpsert (take (S k) (slices chunkSize (validProducts_of pd))))%list, k.
      split.
      + unfold bind at 1. rewrite io_run.
        destruct Hres as [[_ Hok]|(_ & e & _ & Hko)]; rewrite ?Hok, ?Hko; simpl;
          rewrite Ht; simpl; by rewrite <- app_assoc.
      + by rewrite upsert_batches_app, upsert_batches_upserts.
    - exists [EGetAllInventoryLevels], 0%nat. split; [done|].
      destruct pd; [done|discriminate]. }
  destruct s as [fs ws]. rewrite repair_items_run in Hrepair.
  unfold bind at 1. rewrite repair_items_run.
  destruct (bool_decide (itemIdsNeeded_of (itemsMap_of items) variants = ∅)).
  - injection Hrepair as <- _.
    destruct (Htail w3) as (t & k & Ht & Hbatches).
    exists ([EGetAllCategories; EGetItemsUpdatedAfter lastSync;
             EGetVariantsUpdatedAfter lastSync] ++ t)%list, k.
    split; [|by rewrite upsert_batches_app].
    rewrite Ht. unfold w3. simpl. by rewrite <- !app_assoc.
  - destruct (getAllItems lv) as [e|allItems]; [done|].
    injection Hrepair as <- _.
    destruct (Htail (set_trace (w_trace w3 ++ [EGetAllItems]) w3))
      as (t & k & Ht & Hbatches).
    exists ([EGetAllCategories; EGetItemsUpdatedAfter lastSync;
             EGetVariantsUpdatedAfter lastSync; EGetAllItems] ++ t)%list, k.
    split; [|by rewrite upsert_batches_app].
    rewrite Ht. unfold w3. simpl. by rewrite <- !app_assoc.
Qed.

(** C7 (amended). In an incremental pass with a watermark, the item
    references of the updated variants that the incremental item fetch did
    not bring are collected; when there is at least one, exactly one full
    item fetch is made, and none otherwise. From what the full fetch answers
    only the items with a collected reference enter the item lookup, every
    other entry of the lookup is left as it was, and after the repair the
    lookup has every referenced item that the incremental or the full fetch
    answered. The pass joins the updated variants over this repaired lookup
    and sends the result to the store. The full fetch is the client's
    [getAllItems], here run on the client [c]: without the cache, or with no
    readable item file in it, it answers the items the server serves, so the
    lookup has every referenced item that exists upstream; with the cache in
    use and a readable item file it answers what the file holds, however
    old, and a referenced item that only the server has stays out of the
    lookup. *)
Theorem cross_reference_repair respond stringify parse path_join turns c
    lv useCache w lastSync w1 categories items variants :
  getLastSyncTimestamp (new_Date w).2 = (inr (Some lastSync), w1) →
  getAllCategories lv = inr categories →
  getItemsUpdatedAfter lv lastSync = inr items →
  getVariantsUpdatedAfter lv lastSync = inr variants →
  (Loyverse.getAllItems respond stringify parse path_join useCache turns c).1
  = match getAllItems lv with
    | inl e => inl e
    | inr allItems => inr (Some allItems)
    end →
  let itemsMap := itemsMap_of items in
  let missing := itemIdsNeeded_of itemsMap variants in
  let run := incrementalSync lv useCache w in
  (∀ k, k ∈ missing ↔ ∃ v, v ∈ variants ∧ v_item_id v = k ∧ itemsMap !! k = None)
  ∧ full_item_fetches (calls_of w run.2)
    = (if bool_decide (missing = ∅) then 0%nat else 1%nat)
  ∧ (∀ s repaired s',
       repair_items lv itemsMap variants s = (inr repaired, s') →
       (∀ k, k ∉ missing → repaired !! k = itemsMap !! k)
       ∧ (∀ k item,
            repaired !! k = Some item →
            itemsMap !! k = Some item
            ∨ (k ∈ missing ∧ i_id item = k
               ∧ ∃ allItems, getAllItems lv = inr allItems ∧ item ∈ allItems))
       ∧ (∀ v, v ∈ variants → is_Some (itemsMap !! v_item_id v) →
               is_Some (repaired !! v_item_id v))
       ∧ (∀ v allItems item,
            v ∈ variants → getAllItems lv = inr allItems →
            item ∈ allItems → i_id item = v_item_id v →
            is_Some (repaired !! v_item_id v))
       ∧ (∀ inventoryLevels,
            getAllInventoryLevels lv = inr inventoryLevels →
            let productsData :=
              productsData_of (categoryMap_of categories) repaired inventoryLevels
                variants in
            map pwi_variant productsData = List.filter (resolvable repaired) variants
            ∧ ∃ k, upsert_batches (calls_of w run.2)
                   = take (S k) (slices chunkSize (validProducts_of productsData)))
       ∧ (∀ pages,
            Loyverse.serves LoyverseItem "/items" respond None None pages →
            (length pages ≤ turns)%nat →
            useCache = false
            ∨ (CacheService.get (list LoyverseItem) parse ".cache" path_join
                 "loyverse_items" (Loyverse.cl_disk c)).1 = inr None →
            getAllItems lv = inr (Loyverse.records LoyverseItem pages)
            ∧ ∀ v item,
                v ∈ variants → item ∈ Loyverse.records LoyverseItem pages →
                i_id item = v_item_id v →
                is_Some (repaired !! v_item_id v)))
  ∧ (∀ text mtimeMs cached,
       useCache = true →
       node_at (Loyverse.cl_disk c)
         (CacheService.getCacheFilePath ".cache" path_join "loyverse_items")
       = Some (File (Some text) mtimeMs) →
       parse text = Some cached →
       getAllItems lv = inr cached).
Proof.
  intros Hlast Hc Hi Hv Hclient itemsMap missing run. simpl in Hlast.
  assert (Hcalls : ∃ t, calls_of w run.2
                        = ([ESelectLastSync] ++ t ++ [EInsertLog
                             (log_row "incremental"
                                (final_frame (incrementalSync_steps lv lastSync (frame0, w1)).1
                                   (incrementalSync_steps lv lastSync (frame0, w1)).2.1)
                                (w_clock w)
                                (final_status (incrementalSync_steps lv lastSync (frame0, w1)).1)
                                (incrementalSync_steps lv lastSync (frame0, w1)).2.2)])%list
                        ∧ w_trace (incrementalSync_steps lv lastSync (frame0, w1)).2.2
                          = (w_trace w1 ++ t)%list).
  { destruct (incrementalSync_steps lv lastSync (frame0, w1)) as [res [f1 w2]] eqn:Hsteps.
    destruct (incrementalSync_run _ useCache _ _ _ _ _ _ Hlast Hsteps)
      as (w3 & Hrun & Htrace & _).
    pose proof (incrementalSync_steps_no_delete lv lastSync (frame0, w1))
      as [[(t & Ht & _) _] _].
    rewrite Hsteps in Ht. simpl in Ht.
    pose proof (getLastSyncTimestamp_trace (set_clock (S (w_clock w)) w)) as Ht0.
    rewrite Hlast in Ht0. simpl in Ht0.
    exists t. split; [|done]. unfold run. rewrite Hrun. simpl.
    apply calls_of_app. simpl. by rewrite Htrace, Ht, Ht0, <- !app_assoc. }
  destruct Hcalls as (t & Hcalls & Ht).
  assert (Hserved : ∀ pages,
            Loyverse.serves LoyverseItem "/items" respond None None pages →
            (length pages ≤ turns)%nat →
            useCache = false
            ∨ (CacheService.get (list LoyverseItem) parse ".cache" path_join
                 "loyverse_items" (Loyverse.cl_disk c)).1 = inr None →
            getAllItems lv = inr (Loyverse.records LoyverseItem pages)).
  { intros pages Hserves Hturns Hmiss. revert Hclient. unfold Loyverse.getAllItems.
    rewrite (getAll_served "/items" respond stringify parse ".cache" path_join
               "loyverse_items" useCache turns pages c Hturns Hserves Hmiss).
    simpl. destruct (getAllItems lv) as [e|allItems]; [done|]. by intros [= ->]. }
  split_and!.
  - intros k. apply itemIdsNeeded_spec.
  - destruct (incrementalSync_steps_fetches lv lastSync categories items variants
                frame0 w1 Hc Hi Hv) as (t' & Ht' & Hcount).
    rewrite Ht in Ht'. apply app_inv_head in Ht' as ->.
    rewrite Hcalls, !full_item_fetches_app, Hcount. fold itemsMap missing.
    unfold full_item_fetches. simpl. lia.
  - intros [f s] repaired s' Hrepair.
    assert (Hfound : ∀ v allItems item,
              v ∈ variants → getAllItems lv = inr allItems →
              item ∈ allItems → i_id item = v_item_id v →
              is_Some (repaired !! v_item_id v)).
    { pose proof Hrepair as Hrepaired. rewrite repair_items_run in Hrepaired.
      fold missing in Hrepaired. case_bool_decide as Hempty.
      - injection Hrepaired as <- <-. intros v allItems item Hin _ _ _.
        destruct (itemsMap !! v_item_id v) eqn:E; [by eexists|].
        assert (v_item_id v ∈ missing) as Hm by (apply itemIdsNeeded_spec; by exists v).
        rewrite Hempty in Hm. by apply not_elem_of_empty in Hm.
      - destruct (getAllItems lv) as [e|allItems]; [done|].
        injection Hrepaired as <- <-.
        intros v allItems' item Hin [= <-] Hitem Hid.
        destruct (itemsMap !! v_item_id v) eqn:E.
        { apply fill_missing_keeps. rewrite E. by eexists. }
        rewrite <- Hid. apply fill_missing_found; [done|].
        rewrite Hid. apply itemIdsNeeded_spec. by exists v. }
    split_and!; [| | |exact Hfound| |].
    + pose proof Hrepair as Hrepaired. rewrite repair_items_run in Hrepaired.
      fold missing in Hrepaired. case_bool_decide as Hempty.
      * by injection Hrepaired as <- <-.
      * destruct (getAllItems lv) as [e|allItems]; [done|].
        injection Hrepaired as <- <-. intros k Hk. by apply fill_missing_other.
    + pose proof Hrepair as Hrepaired. rewrite repair_items_run in Hrepaired.
      fold missing in Hrepaired. case_bool_decide as Hempty.
      * injection Hrepaired as <- <-. intros k item Hk. by left.
      * destruct (getAllItems lv) as [e|allItems]; [done|].
        injection Hrepaired as <- <-. intros k item Hk.
        apply fill_missing_origin in Hk as [?|(? & ? & ?)]; [by left|].
        right. split_and!; try done. by exists allItems.
    + pose proof Hrepair as Hrepaired. rewrite repair_items_run in Hrepaired.
      fold missing in Hrepaired. case_bool_decide as Hempty.
      * by injection Hrepaired as <- <-.
      * destruct (getAllItems lv) as [e|allItems]; [done|].
        injection Hrepaired as <- <-. intros v _ Hsome. by apply fill_missing_keeps.
    + intros inventoryLevels Hl productsData. split; [apply join_variants|].
      destruct (incrementalSync_steps_upserts lv lastSync categories items variants
                  inventoryLevels frame0 w1 (f, s) repaired s' Hc Hi Hv Hl Hrepair)
        as (t' & k & Ht' & Hbatches).
      rewrite Ht in Ht'. apply app_inv_head in Ht' as ->.
      exists k. rewrite Hcalls, !upsert_batches_app, Hbatches. simpl.
      by rewrite app_nil_r.
    + intros pages Hserves Hturns Hmiss.
      pose proof (Hserved pages Hserves Hturns Hmiss) as Hall. split; [done|].
      intros v item Hin Hitem Hid. by apply (Hfound v _ item Hin Hall).
  - intros text mtimeMs cached -> Hfile Hparse. revert Hclient.
    unfold Loyverse.getAllItems.
    rewrite (getAll_cached "/items" respond stringify parse ".cache" path_join
               "loyverse_items" turns c text mtimeMs cached Hfile Hparse).
    simpl. destruct (getAllItems lv) as [e|allItems]; [done|]. by intros [= ->].
Qed.

Lemma cross_reference_repair_witness :
  let page := {| Loyverse.pg_data := Some [Scenario.shirt]; Loyverse.pg_cursor := None |} in
  let respond := λ _ : Loyverse.Request, @inr Js.exn (Loyverse.Page LoyverseItem) page in
  let lv := Scenario.client [Scenario.shirt] [Scenario.variant "v1" None] in
  let w := Scenario.store [] None [Scenario.earlier_success] no_faults in
  let run := incrementalSync lv false w in
  full_item_fetches (calls_of w run.2) = 1%nat
  ∧ getAllItems lv = inr (Loyverse.records LoyverseItem [page])
  ∧ map (map p_sku) (upsert_batches (calls_of w run.2)) = [["v1"]].
Proof.
  intros page respond lv w run. subst run.
  set (c := {| Loyverse.cl_disk := cache_of [] 0; Loyverse.cl_requests := [] |}).
  assert (Hclient :
    (Loyverse.getAllItems respond (λ _, inr "[]") (λ _, None) entry_join false 5 c).1
    = match getAllItems lv with
      | inl e => inl e
      | inr allItems => inr (Some allItems)
      end) by (vm_compute; reflexivity).
  assert (H := λ w1 H1, cross_reference_repair respond (λ _, inr "[]") (λ _, None) entry_join
                          5 c lv false w 1%nat w1 [] [] [Scenario.variant "v1" None]
                          H1 eq_refl eq_refl eq_refl Hclient).
  edestruct H as (_ & Hcount & Hrepair & _); [vm_compute; reflexivity|].
  split; [rewrite Hcount; by vm_compute|].
  edestruct (Hrepair (frame0, w)) as (_ & _ & _ & _ & Hjoin & Hupstream);
    [reflexivity|].
  split.
  - apply (Hupstream [page]); [by split|simpl; lia|by left].
  - destruct (Hjoin [] eq_refl) as [_ [k Hk]]. rewrite Hk.
    destruct k; vm_compute; reflexivity.
Defined.

(** C7 as stated fails with the cache in use: the server serves the item
    the updated variant refers to, the item file of the cache, written
    earlier, holds an empty list, and the one full fetch of the pass is
    answered from the file without a request. The lookup stays empty after
    the repair, the variant is dropped, and nothing is sent to the store. *)
Lemma cross_reference_repair_counterexample :
  let page := {| Loyverse.pg_data := Some [Scenario.shirt]; Loyverse.pg_cursor := None |} in
  let respond := λ _ : Loyverse.Request, @inr Js.exn (Loyverse.Page LoyverseItem) page in
  let parse := λ _ : string, Some (@nil LoyverseItem) in
  let c := {| Loyverse.cl_disk :=
                cache_of [("loyverse_items.json", File (Some "[]") 0)] 86400000;
              Loyverse.cl_requests := [] |} in
  let lv := Scenario.client [] [Scenario.variant "v1" None] in
  let w := Scenario.store [] None [Scenario.earlier_success] no_faults in
  let run := incrementalSync lv true w in
  Loyverse.serves LoyverseItem "/items" respond None None [page]
  ∧ Scenario.shirt ∈ Loyverse.records LoyverseItem [page]
  ∧ i_id Scenario.shirt = v_item_id (Scenario.variant "v1" None)
  ∧ Loyverse.getAllItems respond (λ _, inr "[]") parse entry_join true 5 c
    = (inr (Some []), c)
  ∧ getAllItems lv = inr []
  ∧ full_item_fetches (calls_of w run.2) = 1%nat
  ∧ (repair_items lv (itemsMap_of []) [Scenario.variant "v1" None] (frame0, w)).1
    = inr ∅
  ∧ upsert_batches (calls_of w run.2) = []
  ∧ w_products run.2 !! "v1" = None.
Proof.
  intros page respond parse c lv w run. split_and!.
  - by split.
  - apply list_elem_of_singleton. reflexivity.
  - reflexivity.
  - vm_compute. reflexivity.
  - reflexivity.
  - vm_compute. reflexivity.
  - vm_compute. reflexivity.
  - vm_compute. reflexivity.
  - vm_compute. reflexivity.
Qed.
